(** * Ingestion and deduplication engine of the meeting-notes agent

    A shallow embedding of the four pieces of the repository that carry
    the ingestion invariants, each in a module named after its source file:

    - [Watcher]  : [drive_watcher.py]  (ledger, stability probe, local scan)
    - [Sanitize] : [_sanitize_filename] of [poller.py]
    - [Zoom]     : [server/src/zoom/client.py], [insforge_db.py], [poller.py]
    - [Mirror]   : the two bulk sync passes of [telegram_bot.py]

    Python code that raises is embedded in a state-and-exception monad in
    which, as in Python, the effects performed before a [raise] stay.  A
    Python [str] is the list of its code points.  What the code asks of its
    surroundings (clock, file system, HTTP services) is answered by an
    environment record, so that every property holds for every behaviour
    of the surroundings.

    The embedding comes first, then the concrete scenarios, then the
    properties, in the modules [SanitizeSpec], [WatcherSpec], [ZoomSpec]
    and [MirrorSpec].  The modules [SanitizeMore], [WatcherMore],
    [ZoomMore], [MirrorMore], [TelegramSpec] and [TranscribeSpec] hold
    further properties of the same code and of the code next to it:
    the watch loop as a whole, the poll loop as a whole, the error list
    of [bot_state.py], the file names of the bot and [main] of
    [transcribe.py]. *)

From Stdlib Require Import ZArith QArith List Bool Ascii String Sorted Lia.
From stdpp Require Import base option list gmap strings.
Import ListNotations.

Local Open Scope string_scope.
Local Open Scope list_scope.
Local Open Scope Z_scope.

(** ** Strings *)

(** A [str]: its code points, so that [len], slices and the character
    classes are Python's. *)
Abbreviation str := (list N).

(** The [str] of an ASCII literal. *)
Definition py (s : string) : str :=
  map N_of_ascii (list_ascii_of_string s).
Arguments py : simpl never.

(** Python truthiness of a [str]. *)
Definition str_truthy (s : str) : bool :=
  match s with [] => false | _ => true end.

(** [needle in haystack] on two [str]: substring test. *)
Fixpoint str_contains (needle haystack : str) : bool :=
  bool_decide (needle `prefix_of` haystack)
  || match haystack with
     | [] => false
     | _ :: rest => str_contains needle rest
     end.

(** ** Exceptions and the state-and-exception monad *)

(** The [OSError] subclasses the file-system calls of the sources raise. *)
Inductive oserror : Type :=
| FileNotFoundError
| PermissionError
| IsADirectoryError
| NotADirectoryError
| FileExistsError
| IOFailure.

(** The exception classes that occur in the embedded code.  [except
    OSError] catches every [OSError _]; [UnicodeDecodeError] and
    [JSONDecodeError] are both subclasses of [ValueError] and of nothing
    else, so neither is caught by a handler for the other or for
    [OSError]; [ValueError] itself, [RecursionError] and [OverflowError]
    are caught by neither. *)
Inductive exn : Type :=
| OSError (e : oserror)
| ValueError
| UnicodeDecodeError
| JSONDecodeError
| TypeError
| KeyError (key : str)
| HTTPStatusError (status_code : Z)
| TransportError
| RecursionError
| OverflowError.

Definition is_OSError (e : exn) : bool :=
  match e with OSError _ => true | _ => false end.

Inductive result (A : Type) : Type :=
| Ok (a : A)
| Raise (e : exn).
Arguments Ok {A} a.
Arguments Raise {A} e.

(** A computation over a mutable state [S]: it returns a value or raises,
    and in both cases leaves a state behind. *)
Definition M (S A : Type) : Type := S -> result A * S.

Definition ret {S A} (a : A) : M S A := fun s => (Ok a, s).
Definition raise {S A} (e : exn) : M S A := fun s => (Raise e, s).
Definition bind {S A B} (c : M S A) (k : A -> M S B) : M S B :=
  fun s => match c s with
           | (Ok a, s') => k a s'
           | (Raise e, s') => (Raise e, s')
           end.
Definition get {S} : M S S := fun s => (Ok s, s).
Definition put {S} (s : S) : M S unit := fun _ => (Ok tt, s).
Definition modify {S} (f : S -> S) : M S unit := fun s => (Ok tt, f s).
Definition lift_result {S A} (r : result A) : M S A := fun s => (r, s).

(** [try: c except p => h]: the handler [h] runs for the exceptions the
    clause [p] matches, from the state in which they were raised. *)
Definition try_except {S A} (c : M S A) (p : exn -> bool) (h : exn -> M S A)
  : M S A :=
  fun s => match c s with
           | (Ok a, s') => (Ok a, s')
           | (Raise e, s') => if p e then h e s' else (Raise e, s')
           end.

Declare Scope py_scope.
Delimit Scope py_scope with py.
Notation "x <- c ;; k" := (bind c (fun x => k))
  (at level 100, c at next level, right associativity) : py_scope.
Notation "c ;;; k" := (bind c (fun _ => k))
  (at level 100, right associativity) : py_scope.

(** A [for] loop whose body may raise: the first exception ends the loop. *)
Fixpoint for_each {S A} (l : list A) (body : A -> M S unit) : M S unit :=
  match l with
  | [] => ret tt
  | x :: l' => bind (body x) (fun _ => for_each l' body)
  end.

(** ** JSON values, as [json.loads] returns them *)

#[local] Unset Elimination Schemes.
Inductive json : Type :=
| JNull
| JBool (b : bool)
| JNumber (literal : str)
| JStr (s : str)
| JArr (items : list json)
| JObj (fields : gmap str json).
#[local] Set Elimination Schemes.

(** [key in container] for a [str] key and a container that came out of
    [json.loads]: key membership on a dict, element equality on a list,
    substring on a str, [TypeError] on the values that are not iterable. *)
Definition py_in (key : str) (container : json) : result bool :=
  match container with
  | JObj fields => Ok (bool_decide (is_Some (fields !! key)))
  | JArr items =>
      Ok (existsb (fun v => match v with
                            | JStr s => bool_decide (s = key)
                            | _ => false
                            end) items)
  | JStr s => Ok (str_contains key s)
  | JNull | JBool _ | JNumber _ => Raise TypeError
  end.

(** [container[key] = value] for a [str] key: only a dict supports it. *)
Definition py_setitem (container : json) (key : str) (value : json)
  : result json :=
  match container with
  | JObj fields => Ok (JObj (<[key := value]> fields))
  | _ => Raise TypeError
  end.

(** The longest sleep, in whole seconds, that fits the signed 64-bit count
    of nanoseconds [time.sleep] converts its argument to. *)
Definition SLEEP_MAX : Z := 9223372036.

(** [time.sleep] of a whole number of seconds.  A negative length raises
    [ValueError] and one beyond [SLEEP_MAX] raises [OverflowError], both
    before any sleep.  A length in between is handed to the platform,
    which sleeps, or rejects the deadline with an [OSError] (on Linux
    [EINVAL], when the monotonic clock plus the length is out of the
    range of the kernel): [fault] is that answer. *)
Definition time_sleep {S} (advance : Z -> S -> S) (fault : option oserror)
    (seconds : Z) : M S unit :=
  fun s => if seconds <? 0 then (Raise ValueError, s)
           else if SLEEP_MAX <? seconds then (Raise OverflowError, s)
           else match fault with
                | Some e => (Raise (OSError e), s)
                | None => (Ok tt, advance seconds s)
                end.

(** ** pathlib *)

Definition SEP : N := 47.
Definition DOT : N := 46.

Fixpoint split (sep : N) (s : str) : list str :=
  match s with
  | [] => [[]]
  | c :: s' =>
      if N.eqb c sep then [] :: split sep s'
      else match split sep s' with
           | [] => [[c]]
           | part :: parts => (c :: part) :: parts
           end
  end.

(** The parts pathlib parses a POSIX path into: the components between
    separators, without the empty ones and the ones that are one dot. *)
Definition path_parts (s : str) : list str :=
  filter (fun part => part ≠ [] ∧ part ≠ [DOT]) (split SEP s).

(** [Path(s).name]: the final component, empty when there is none. *)
Definition path_name (s : str) : str :=
  List.last (path_parts s) [].

(** A [Path], as the list of its parts. *)
Abbreviation Path := (list str).

(** [Path.parent] *)
Definition parent (p : Path) : Path := removelast p.

(** [p / rel] for a relative [rel]. *)
Definition joinpath (p : Path) (rel : str) : Path := p ++ path_parts rel.

(** [str(p)] for a relative path [p]. *)
Fixpoint path_str (p : Path) : str :=
  match p with
  | [] => [DOT]
  | [part] => part
  | part :: rest => part ++ [SEP] ++ path_str rest
  end.

(** * [drive_watcher.py] *)

Module Watcher.

Definition SUPPORTED_EXTENSIONS : list str :=
  map py [".mp4"; ".avi"; ".mov"; ".mkv"; ".webm";
          ".mp3"; ".wav"; ".m4a"; ".aac"; ".ogg"].

Definition POLL_INTERVAL : Z := 10.
Definition STABLE_WAIT : Z := 30.

(** ** The tracker file on disk

    What [Path.exists], [Path.read_text] and [json.loads] make of the file
    at the tracker path.  A file that can be read holds either a text that
    [json.loads] accepts, given by the value it parses to, or one that it
    rejects: [NotJson] is no JSON document ([JSONDecodeError]),
    [TooManyDigits] has an integer literal beyond the digit limit of
    [int] (plain [ValueError]), [TooDeep] is nested beyond the recursion
    limit ([RecursionError]).  [Undecodable] is a file whose bytes are
    not text in the default encoding: [read_text] raises
    [UnicodeDecodeError] on it.  [Unstatable e] is a path that [stat]
    fails on with an error other than the ones [Path.exists] takes for
    absence, such as a denied permission or a name that is too long:
    [Path.exists] raises [OSError e] on it. *)
Inductive text : Type :=
| NotJson
| TooManyDigits
| TooDeep
| JsonText (value : json).

Inductive file_state : Type :=
| Missing
| Unstatable (e : oserror)
| Unreadable (e : oserror)
| Undecodable
| Readable (t : text).

(** [write_fault = Some (e, after)]: the next [write_text] raises
    [OSError e] and leaves the file in state [after]. *)
Record disk : Type := {
  content : file_state;
  write_fault : option (oserror * file_state)
}.

Definition path_exists (d : disk) : result bool :=
  match content d with
  | Missing => Ok false
  | Unstatable e => Raise (OSError e)
  | _ => Ok true
  end.

Definition read_text (d : disk) : result text :=
  match content d with
  | Missing => Raise (OSError FileNotFoundError)
  | Unstatable e => Raise (OSError e)
  | Unreadable e => Raise (OSError e)
  | Undecodable => Raise UnicodeDecodeError
  | Readable t => Ok t
  end.

Definition json_loads (t : text) : result json :=
  match t with
  | NotJson => Raise JSONDecodeError
  | TooManyDigits => Raise ValueError
  | TooDeep => Raise RecursionError
  | JsonText value => Ok value
  end.

(** [json.dumps] of a value built from dicts, lists, strings, numbers,
    booleans and [None] is a text that [json.loads] maps back to it. *)
Definition json_dumps (value : json) : text := JsonText value.

Definition write_text (t : text) (d : disk) : result unit * disk :=
  match write_fault d with
  | Some (e, after) =>
      (Raise (OSError e), {| content := after; write_fault := write_fault d |})
  | None => (Ok tt, {| content := Readable t; write_fault := None |})
  end.

(** ** class FileTracker *)

Record FileTracker : Type := {
  path : str;
  processed : json
}.

(** The state the watcher runs in: the wall clock in seconds, the number
    of size reads made so far, the tracker object, the tracker file, and
    the files handed to the processor so far. *)
Record world : Type := {
  clock : Z;
  observed : nat;
  tracker : FileTracker;
  store : disk;
  invoked : list str
}.

Definition set_processed (value : json) (w : world) : world :=
  {| clock := clock w;
     observed := observed w;
     tracker := {| path := path (tracker w); processed := value |};
     store := store w;
     invoked := invoked w |}.

Definition set_store (d : disk) (w : world) : world :=
  {| clock := clock w; observed := observed w; tracker := tracker w;
     store := d; invoked := invoked w |}.

Definition advance (seconds : Z) (w : world) : world :=
  {| clock := clock w + seconds; observed := observed w;
     tracker := tracker w; store := store w; invoked := invoked w |}.

Definition record_invocation (filepath : str) (w : world) : world :=
  {| clock := clock w; observed := observed w; tracker := tracker w;
     store := store w; invoked := invoked w ++ [filepath] |}.

(** One more size read has been made. *)
Definition count_read (w : world) : world :=
  {| clock := clock w; observed := S (observed w); tracker := tracker w;
     store := store w; invoked := invoked w |}.

Local Open Scope py_scope.

Definition catches_load_errors (e : exn) : bool :=
  match e with
  | JSONDecodeError => true
  | OSError _ => true
  | _ => false
  end.

Definition _load : M world unit :=
  w <- get;;
  there <- lift_result (path_exists (store w));;
  if (there : bool) then
    try_except
      (t <- lift_result (read_text (store w));;
       value <- lift_result (json_loads t);;
       modify (set_processed value))
      catches_load_errors
      (fun _ => modify (set_processed (JObj ∅)))
  else ret tt.

Definition _save : M world unit :=
  w <- get;;
  let (r, d) := write_text (json_dumps (processed (tracker w))) (store w) in
  put (set_store d w);;;
  lift_result r.

(** [FileTracker(tracker_path)]: a new tracker object over the current
    store. *)
Definition __init__ (tracker_path : str) : M world unit :=
  w <- get;;
  put {| clock := clock w;
         observed := observed w;
         tracker := {| path := tracker_path; processed := JObj ∅ |};
         store := store w;
         invoked := invoked w |};;;
  _load.

Definition is_processed (filepath : str) : M world bool :=
  w <- get;;
  lift_result (py_in filepath (processed (tracker w))).

Definition ledger_entry (timestamp : str) (success : bool) : json :=
  JObj (<[py "timestamp" := JStr timestamp]>
        (<[py "success" := JBool success]> ∅)).

(** [strftime] is the reading of [time.strftime] at a clock value. *)
Definition mark_processed (strftime : Z -> str)
    (filepath : str) (success : bool) : M world unit :=
  w <- get;;
  value <- lift_result
             (py_setitem (processed (tracker w)) filepath
                (ledger_entry (strftime (clock w)) success));;
  modify (set_processed value);;;
  _save.

(** ** Suffixes and the order of paths *)

Fixpoint rfind (c : N) (s : str) (i : nat) : option nat :=
  match s with
  | [] => None
  | x :: s' =>
      match rfind c s' (S i) with
      | Some j => Some j
      | None => if N.eqb x c then Some i else None
      end
  end.

(** [Path(s).suffix]: from the last dot of the name on, unless that dot
    starts or ends the name. *)
Definition path_suffix (s : str) : str :=
  let name := path_name s in
  match rfind DOT name 0 with
  | Some i =>
      if ((0 <? i) && (i <? length name - 1))%nat
      then skipn i name else []
  | None => []
  end.

(** [str.lower] of one character: the ASCII capitals, and the Kelvin sign
    U+212A, the one other character whose lowercase is an ASCII letter.
    The remaining characters are kept: no lowercase of theirs consists of
    ASCII letters only, so this decides membership in
    [SUPPORTED_EXTENSIONS] as [str.lower] does. *)
Definition char_lower (c : N) : N :=
  if ((65 <=? c) && (c <=? 90))%N then (c + 32)%N
  else if (c =? 8490)%N then 107%N
  else c.

Definition str_lower (s : str) : str := map char_lower s.

Definition is_supported_file (filepath : str) : bool :=
  bool_decide (str_lower (path_suffix filepath) ∈ SUPPORTED_EXTENSIONS).

(** [str.__lt__]: lexicographic on code points. *)
Fixpoint str_compare (a b : str) : comparison :=
  match a, b with
  | [], [] => Eq
  | [], _ :: _ => Lt
  | _ :: _, [] => Gt
  | x :: a', y :: b' =>
      match N.compare x y with
      | Eq => str_compare a' b'
      | c => c
      end
  end.

(** [Path.__lt__]: lexicographic on the lists of parts. *)
Fixpoint parts_ltb (a b : list str) : bool :=
  match a, b with
  | _, [] => false
  | [], _ :: _ => true
  | x :: a', y :: b' =>
      match str_compare x y with
      | Lt => true
      | Gt => false
      | Eq => parts_ltb a' b'
      end
  end.

(** One path yielded by [inbox.rglob('*')]: its string, whether it is a
    regular file, and what [resolve()] makes of it. *)
Record dir_entry : Type := {
  entry_path : str;
  is_file : bool;
  resolve : str
}.

Definition entry_ltb (a b : dir_entry) : bool :=
  parts_ltb (path_parts (entry_path a)) (path_parts (entry_path b)).

(** [sorted]: a stable sort that only uses [<]. *)
Fixpoint insert_sorted (x : dir_entry) (l : list dir_entry) : list dir_entry :=
  match l with
  | [] => [x]
  | y :: l' => if entry_ltb x y then x :: y :: l'
               else y :: insert_sorted x l'
  end.

Definition sorted (l : list dir_entry) : list dir_entry :=
  fold_left (fun acc x => insert_sorted x acc) l [].

(** The paths a scan appends to [new_files] for a ledger with the keys of
    [fields]. *)
Definition unseen (fields : gmap str json) (entries : list dir_entry)
  : list str :=
  map resolve
    (List.filter (fun e => is_file e && is_supported_file (entry_path e)
                      && negb (bool_decide (is_Some (fields !! resolve e))))
       entries).

(** The inbox directory as one scan sees it: [None] when it does not
    exist, else what [rglob('*')] yields. *)
Definition inbox_dir : Type := option (list dir_entry).

(** ** What the watcher observes of its surroundings

    The scan, the processor and the time stamp are answered by the clock
    value they happen at.  A size read is answered by the clock value
    and by its number among the size reads, so that two reads with no
    time between them are two observations.  [sleep_fault t n] is what
    the platform answers to a sleep of [n] seconds asked for at [t]. *)
Record env : Type := {
  getsize : Z -> nat -> str -> result Z;
  sleep_fault : Z -> Z -> option oserror;
  inbox_at : Z -> inbox_dir;
  process_single_file : Z -> str -> result bool;
  strftime : Z -> str
}.

(** [time.sleep(seconds)] at the current clock value. *)
Definition sleep (E : env) (seconds : Z) : M world unit :=
  fun w => time_sleep advance (sleep_fault E (clock w) seconds) seconds w.

Definition os_path_getsize (E : env) (filepath : str) : M world Z :=
  fun w => (getsize E (clock w) (observed w) filepath, count_read w).

Definition is_file_stable (E : env) (filepath : str) (wait_seconds : Z)
  : M world bool :=
  try_except
    (size1 <- os_path_getsize E filepath;;
     sleep E wait_seconds;;;
     size2 <- os_path_getsize E filepath;;
     ret ((size1 =? size2) && (size2 >? 0)))
    is_OSError
    (fun _ => ret false).

Fixpoint scan_entries (entries : list dir_entry) (new_files : list str)
  : M world (list str) :=
  match entries with
  | [] => ret new_files
  | filepath :: rest =>
      if is_file filepath && is_supported_file (entry_path filepath) then
        let abs_path := resolve filepath in
        seen <- is_processed abs_path;;
        if negb seen then scan_entries rest (new_files ++ [abs_path])
        else scan_entries rest new_files
      else scan_entries rest new_files
  end.

Definition find_new_files (inbox : inbox_dir) : M world (list str) :=
  match inbox with
  | None => ret []
  | Some entries => scan_entries (sorted entries) []
  end.

Definition process_file (E : env) (filepath : str) : M world bool :=
  modify (record_invocation filepath);;;
  w <- get;;
  lift_result (process_single_file E (clock w) filepath).

(** The body of the [for filepath in new_files] loop of [run_watcher]. *)
Definition handle_file (E : env) (filepath : str) : M world unit :=
  stable <- is_file_stable E filepath STABLE_WAIT;;
  if negb stable then ret tt
  else
    try_except
      (success <- process_file E filepath;;
       mark_processed (strftime E) filepath success)
      (fun _ => true)
      (fun _ => mark_processed (strftime E) filepath false).

(** One turn of the [while running] loop of [run_watcher], with no signal
    delivered. *)
Definition watch_cycle (E : env) : M world unit :=
  w <- get;;
  new_files <- find_new_files (inbox_at E (clock w));;
  for_each new_files (handle_file E);;;
  sleep E POLL_INTERVAL.

(** [run_watcher] without [dry_run], up to the given number of turns of
    its loop. *)
Fixpoint run_watcher (E : env) (turns : nat) : M world unit :=
  match turns with
  | O => ret tt
  | S turns' => watch_cycle E;;; run_watcher E turns'
  end.

End Watcher.

(** * [_sanitize_filename] of [server/src/zoom/poller.py] *)

Module Sanitize.

(** [Py_UNICODE_ISSPACE]: the characters [str.strip] removes and the
    [\s] of a [str] pattern matches. *)
Definition isspace (c : N) : bool :=
  (((9 <=? c) && (c <=? 13)) || ((28 <=? c) && (c <=? 32))
   || (c =? 133) || (c =? 160) || (c =? 5760)
   || ((8192 <=? c) && (c <=? 8202))
   || (c =? 8232) || (c =? 8233) || (c =? 8239) || (c =? 8287)
   || (c =? 12288))%N.

(** The character class of the first pattern: the characters
    < > : / | ? *, the double quote and the backslash. *)
Definition RESERVED : list N := [60; 62; 58; 34; 47; 92; 124; 63; 42]%N.

Definition is_reserved (c : N) : bool := bool_decide (c ∈ RESERVED).

Definition UNDERSCORE : N := 95.
Definition HYPHEN : N := 45.

(** The first [re.sub]: every reserved character becomes an underscore. *)
Definition sub_reserved (name : str) : str :=
  map (fun c => if is_reserved c then UNDERSCORE else c) name.

Fixpoint lstrip (s : str) : str :=
  match s with
  | [] => []
  | c :: s' => if isspace c then lstrip s' else s
  end.

Definition rstrip (s : str) : str := rev (lstrip (rev s)).

(** [name.strip()] *)
Definition strip (s : str) : str := rstrip (lstrip s).

(** [re.sub(r'\s+', '-', s)]: every maximal run of whitespace becomes one
    hyphen.  [in_run] says that the previous character was whitespace. *)
Fixpoint sub_whitespace_from (in_run : bool) (s : str) : str :=
  match s with
  | [] => []
  | c :: s' =>
      if isspace c then
        if in_run then sub_whitespace_from true s'
        else HYPHEN :: sub_whitespace_from true s'
      else c :: sub_whitespace_from false s'
  end.

Definition sub_whitespace (s : str) : str := sub_whitespace_from false s.

Definition _sanitize_filename (name : str) : str :=
  let name := sub_reserved name in
  let name := sub_whitespace (strip name) in
  match firstn 100 name with
  | [] => py "untitled"
  | prefix => prefix
  end.

(** A character without reserved meaning, and one that may stand in a
    directory name. *)
Definition unreserved (c : N) : Prop := is_reserved c = false.
Definition clean (c : N) : Prop := is_reserved c = false ∧ isspace c = false.

(** ** The name in the words of the specification

    Not taken from the code: what the name of a topic is to be, to compare
    [_sanitize_filename] with.  The words of a topic are its maximal runs
    of characters that are not whitespace, as [str.split()] gives
    them. *)
Fixpoint words (s : str) : list str :=
  match s with
  | [] => []
  | c :: s' =>
      if isspace c then words s'
      else match s' with
           | [] => [[c]]
           | d :: _ =>
               if isspace d then [c] :: words s'
               else match words s' with
                    | w :: ws => (c :: w) :: ws
                    | [] => [[c]]
                    end
           end
  end.

(** [sep.join(parts)] *)
Fixpoint join (sep : str) (parts : list str) : str :=
  match parts with
  | [] => []
  | [part] => part
  | part :: rest => part ++ sep ++ join sep rest
  end.

(** The words of the topic, each with an underscore for every reserved
    character, joined by one hyphen each; of that the first 100
    characters; and untitled when nothing is left. *)
Definition spec_name (topic : str) : str :=
  match firstn 100 (join [HYPHEN] (map sub_reserved (words topic))) with
  | [] => py "untitled"
  | prefix => prefix
  end.

End Sanitize.

(** * [server/src/zoom]: [insforge_db.py], [client.py], [poller.py] *)

Module Zoom.

(** ** Rows and payloads *)

(** A row of the [zoom_tokens] table; [None] is a null column. *)
Record token_row : Type := {
  tok_user_label : str;
  tok_access_token : str;
  tok_refresh_token : option str;
  tok_expires_at : Z;
  tok_scopes : option str;
  tok_updated_at : str
}.

(** One meeting of a recordings listing; [None] is an absent key.  [id] is
    the text the f-strings and [str(meeting_id)] render it to. *)
Record meeting : Type := {
  uuid : option str;
  id : option str;
  topic : option str;
  start_time : option str;
  duration : option Z
}.

(** The directory [data_dir / bot_name / zoom / date_str / safe_topic],
    and with [data_dir] left out the prefix handed to [save_file_fn]. *)
Record zoom_dir : Type := {
  dir_data_dir : str;
  dir_bot_name : str;
  dir_date_str : str;
  dir_safe_topic : str
}.

(** A row of the [zoom_processed] table. *)
Record processed_row : Type := {
  meeting_uuid : str;
  meeting_id : str;
  row_topic : str;
  row_start_time : option str;
  row_duration : option Z;
  local_path : zoom_dir
}.

(** The JSON body of the token endpoint; [None] is an absent key. *)
Record token_data : Type := {
  data_access_token : option str;
  data_refresh_token : option str;
  data_expires_in : option Z;
  data_scope : option str
}.

Record recording_file : Type := {
  file_type : option str;
  recording_type : option str;
  download_url : option str
}.

(** The JSON body of a Zoom API answer, with the two keys the client
    reads. *)
Record api_json : Type := {
  meetings : option (list meeting);
  recording_files : option (list recording_file)
}.

Record response (A : Type) : Type := {
  status_code : Z;
  body : A
}.
Arguments status_code {A} _.
Arguments body {A} _.

(** The transcript [get_meeting_transcript] returns. *)
Record transcript : Type := {
  tr_content : str;
  tr_download_url : str;
  tr_file_type : str
}.

(** The dict written to [metadata.json]. *)
Record metadata : Type := {
  meta_topic : str;
  meta_start_time : str;
  meta_duration : option Z;
  meta_meeting_id : str;
  meta_uuid : str;
  meta_pulled_at : str
}.

(** What is written to an artifact file. *)
Inductive payload : Type :=
| TranscriptText (content : str)
| MetadataJson (meta : metadata).

(** ** The trace of what the code asks of the outside *)
Inductive event : Type :=
| ClockRead (t : Q)
| GetZoomToken (label : str)
| SaveZoomToken (row : token_row)
| GetProcessedUuids
| MarkProcessed (row : processed_row)
| OAuthRefresh (refresh : str)
| ApiGet (url_path : str) (params : list (str * str)) (bearer : str)
| Download (url : str) (bearer : str)
| Mkdir (dir : zoom_dir)
| WriteText (dir : zoom_dir) (filename : str) (data : payload)
| ReadBytes (dir : zoom_dir) (filename : str)
| SaveFile (prefix : zoom_dir) (filename : str) (data : payload)
| Sleep (seconds : Z).

(** What the outside answers; every answer may depend on the position
    [n] of the request in the trace.  [processed_uuids n] is what the
    rows of the answer to the read of the [zoom_processed] table give:
    the set of their uuids, or the exception of a body that is no list
    of rows with a uuid each. *)
Record env : Type := {
  time_time : nat -> Q;
  utcnow_date : nat -> str;
  utcnow_week_ago : nat -> str;
  utcnow_iso : nat -> str;
  now_iso : nat -> str;
  insforge_fault : nat -> option exn;
  processed_uuids : nat -> result (gset str);
  oauth_token_post : nat -> str -> result (response token_data);
  zoom_api_get : nat -> str -> str -> result (response api_json);
  download_get : nat -> str -> str -> result (response str);
  fs_fault : nat -> option oserror;
  save_file_fault : nat -> option exn
}.

(** ** State *)

Record BotState : Type := {
  zoom_transcript_count : Z;
  zoom_last_poll : option str;
  last_activity : option str;
  recent_errors : list (str * exn)
}.

(** The client object, the rows of the token table, the rows this
    client has posted to the [zoom_processed] table, the shared bot state
    and the trace; the artifact files written are the [WriteText]
    events.  What a read of the [zoom_processed] table answers is the
    environment's, see [processed_uuids]. *)
Record state : Type := {
  _access_token : str;
  _expires_at : Z;
  zoom_tokens : gmap str token_row;
  zoom_processed : gmap str processed_row;
  bot_state : BotState;
  trace : list event
}.

(** The arguments of [zoom_poll_loop] and the fields a [ZoomClient] is
    built with. *)
Record config : Type := {
  client_user_label : str;
  data_dir : str;
  bot_name : str;
  has_save_file_fn : bool;
  poll_interval : Z
}.

Local Open Scope py_scope.

Definition push (e : event) (st : state) : state :=
  {| _access_token := _access_token st;
     _expires_at := _expires_at st;
     zoom_tokens := zoom_tokens st;
     zoom_processed := zoom_processed st;
     bot_state := bot_state st;
     trace := trace st ++ [e] |}.

(** Appends one event and returns its position in the trace. *)
Definition emit (e : event) : M state nat :=
  fun st => (Ok (length (trace st)), push e st).

Definition set_client (token : str) (expiry : Z) (st : state) : state :=
  {| _access_token := token;
     _expires_at := expiry;
     zoom_tokens := zoom_tokens st;
     zoom_processed := zoom_processed st;
     bot_state := bot_state st;
     trace := trace st |}.

Definition set_zoom_tokens (t : gmap str token_row) (st : state) : state :=
  {| _access_token := _access_token st;
     _expires_at := _expires_at st;
     zoom_tokens := t;
     zoom_processed := zoom_processed st;
     bot_state := bot_state st;
     trace := trace st |}.

Definition set_zoom_processed (t : gmap str processed_row) (st : state)
  : state :=
  {| _access_token := _access_token st;
     _expires_at := _expires_at st;
     zoom_tokens := zoom_tokens st;
     zoom_processed := t;
     bot_state := bot_state st;
     trace := trace st |}.

Definition set_bot_state (b : BotState) (st : state) : state :=
  {| _access_token := _access_token st;
     _expires_at := _expires_at st;
     zoom_tokens := zoom_tokens st;
     zoom_processed := zoom_processed st;
     bot_state := b;
     trace := trace st |}.

(** [resp.raise_for_status()]: any status outside 2xx raises. *)
Definition raise_for_status {A} (resp : response A) : M state unit :=
  if (200 <=? status_code resp) && (status_code resp <? 300) then ret tt
  else raise (HTTPStatusError (status_code resp)).

(** An InsForge request: sent, then [raise_for_status]. *)
Definition insforge_request (E : env) (e : event) : M state unit :=
  n <- emit e;;
  match insforge_fault E n with
  | Some err => raise err
  | None => ret tt
  end.

(** ** class InsForgeDB *)

Definition get_zoom_token (E : env) (label : str)
  : M state (option token_row) :=
  insforge_request E (GetZoomToken label);;;
  st <- get;;
  ret (zoom_tokens st !! label).

(** [save_zoom_token] with a [token_data] that has its [user_label];
    the row replaces the one with the same label. *)
Definition save_zoom_token (E : env) (label token : str)
    (refresh : option str) (expiry : Z) (scope : option str) : M state unit :=
  st <- get;;
  let row := {| tok_user_label := label;
                tok_access_token := token;
                tok_refresh_token := refresh;
                tok_expires_at := expiry;
                tok_scopes := scope;
                tok_updated_at := utcnow_iso E (length (trace st)) |} in
  insforge_request E (SaveZoomToken row);;;
  modify (fun st => set_zoom_tokens (<[label := row]> (zoom_tokens st)) st).

(** The request, [raise_for_status], and the set comprehension over the
    rows of the answer. *)
Definition get_processed_uuids (E : env) : M state (gset str) :=
  n <- emit GetProcessedUuids;;
  match insforge_fault E n with
  | Some err => raise err
  | None => lift_result (processed_uuids E n)
  end.

(** [InsForgeDB.mark_processed(meeting, local_path)] *)
Definition mark_processed (E : env) (m : meeting) (dir : zoom_dir)
  : M state unit :=
  key <- match uuid m with
         | Some u => ret u
         | None => raise (KeyError (py "uuid"))
         end;;
  let row := {| meeting_uuid := key;
                meeting_id := default [] (id m);
                row_topic := default [] (topic m);
                row_start_time := start_time m;
                row_duration := duration m;
                local_path := dir |} in
  insforge_request E (MarkProcessed row);;;
  modify (fun st => set_zoom_processed (<[key := row]> (zoom_processed st)) st).

(** ** class ZoomClient *)

(** [time.time()]: a float, taken as the rational it is. *)
Definition read_clock (E : env) : M state Q :=
  st <- get;;
  let t := time_time E (length (trace st)) in
  emit (ClockRead t);;;
  ret t.

(** [int(t)]: truncation towards zero. *)
Definition py_int (t : Q) : Z := Z.quot (Qnum t) (Zpos (Qden t)).

(** [t > n] for a float [t] and an int [n]. *)
Definition float_gt_int (t : Q) (n : Z) : bool := negb (Qle_bool t (inject_Z n)).

Definition load_token (E : env) (cfg : config) : M state bool :=
  token <- get_zoom_token E (client_user_label cfg);;
  match token with
  | None => ret false
  | Some row =>
      modify (set_client (tok_access_token row) (tok_expires_at row));;;
      ret true
  end.

Definition refresh_token (E : env) (cfg : config) : M state bool :=
  token <- get_zoom_token E (client_user_label cfg);;
  match token with
  | None => ret false
  | Some row =>
      match tok_refresh_token row with
      | None => ret false
      | Some stored =>
          if negb (str_truthy stored) then ret false
          else
            n <- emit (OAuthRefresh stored);;
            resp <- lift_result (oauth_token_post E n stored);;
            if negb (status_code resp =? 200) then ret false
            else
              let data := body resp in
              t <- read_clock E;;
              let expiry := py_int t + default 3600 (data_expires_in data) in
              token <- match data_access_token data with
                       | Some a => ret a
                       | None => raise (KeyError (py "access_token"))
                       end;;
              save_zoom_token E (client_user_label cfg) token
                (Some (default stored (data_refresh_token data)))
                expiry
                (match data_scope data with
                 | Some sc => Some sc
                 | None => tok_scopes row
                 end);;;
              modify (set_client token expiry);;;
              ret true
      end
  end.

Definition _ensure_token (E : env) (cfg : config) : M state unit :=
  t <- read_clock E;;
  st <- get;;
  if float_gt_int t (_expires_at st - 60) then
    refresh_token E cfg;;; ret tt
  else ret tt.

Definition _api_get (E : env) (cfg : config) (url_path : str)
    (params : list (str * str)) : M state api_json :=
  _ensure_token E cfg;;;
  st <- get;;
  n <- emit (ApiGet url_path params (_access_token st));;
  resp <- lift_result (zoom_api_get E n url_path (_access_token st));;
  raise_for_status resp;;;
  ret (body resp).

Definition list_recordings (E : env) (cfg : config) (from_date : str)
    (to_date : option str) : M state api_json :=
  let params := [(py "from", from_date); (py "page_size", py "100")] in
  let params := match to_date with
                | Some d => if str_truthy d then params ++ [(py "to", d)]
                            else params
                | None => params
                end in
  _api_get E cfg (py "/users/me/recordings") params.

Definition is_transcript_file (f : recording_file) : bool :=
  bool_decide (file_type f = Some (py "TRANSCRIPT"))
  || bool_decide (recording_type f = Some (py "audio_transcript")).

Definition get_meeting_transcript (E : env) (cfg : config) (meeting_id : str)
  : M state (option transcript) :=
  fetched <-
    try_except
      (recording <- _api_get E cfg
                      (py "/meetings/" ++ meeting_id ++ py "/recordings") [];;
       ret (Some recording))
      (fun e => match e with HTTPStatusError _ => true | _ => false end)
      (fun e => match e with
                | HTTPStatusError code =>
                    if code =? 404 then ret None else raise e
                | _ => raise e
                end);;
  match fetched with
  | None => ret None
  | Some recording =>
      match List.find is_transcript_file
              (default [] (recording_files recording)) with
      | None => ret None
      | Some transcript_file =>
          match download_url transcript_file with
          | None => ret None
          | Some url =>
              if negb (str_truthy url) then ret None
              else
                _ensure_token E cfg;;;
                st <- get;;
                n <- emit (Download url (_access_token st));;
                resp <- lift_result (download_get E n url (_access_token st));;
                raise_for_status resp;;;
                ret (Some {| tr_content := body resp;
                             tr_download_url := url;
                             tr_file_type :=
                               default (py "TRANSCRIPT")
                                 (file_type transcript_file) |})
          end
      end
  end.

(** ** [zoom_poll_loop] *)

(** A local file operation: performed, unless the file system fails it. *)
Definition fs_request (E : env) (e : event) : M state unit :=
  n <- emit e;;
  match fs_fault E n with
  | Some err => raise (OSError err)
  | None => ret tt
  end.

(** A call of [save_file_fn]. *)
Definition save_file_fn (E : env) (prefix : zoom_dir) (filename : str)
    (data : payload) : M state unit :=
  n <- emit (SaveFile prefix filename data);;
  match save_file_fault E n with
  | Some err => raise err
  | None => ret tt
  end.

Definition asyncio_sleep (seconds : Z) : M state unit :=
  emit (Sleep seconds);;; ret tt.

Definition set_zoom_last_poll (E : env) : M state unit :=
  modify (fun st =>
    set_bot_state
      {| zoom_transcript_count := zoom_transcript_count (bot_state st);
         zoom_last_poll := Some (now_iso E (length (trace st)));
         last_activity := last_activity (bot_state st);
         recent_errors := recent_errors (bot_state st) |} st).

Definition record_activity (E : env) : M state unit :=
  modify (fun st =>
    set_bot_state
      {| zoom_transcript_count := zoom_transcript_count (bot_state st);
         zoom_last_poll := zoom_last_poll (bot_state st);
         last_activity := Some (now_iso E (length (trace st)));
         recent_errors := recent_errors (bot_state st) |} st).

Definition count_transcript : M state unit :=
  modify (fun st =>
    set_bot_state
      {| zoom_transcript_count := zoom_transcript_count (bot_state st) + 1;
         zoom_last_poll := zoom_last_poll (bot_state st);
         last_activity := last_activity (bot_state st);
         recent_errors := recent_errors (bot_state st) |} st).

(** [BotState.record_error]: appended, then cut to the last 20. *)
Definition record_error (E : env) (e : exn) : M state unit :=
  modify (fun st =>
    let errors := recent_errors (bot_state st)
                  ++ [(now_iso E (length (trace st)), e)] in
    set_bot_state
      {| zoom_transcript_count := zoom_transcript_count (bot_state st);
         zoom_last_poll := zoom_last_poll (bot_state st);
         last_activity := last_activity (bot_state st);
         recent_errors :=
           if (20 <? length errors)%nat
           then skipn (length errors - 20) errors else errors |} st).

(** The body of [for meeting in meetings]; the result says whether the
    meeting was counted in [new_count]. *)
Definition poll_meeting (E : env) (cfg : config) (processed : gset str)
    (m : meeting) : M state bool :=
  let meeting_uuid := default [] (uuid m) in
  if negb (str_truthy meeting_uuid) || bool_decide (meeting_uuid ∈ processed)
  then ret false
  else
    let meeting_id := default [] (id m) in
    let topic := default (py "untitled") (topic m) in
    found <- get_meeting_transcript E cfg meeting_id;;
    match found with
    | None => ret false
    | Some tr =>
        let start_time := default [] (start_time m) in
        st <- get;;
        let date_str := if str_truthy start_time then firstn 10 start_time
                        else utcnow_date E (length (trace st)) in
        let safe_topic := Sanitize._sanitize_filename topic in
        let local_dir := {| dir_data_dir := data_dir cfg;
                            dir_bot_name := bot_name cfg;
                            dir_date_str := date_str;
                            dir_safe_topic := safe_topic |} in
        fs_request E (Mkdir local_dir);;;
        fs_request E (WriteText local_dir (py "transcript.vtt")
                        (TranscriptText (tr_content tr)));;;
        st <- get;;
        let meta := {| meta_topic := topic;
                       meta_start_time := start_time;
                       meta_duration := duration m;
                       meta_meeting_id := meeting_id;
                       meta_uuid := meeting_uuid;
                       meta_pulled_at := utcnow_iso E (length (trace st)) |} in
        fs_request E (WriteText local_dir (py "metadata.json")
                        (MetadataJson meta));;;
        (if has_save_file_fn cfg then
           save_file_fn E local_dir (py "transcript.vtt")
             (TranscriptText (tr_content tr));;;
           fs_request E (ReadBytes local_dir (py "metadata.json"));;;
           save_file_fn E local_dir (py "metadata.json") (MetadataJson meta)
         else ret tt);;;
        mark_processed E m local_dir;;;
        count_transcript;;;
        ret true
    end.

Fixpoint poll_meetings (E : env) (cfg : config) (processed : gset str)
    (ms : list meeting) (new_count : Z) : M state Z :=
  match ms with
  | [] => ret new_count
  | m :: rest =>
      counted <- poll_meeting E cfg processed m;;
      poll_meetings E cfg processed rest
        (if counted then new_count + 1 else new_count)
  end.

(** How the [try] block of one turn of [while True] ends: by [continue]
    after its own sleep, or by reaching its end. *)
Inductive flow : Type :=
| Continue
| FallThrough.

Definition poll_try (E : env) (cfg : config) : M state flow :=
  loaded <- load_token E cfg;;
  if negb loaded then
    asyncio_sleep (poll_interval cfg);;; ret Continue
  else
    st <- get;;
    recordings <- list_recordings E cfg
                    (utcnow_week_ago E (length (trace st))) None;;
    match default [] (meetings recordings) with
    | [] =>
        set_zoom_last_poll E;;;
        asyncio_sleep (poll_interval cfg);;;
        ret Continue
    | ms =>
        processed <- get_processed_uuids E;;
        new_count <- poll_meetings E cfg processed ms 0;;
        (if negb (new_count =? 0) then record_activity E else ret tt);;;
        set_zoom_last_poll E;;;
        ret FallThrough
    end.

(** One turn of [while True]. *)
Definition poll_cycle (E : env) (cfg : config) : M state unit :=
  way <- try_except (poll_try E cfg) (fun _ => true)
           (fun e => record_error E e;;; ret FallThrough);;
  match way with
  | Continue => ret tt
  | FallThrough => asyncio_sleep (poll_interval cfg)
  end.

(** [zoom_poll_loop], up to the given number of turns of its loop. *)
Fixpoint zoom_poll_loop (E : env) (cfg : config) (turns : nat)
  : M state unit :=
  match turns with
  | O => ret tt
  | S turns' => poll_cycle E cfg;;; zoom_poll_loop E cfg turns'
  end.

(** ** Vocabulary of the properties *)

(** The row [refresh_token] saves. *)
Definition refreshed_row (E : env) (cfg : config) (row : token_row)
    (stored : str) (data : token_data) (token : str) (n : nat) : token_row :=
  {| tok_user_label := client_user_label cfg;
     tok_access_token := token;
     tok_refresh_token := Some (default stored (data_refresh_token data));
     tok_expires_at := py_int (time_time E (n + 2))
                       + default 3600 (data_expires_in data);
     tok_scopes := match data_scope data with
                   | Some sc => Some sc
                   | None => tok_scopes row
                   end;
     tok_updated_at := utcnow_iso E (n + 3) |}.

(** The events that write an artifact or a ledger row. *)
Definition is_write (e : event) : bool :=
  match e with
  | Mkdir _ | WriteText _ _ _ | SaveFile _ _ _ | MarkProcessed _ => true
  | _ => false
  end.

(** From [st] to [st'] nothing was written: the ledger and the bot state
    are the same, and the trace grew by events that are not writes. *)
Definition quiet (st st' : state) : Prop :=
  zoom_processed st' = zoom_processed st
  /\ bot_state st' = bot_state st
  /\ exists events, trace st' = trace st ++ events
                    /\ Forall (fun e => is_write e = false) events.

(** The credential is the same in the store and in memory. *)
Definition same_credential (st st' : state) : Prop :=
  zoom_tokens st' = zoom_tokens st
  /\ _access_token st' = _access_token st
  /\ _expires_at st' = _expires_at st.

End Zoom.

(** * The bulk sync passes of [telegram_bot.py] *)

Module Mirror.

(** One entry of the [Contents] of a [list_objects_v2] page. *)
Record s3_object : Type := {
  Key : str;
  Size : Z
}.

(** A page of the paginator; [None] is a page without [Contents]. *)
Definition page : Type := option (list s3_object).

(** The objects in the order the two nested [for] loops visit them. *)
Definition listed (pages : list page) : list s3_object :=
  concat (map (default []) pages).

(** [str.lstrip('/')] *)
Fixpoint lstrip_sep (s : str) : str :=
  match s with
  | [] => []
  | c :: s' => if N.eqb c SEP then lstrip_sep s' else s
  end.

(** [key[len(prefix):].lstrip('/')] *)
Definition relative_key (prefix key : str) : str :=
  lstrip_sep (skipn (length prefix) key).

(** ** Download: [_sync_s3_prefix_to_local]

    The local disk is any type of states [FS] with the three operations
    the pass uses.  [size_of] is [None] for a path that does not exist
    and [st_size] for one that does. *)
Class LocalDisk (FS : Type) : Type := {
  size_of : Path -> FS -> option Z;
  mkdir_parents : Path -> FS -> result unit * FS;
  download_file : str -> Path -> FS -> result unit * FS
}.

Section Download.
Context {FS : Type} `{LocalDisk FS}.

(** The disk and the objects fetched so far, oldest first. *)
Record pass : Type := {
  disk : FS;
  fetched : list s3_object
}.

Definition on_disk (op : FS -> result unit * FS) : M pass unit :=
  fun s => let (r, d) := op (disk s) in
           (r, {| disk := d; fetched := fetched s |}).

Definition log_fetch (obj : s3_object) : M pass unit :=
  modify (fun s => {| disk := disk s; fetched := fetched s ++ [obj] |}).

Local Open Scope py_scope.

(** [local_path.exists() and local_path.stat().st_size == obj['Size']] *)
Definition same_size (local_path : Path) (obj : s3_object) (d : FS) : bool :=
  match size_of local_path d with
  | Some n => n =? Size obj
  | None => false
  end.

(** The body of the inner [for]; the result says whether [count] grew. *)
Definition download_object (prefix : str) (local_dir : Path)
    (obj : s3_object) : M pass bool :=
  let key := Key obj in
  let rel := relative_key prefix key in
  if negb (str_truthy rel) then ret false
  else
    let local_path := joinpath local_dir rel in
    s <- get;;
    if same_size local_path obj (disk s) then ret false
    else
      on_disk (mkdir_parents (parent local_path));;;
      on_disk (download_file key local_path);;;
      log_fetch obj;;;
      ret true.

Fixpoint download_objects (prefix : str) (local_dir : Path)
    (objs : list s3_object) (count : Z) : M pass Z :=
  match objs with
  | [] => ret count
  | obj :: rest =>
      grew <- download_object prefix local_dir obj;;
      download_objects prefix local_dir rest
        (if grew then count + 1 else count)
  end.

Definition _sync_s3_prefix_to_local (pages : list page) (prefix : str)
    (local_dir : Path) : M pass Z :=
  on_disk (mkdir_parents local_dir);;;
  download_objects prefix local_dir (listed pages) 0.

(** *** Vocabulary of the properties *)

(** Where the pass puts an object. *)
Definition local_path_of (prefix : str) (local_dir : Path)
    (obj : s3_object) : Path :=
  joinpath local_dir (relative_key prefix (Key obj)).

(** The object is absent from the disk [d], or there with another
    size. *)
Definition differs (prefix : str) (local_dir : Path) (d : FS)
    (obj : s3_object) : bool :=
  negb (same_size (local_path_of prefix local_dir obj) obj d).

(** The object has a relative key, and differs. *)
Definition wanted (prefix : str) (local_dir : Path) (d : FS)
    (obj : s3_object) : bool :=
  str_truthy (relative_key prefix (Key obj))
  && differs prefix local_dir d obj.

(** Fetching an object of the listing leaves the local paths of the
    objects listed after it as they are. *)
Fixpoint independent (prefix : str) (local_dir : Path)
    (objs : list s3_object) : Prop :=
  match objs with
  | [] => True
  | obj :: rest =>
      (forall d d1 d2,
          mkdir_parents (parent (local_path_of prefix local_dir obj)) d
          = (Ok tt, d1) ->
          download_file (Key obj) (local_path_of prefix local_dir obj) d1
          = (Ok tt, d2) ->
          Forall (fun later =>
                    size_of (local_path_of prefix local_dir later) d2
                    = size_of (local_path_of prefix local_dir later) d)
            rest)
      /\ independent prefix local_dir rest
  end.

End Download.

(** ** Upload: [_sync_local_to_s3_prefix] *)

(** One path yielded by [local_dir.rglob('*')]: its parts below
    [local_dir], whether it is a regular file, and its [st_size]. *)
Record local_entry : Type := {
  relative_to : Path;
  is_file : bool;
  st_size : Z
}.

(** The local directory: [None] when it does not exist. *)
Definition local_tree : Type := option (list local_entry).

(** What [upload_file] answers, by the number of uploads done before. *)
Definition upload_faults : Type := nat -> option exn.

(** The uploads done so far, oldest first, each with its key. *)
Definition uploads : Type := list (local_entry * str).

Local Open Scope py_scope.

(** The dict [existing]: a later entry of the listing replaces an
    earlier one with the same key. *)
Definition existing_of (pages : list page) : gmap str Z :=
  fold_left (fun existing obj => <[Key obj := Size obj]> existing)
    (listed pages) ∅.

Definition upload_file (faults : upload_faults) (f : local_entry) (key : str)
  : M uploads unit :=
  fun log => match faults (length log) with
             | Some e => (Raise e, log)
             | None => (Ok tt, log ++ [(f, key)])
             end.

(** [key in existing and existing[key] == f.stat().st_size] *)
Definition already_there (existing : gmap str Z) (key : str) (f : local_entry)
  : bool :=
  match existing !! key with
  | Some n => n =? st_size f
  | None => false
  end.

Definition upload_entry (faults : upload_faults) (existing : gmap str Z)
    (prefix : str) (f : local_entry) : M uploads bool :=
  if negb (is_file f) then ret false
  else
    let rel := path_str (relative_to f) in
    let key := prefix ++ rel in
    if already_there existing key f then ret false
    else upload_file faults f key;;; ret true.

Fixpoint upload_entries (faults : upload_faults) (existing : gmap str Z)
    (prefix : str) (entries : list local_entry) (count : Z) : M uploads Z :=
  match entries with
  | [] => ret count
  | f :: rest =>
      grew <- upload_entry faults existing prefix f;;
      upload_entries faults existing prefix rest
        (if grew then count + 1 else count)
  end.

(** The key a local file is uploaded under. *)
Definition key_of (prefix : str) (f : local_entry) : str :=
  prefix ++ path_str (relative_to f).

(** A regular file whose key is not in [existing] with the file's size. *)
Definition needs_upload (existing : gmap str Z) (prefix : str)
    (f : local_entry) : bool :=
  is_file f && negb (already_there existing (key_of prefix f) f).

Definition _sync_local_to_s3_prefix (faults : upload_faults)
    (pages : list page) (prefix : str) (local_dir : local_tree)
  : M uploads Z :=
  match local_dir with
  | None => ret 0
  | Some entries =>
      let existing := existing_of pages in
      upload_entries faults existing prefix entries 0
  end.

End Mirror.

(** * Further vocabulary for the watcher *)

Module WatcherTerms.
Import Watcher.

(** [a] does not come after [b] in the order of [sorted]. *)
Definition not_after (a b : dir_entry) : Prop := entry_ltb b a = false.

(** The entry is a regular file with a supported suffix. *)
Definition is_candidate (e : dir_entry) : bool :=
  is_file e && is_supported_file (entry_path e).

(** The ledger is a mapping with the keys of [fields]. *)
Definition has_ledger (fields : gmap str json) (w : world) : Prop :=
  processed (tracker w) = JObj fields.

(** What a tracker constructed anew over the store would hold is what
    the tracker holds; on a store the constructor raises on, nothing
    is. *)
Definition in_sync (w : world) : Prop :=
  match content (store w) with
  | Readable (JsonText value) => processed (tracker w) = value
  | Missing | Unreadable _ | Readable NotJson => processed (tracker w) = JObj ∅
  | Unstatable _ | Undecodable | Readable TooManyDigits | Readable TooDeep =>
      False
  end.

(** Every path handed to the processor so far has a ledger entry, and
    none was handed over twice. *)
Definition once_each (w : world) : Prop :=
  NoDup (invoked w)
  /\ exists fields, has_ledger fields w
                    /\ forall p, p ∈ invoked w -> is_Some (fields !! p).

(** No two entries of a scan resolve to the same path. *)
Definition distinct_files (E : env) : Prop :=
  forall t entries, inbox_at E t = Some entries -> NoDup (map resolve entries).

(** The success flag a ledger entry records. *)
Definition recorded_success (entry : json) : option bool :=
  match entry with
  | JObj fields =>
      match fields !! py "success" with
      | Some (JBool b) => Some b
      | _ => None
      end
  | _ => None
  end.

(** The tracker file accepts writes. *)
Definition writable (w : world) : Prop := write_fault (store w) = None.

(** A tracker constructed anew over the tracker file, as at the start of
    the program, holds the ledger this tracker holds: so it is for the
    constructor run in any world that has the tracker file of this one,
    whatever else it holds in memory. *)
Definition restart_agrees (w : world) : Prop :=
  forall tracker_path w0,
    store w0 = store w ->
    exists w', __init__ tracker_path w0 = (Ok tt, w')
               /\ processed (tracker w') = processed (tracker w).

(** What the loop of [run_watcher] records for a call of the processor:
    the value it returned, or false when it raised. *)
Definition outcome (r : result bool) : bool :=
  match r with Ok success => success | Raise _ => false end.

End WatcherTerms.

(** * Further vocabulary for the Zoom poller *)

Module ZoomTerms.
Import Zoom.

(** Every run of [c] takes a state to one that [R] relates to it,
    whether the run returns or raises. *)
Definition steps {A} (R : state -> state -> Prop) (c : M state A) : Prop :=
  forall st, R st (snd (c st)).

(** From [st] to [st'] the trace grew by events that all satisfy [P]. *)
Definition grew_by (P : event -> bool) (st st' : state) : Prop :=
  exists events, trace st' = trace st ++ events
                 /\ Forall (fun e => P e = true) events.

Definition is_sleep (e : event) : bool :=
  match e with Sleep _ => true | _ => false end.

Definition awake (e : event) : bool := negb (is_sleep e).

(** The ledger and the shared bot state are the same. *)
Definition same_ledger (st st' : state) : Prop :=
  zoom_processed st' = zoom_processed st /\ bot_state st' = bot_state st.

(** The event writes no metadata and no ledger row of a meeting whose
    uuid is in [seen]. *)
Definition unseen_only (seen : gset str) (e : event) : bool :=
  match e with
  | MarkProcessed row => bool_decide (meeting_uuid row ∉ seen)
  | WriteText _ _ (MetadataJson meta) => bool_decide (meta_uuid meta ∉ seen)
  | SaveFile _ _ (MetadataJson meta) => bool_decide (meta_uuid meta ∉ seen)
  | _ => true
  end.

(** The calls of [save_file_fn] for the two artifacts of a meeting. *)
Definition save_events (cfg : config) (dir : zoom_dir) (content : str)
    (meta : metadata) : list event :=
  if has_save_file_fn cfg then
    [SaveFile dir (py "transcript.vtt") (TranscriptText content);
     ReadBytes dir (py "metadata.json");
     SaveFile dir (py "metadata.json") (MetadataJson meta)]
  else [].

End ZoomTerms.

(** * Further vocabulary for the sync passes *)

Module MirrorTerms.
Import Mirror.

(** A component of a path as a directory walk yields it: not empty, not
    the one dot, and without a separator. *)
Definition proper_part (part : str) : Prop :=
  part <> [] /\ part <> [DOT] /\ SEP ∉ part.

(** The parts of a path below the directory walked. *)
Definition proper_path (p : Path) : Prop :=
  p <> [] /\ Forall proper_part p.

End MirrorTerms.

(** * The file names of [telegram_bot.py] *)

Module Telegram.

Definition SEMICOLON : N := 59.

(** The dict [mapping] of [_mime_to_ext]. *)
Definition mapping : gmap str str :=
  list_to_map
    [(py "audio/ogg", py ".ogg");
     (py "audio/mpeg", py ".mp3");
     (py "audio/mp4", py ".m4a");
     (py "audio/aac", py ".aac");
     (py "audio/wav", py ".wav");
     (py "audio/x-wav", py ".wav");
     (py "audio/opus", py ".ogg");
     (py "video/mp4", py ".mp4");
     (py "video/quicktime", py ".mov")].

(** [mapping.get(mime_type.split(";")[0].strip(), ".ogg")] *)
Definition _mime_to_ext (mime_type : str) : str :=
  default (py ".ogg")
    (mapping !! Sanitize.strip (hd [] (split SEMICOLON mime_type))).

(** The name [_transcribe_and_reply] stores the audio under. *)
Definition audio_filename (ext : str) : str := py "audio" ++ ext.

End Telegram.

(** * [main] of [transcribe.py] *)

Module Transcribe.


(** The surroundings of [main]: the value of [ASSEMBLY_API_KEY], what
    [import assemblyai] raises if anything, the two path tests, the list
    [find_supported_files] returns, and what the call of
    [process_single_file] number [n] of the run, on a file, returns or
    raises. *)
Record env : Type := {
  api_key : option str;
  import_assemblyai : option exn;
  isfile : str -> bool;
  isdir : str -> bool;
  find_supported_files : str -> list str;
  process_single_file : nat -> str -> result bool
}.




End Transcribe.

(** * Scenarios

    Concrete surroundings and states on which the properties below are
    instantiated. *)

Module WatcherScenario.
Import Watcher.

(** Every file has the same size at every moment. *)
Definition constant_size (n : Z) : env :=
  {| getsize := fun _ _ _ => Ok n;
     sleep_fault := fun _ _ => None;
     inbox_at := fun _ => None;
     process_single_file := fun _ _ => Ok true;
     strftime := fun _ => [] |}.

(** A watcher that starts without a tracker file. *)
Definition fresh_world : world :=
  {| clock := 0;
     observed := 0;
     tracker := {| path := py "/inbox/processed_files.json";
                   processed := JObj ∅ |};
     store := {| content := Missing; write_fault := None |};
     invoked := [] |}.

(** A watcher whose tracker file holds bytes that are not text, such as
    the two bytes FF FE. *)
Definition undecodable_world : world :=
  {| clock := 0;
     observed := 0;
     tracker := {| path := py "/inbox/processed_files.json";
                   processed := JObj ∅ |};
     store := {| content := Undecodable; write_fault := None |};
     invoked := [] |}.

(** An inbox with one stable media file, and a processor that fails on
    it. *)
Definition clip : str := py "/inbox/clip.mp4".

Definition clip_entry : dir_entry :=
  {| entry_path := clip; is_file := true; resolve := clip |}.

Definition failing_processor : env :=
  {| getsize := fun _ _ _ => Ok 50;
     sleep_fault := fun _ _ => None;
     inbox_at := fun _ => Some [clip_entry];
     process_single_file := fun _ _ => Ok false;
     strftime := fun _ => py "2026-01-01T00:00:00" |}.

(** The ledger after the processor has failed on the clip. *)
Definition failed_fields : gmap str json :=
  <[clip := ledger_entry (py "2026-01-01T00:00:00") false]> ∅.

Definition failed_world : world :=
  {| clock := 40;
     observed := 2;
     tracker := {| path := py "/inbox/processed_files.json";
                   processed := JObj failed_fields |};
     store := {| content := Readable (JsonText (JObj failed_fields));
                 write_fault := None |};
     invoked := [clip] |}.

(** A watcher whose tracker file cannot be created. *)
Definition read_only_world : world :=
  {| clock := 0;
     observed := 0;
     tracker := {| path := py "/inbox/processed_files.json";
                   processed := JObj ∅ |};
     store := {| content := Missing;
                 write_fault := Some (PermissionError, Missing) |};
     invoked := [] |}.

End WatcherScenario.

Module ZoomScenario.
Import Zoom.

Definition cfg0 : config :=
  {| client_user_label := py "default";
     data_dir := py "data";
     bot_name := py "bot";
     has_save_file_fn := true;
     poll_interval := 300 |}.

(** A stored credential that expired at second 1000. *)
Definition row0 : token_row :=
  {| tok_user_label := py "default";
     tok_access_token := py "old";
     tok_refresh_token := Some (py "r0");
     tok_expires_at := 1000;
     tok_scopes := None;
     tok_updated_at := [] |}.

Definition idle_bot : BotState :=
  {| zoom_transcript_count := 0;
     zoom_last_poll := None;
     last_activity := None;
     recent_errors := [] |}.

(** A client that has loaded [row0]; meeting A is in the ledger. *)
Definition row_A : processed_row :=
  {| meeting_uuid := py "A";
     meeting_id := py "41";
     row_topic := py "Standup";
     row_start_time := None;
     row_duration := None;
     local_path := {| dir_data_dir := py "data";
                      dir_bot_name := py "bot";
                      dir_date_str := py "2026-01-01";
                      dir_safe_topic := py "Standup" |} |}.

Definition stale : state :=
  {| _access_token := py "old";
     _expires_at := 1000;
     zoom_tokens := {[ py "default" := row0 ]};
     zoom_processed := {[ py "A" := row_A ]};
     bot_state := idle_bot;
     trace := [] |}.

Definition no_keys : api_json :=
  {| meetings := None; recording_files := None |}.

Definition no_token_data : token_data :=
  {| data_access_token := None;
     data_refresh_token := None;
     data_expires_in := None;
     data_scope := None |}.

(** It is second 2000, the token endpoint rejects the refresh token with
    status 401, and the API answers every request with 401. *)
Definition rejecting : env :=
  {| time_time := fun _ => inject_Z 2000;
     utcnow_date := fun _ => py "1970-01-01";
     utcnow_week_ago := fun _ => py "1969-12-25";
     utcnow_iso := fun _ => py "1970-01-01T00:33:20";
     now_iso := fun _ => py "1970-01-01T00:33:20";
     insforge_fault := fun _ => None;
     processed_uuids := fun _ => Ok {[ py "A" ]};
     oauth_token_post := fun _ _ =>
       Ok {| status_code := 401; body := no_token_data |};
     zoom_api_get := fun _ _ _ => Ok {| status_code := 401; body := no_keys |};
     download_get := fun _ _ _ => Ok {| status_code := 401; body := [] |};
     fs_fault := fun _ => None;
     save_file_fault := fun _ => None |}.

(** The token endpoint grants a new access token for an hour and does
    not rotate the refresh token; the API knows no recording. *)
Definition granted : token_data :=
  {| data_access_token := Some (py "new");
     data_refresh_token := None;
     data_expires_in := Some 3600;
     data_scope := None |}.

Definition granting : env :=
  {| time_time := fun _ => inject_Z 2000;
     utcnow_date := fun _ => py "1970-01-01";
     utcnow_week_ago := fun _ => py "1969-12-25";
     utcnow_iso := fun _ => py "1970-01-01T00:33:20";
     now_iso := fun _ => py "1970-01-01T00:33:20";
     insforge_fault := fun _ => None;
     processed_uuids := fun _ => Ok {[ py "A" ]};
     oauth_token_post := fun _ _ =>
       Ok {| status_code := 200; body := granted |};
     zoom_api_get := fun _ _ _ => Ok {| status_code := 404; body := no_keys |};
     download_get := fun _ _ _ => Ok {| status_code := 404; body := [] |};
     fs_fault := fun _ => None;
     save_file_fault := fun _ => None |}.

(** The same client with a token that is good until second 10000. *)
Definition valid : state :=
  {| _access_token := py "tok";
     _expires_at := 10000;
     zoom_tokens := {[ py "default" := row0 ]};
     zoom_processed := {[ py "A" := row_A ]};
     bot_state := idle_bot;
     trace := [] |}.

Definition meeting_B : meeting :=
  {| uuid := Some (py "B");
     id := Some (py "42");
     topic := Some (py "Review");
     start_time := Some (py "2026-01-02T10:00:00Z");
     duration := Some 30 |}.

Definition meeting_without_uuid : meeting :=
  {| uuid := None;
     id := Some (py "43");
     topic := Some (py "Untracked");
     start_time := None;
     duration := None |}.

Definition meeting_A : meeting :=
  {| uuid := Some (py "A");
     id := Some (py "41");
     topic := Some (py "Standup");
     start_time := Some (py "2026-01-01T10:00:00Z");
     duration := Some 15 |}.

(** It is second 500; the listing holds the meetings A and B, the
    API has no recording detail for any meeting, and a read of the
    ledger table is answered with the row of A. *)
Definition listing_AB : env :=
  {| time_time := fun _ => inject_Z 500;
     utcnow_date := fun _ => py "1970-01-01";
     utcnow_week_ago := fun _ => py "1969-12-25";
     utcnow_iso := fun _ => py "1970-01-01T00:08:20";
     now_iso := fun _ => py "1970-01-01T00:08:20";
     insforge_fault := fun _ => None;
     processed_uuids := fun _ => Ok {[ py "A" ]};
     oauth_token_post := fun _ _ =>
       Ok {| status_code := 401; body := no_token_data |};
     zoom_api_get := fun _ url_path _ =>
       if bool_decide (url_path = py "/users/me/recordings") then
         Ok {| status_code := 200;
               body := {| meetings := Some [meeting_A; meeting_B];
                          recording_files := None |} |}
       else Ok {| status_code := 404; body := no_keys |};
     download_get := fun _ _ _ => Ok {| status_code := 404; body := [] |};
     fs_fault := fun _ => None;
     save_file_fault := fun _ => None |}.

(** A client whose user has not connected Zoom: the token table is
    empty. *)
Definition signed_out : state :=
  {| _access_token := [];
     _expires_at := 0;
     zoom_tokens := ∅;
     zoom_processed := ∅;
     bot_state := idle_bot;
     trace := [] |}.

(** It is second 500; every listing holds the meetings A and B, every
    recording has an audio file and a transcript file, the download of
    the transcript succeeds, and every read of the ledger table is
    answered with the row of A. *)
Definition audio_file : recording_file :=
  {| file_type := Some (py "M4A");
     recording_type := Some (py "audio_only");
     download_url := Some (py "https://zoom.us/rec/download/audio") |}.

Definition transcript_file : recording_file :=
  {| file_type := Some (py "TRANSCRIPT");
     recording_type := Some (py "audio_transcript");
     download_url := Some (py "https://zoom.us/rec/download/vtt") |}.

Definition recording_AB : api_json :=
  {| meetings := Some [meeting_A; meeting_B];
     recording_files := Some [audio_file; transcript_file] |}.

Definition serving : env :=
  {| time_time := fun _ => inject_Z 500;
     utcnow_date := fun _ => py "1970-01-01";
     utcnow_week_ago := fun _ => py "1969-12-25";
     utcnow_iso := fun _ => py "1970-01-01T00:08:20";
     now_iso := fun _ => py "1970-01-01T00:08:20";
     insforge_fault := fun _ => None;
     processed_uuids := fun _ => Ok {[ py "A" ]};
     oauth_token_post := fun _ _ =>
       Ok {| status_code := 401; body := no_token_data |};
     zoom_api_get := fun _ _ _ =>
       Ok {| status_code := 200; body := recording_AB |};
     download_get := fun _ _ _ =>
       Ok {| status_code := 200; body := py "WEBVTT" |};
     fs_fault := fun _ => None;
     save_file_fault := fun _ => None |}.

End ZoomScenario.

Module MirrorScenario.
Import Mirror.

(** A disk as the map from the paths that exist, each as its string, to
    their sizes, with 4096 for a directory; a download writes the size
    the remote store has for the key. *)
Fixpoint mkdirs (above p : Path) (d : gmap str Z) : gmap str Z :=
  match p with
  | [] => d
  | part :: rest =>
      let here := above ++ [part] in
      mkdirs here rest
        (match d !! path_str here with
         | Some _ => d
         | None => <[path_str here := 4096]> d
         end)
  end.

Definition flat_disk (remote : gmap str Z) : LocalDisk (gmap str Z) :=
  {| size_of := fun p d => d !! path_str p;
     mkdir_parents := fun p d => (Ok tt, mkdirs [] p d);
     download_file := fun key p d =>
       match remote !! key with
       | Some n => (Ok tt, <[path_str p := n]> d)
       | None => (Raise (HTTPStatusError 404), d)
       end |}.

Definition prefix : str := py "bot/".
Definition local_dir : Path := [py "data"; py "bot"].

Definition marker : s3_object := {| Key := py "bot/"; Size := 0 |}.
Definition object_a : s3_object := {| Key := py "bot/a"; Size := 10 |}.
Definition object_b : s3_object := {| Key := py "bot/b"; Size := 20 |}.

Definition remote_ab : gmap str Z :=
  <[py "bot/a" := 10]> (<[py "bot/b" := 20]> ∅).

Definition remote_marked : gmap str Z := <[py "bot/" := 0]> remote_ab.

(** The local directory is there and empty. *)
Definition disk_bot : gmap str Z :=
  <[py "data/bot" := 4096]> (<[py "data" := 4096]> ∅).

(** The local directory holds the file [a] of 10 bytes. *)
Definition disk_a : gmap str Z :=
  <[py "data/bot/a" := 10]>
    (<[py "data/bot" := 4096]> (<[py "data" := 4096]> ∅)).

Definition file_a : local_entry :=
  {| relative_to := [py "a"]; is_file := true; st_size := 10 |}.
Definition file_b : local_entry :=
  {| relative_to := [py "b"]; is_file := true; st_size := 20 |}.

Definition no_faults : upload_faults := fun _ => None.

(** A remote store that has lost [b] since it was listed. *)
Definition remote_a : gmap str Z := <[py "bot/a" := 10]> ∅.

(** The second upload of a pass fails. *)
Definition second_fails : upload_faults :=
  fun n => if (n =? 1)%nat then Some TransportError else None.

(** A file in a subdirectory. *)
Definition file_c : local_entry :=
  {| relative_to := [py "2026"; py "c.txt"]; is_file := true; st_size := 30 |}.

End MirrorScenario.

Module TranscribeScenario.
Import Transcribe.



End TranscribeScenario.

(** * Properties of [_sanitize_filename] *)

Module SanitizeSpec.
Import Sanitize.

Lemma reserved_not_space c : is_reserved c = true -> isspace c = false.
Proof.
  unfold is_reserved, RESERVED. intros Hc%bool_decide_eq_true.
  repeat (apply elem_of_cons in Hc as [->|Hc]; [reflexivity|]).
  by apply elem_of_nil in Hc.
Qed.

Lemma sub_reserved_unreserved name : Forall unreserved (sub_reserved name).
Proof.
  unfold sub_reserved. apply Forall_map, Forall_forall. intros c _.
  unfold unreserved. simpl. by destruct (is_reserved c) eqn:Hc.
Qed.

Lemma sub_reserved_whitespace name :
  Forall (fun c => isspace c = true) name -> sub_reserved name = name.
Proof.
  induction 1 as [|c name Hc _ IH]; [done|].
  unfold sub_reserved in *. simpl. rewrite IH. f_equal.
  destruct (is_reserved c) eqn:Hr; [|done].
  apply reserved_not_space in Hr. congruence.
Qed.

Lemma lstrip_Forall (P : N -> Prop) s : Forall P s -> Forall P (lstrip s).
Proof.
  induction 1 as [|c s Hc Hs IH]; simpl; [constructor|].
  destruct (isspace c); [done|]. by constructor.
Qed.

Lemma strip_Forall (P : N -> Prop) s : Forall P s -> Forall P (strip s).
Proof.
  intros Hs. unfold strip, rstrip.
  apply Forall_rev, lstrip_Forall, Forall_rev, lstrip_Forall, Hs.
Qed.

Lemma lstrip_whitespace s :
  Forall (fun c => isspace c = true) s -> lstrip s = [].
Proof. induction 1 as [|c s Hc _ IH]; simpl; [done|]. by rewrite Hc. Qed.

Lemma strip_whitespace s :
  Forall (fun c => isspace c = true) s -> strip s = [].
Proof. intros Hs. unfold strip, rstrip. by rewrite (lstrip_whitespace s). Qed.

Lemma sub_whitespace_from_unreserved in_run s :
  Forall unreserved s -> Forall unreserved (sub_whitespace_from in_run s).
Proof.
  intros Hs. revert in_run.
  induction Hs as [|c s Hc _ IH]; intros in_run; simpl; [constructor|].
  destruct (isspace c); [destruct in_run|]; auto.
  - constructor; [reflexivity | auto].
Qed.

Lemma sub_whitespace_from_no_space in_run s :
  Forall (fun c => isspace c = false) (sub_whitespace_from in_run s).
Proof.
  revert in_run. induction s as [|c s IH]; intros in_run; simpl; [constructor|].
  destruct (isspace c) eqn:Hc; [destruct in_run|]; auto.
Qed.

Lemma sub_whitespace_clean s :
  Forall unreserved s -> Forall clean (sub_whitespace s).
Proof.
  intros Hs. unfold sub_whitespace.
  pose proof (sub_whitespace_from_unreserved false s Hs) as H1.
  pose proof (sub_whitespace_from_no_space false s) as H2.
  rewrite Forall_forall in *. intros c Hc. split; [apply H1 | apply H2]; done.
Qed.

Lemma untitled_clean : Forall clean (py "untitled").
Proof. repeat constructor. Qed.

(** *** The result is the name the specification describes *)

Lemma isspace_mask (c : N) :
  isspace (if is_reserved c then UNDERSCORE else c) = isspace c.
Proof.
  destruct (is_reserved c) eqn:Hc; [|done].
  by rewrite (reserved_not_space c Hc).
Qed.

Lemma words_sub_reserved (s : str) :
  words (sub_reserved s) = map sub_reserved (words s).
Proof.
  unfold sub_reserved. induction s as [|c s IH]; [done|].
  cbn [map words]. rewrite isspace_mask.
  destruct (isspace c); [exact IH|].
  destruct s as [|d s]; [done|].
  cbn [map] in *. rewrite isspace_mask.
  destruct (isspace d); [by rewrite IH|].
  rewrite IH. by destruct (words (d :: s)).
Qed.

Lemma words_lstrip (s : str) : words (lstrip s) = words s.
Proof.
  induction s as [|c s IH]; [done|]. cbn [lstrip].
  destruct (isspace c) eqn:Hc; [|done]. cbn [words]. by rewrite Hc.
Qed.

Lemma words_snoc_space (s : str) (c : N) :
  isspace c = true -> words (s ++ [c]) = words s.
Proof.
  intros Hc. induction s as [|x s IH]; cbn [app words].
  - by rewrite Hc.
  - destruct (isspace x); [exact IH|].
    destruct s as [|d s]; cbn [app] in *.
    + rewrite Hc. cbn [words]. by rewrite Hc.
    + destruct (isspace d); by rewrite IH.
Qed.

Lemma words_app_spaces (s run : str) :
  Forall (fun c => isspace c = true) run -> words (s ++ run) = words s.
Proof.
  intros Hrun. revert s. induction Hrun as [|c run Hc _ IH]; intros s.
  - by rewrite app_nil_r.
  - rewrite (cons_middle c s run), app_assoc, IH.
    by apply words_snoc_space.
Qed.

Lemma lstrip_split (s : str) :
  exists run, Forall (fun c => isspace c = true) run /\ s = run ++ lstrip s.
Proof.
  induction s as [|c s (run & Hrun & IH)]; [by exists []|]. cbn [lstrip].
  destruct (isspace c) eqn:Hc; [|by exists []].
  exists (c :: run). split; [by constructor|]. cbn. by rewrite <- IH.
Qed.

Lemma rstrip_split (s : str) :
  exists run, Forall (fun c => isspace c = true) run /\ s = rstrip s ++ run.
Proof.
  destruct (lstrip_split (rev s)) as (run & Hrun & Hs).
  exists (rev run). split; [by apply Forall_rev|].
  unfold rstrip. by rewrite <- rev_app_distr, <- Hs, rev_involutive.
Qed.

Lemma words_rstrip (s : str) : words (rstrip s) = words s.
Proof.
  destruct (rstrip_split s) as (run & Hrun & Hs).
  rewrite Hs at 2. by rewrite words_app_spaces.
Qed.

Lemma words_strip (s : str) : words (strip s) = words s.
Proof. unfold strip. by rewrite words_rstrip, words_lstrip. Qed.

Lemma last_rev (s : str) : last (rev s) = head s.
Proof. destruct s as [|c s]; [done|]. cbn. apply last_snoc. Qed.

Lemma head_lstrip (s : str) (c : N) :
  head (lstrip s) = Some c -> isspace c = false.
Proof.
  induction s as [|x s IH]; [done|]. cbn [lstrip].
  destruct (isspace x) eqn:Hx; [exact IH|]. by intros [= <-].
Qed.

Lemma last_rstrip (s : str) (c : N) :
  last (rstrip s) = Some c -> isspace c = false.
Proof. unfold rstrip. rewrite last_rev. apply head_lstrip. Qed.

Lemma head_strip (s : str) (c : N) :
  head (strip s) = Some c -> isspace c = false.
Proof.
  unfold strip. destruct (rstrip_split (lstrip s)) as (run & _ & Hs).
  destruct (rstrip (lstrip s)) as [|x t] eqn:Ht; [done|].
  intros [= <-]. apply (head_lstrip s). by rewrite Hs.
Qed.

Lemma words_nonempty (s : str) (c : N) :
  isspace c = false -> words (c :: s) <> [].
Proof.
  intros Hc. cbn [words]. rewrite Hc.
  destruct s as [|d s]; [done|].
  destruct (isspace d); [done|]. by destruct (words (d :: s)).
Qed.

Lemma words_tight_nonempty (s : str) :
  s <> [] -> (forall c, last s = Some c -> isspace c = false) ->
  words s <> [].
Proof.
  induction s as [|x s IH]; [done|]. intros _ Hlast.
  destruct (isspace x) eqn:Hx; [|by apply words_nonempty].
  cbn [words]. rewrite Hx.
  destruct s as [|d s].
  - specialize (Hlast x eq_refl). congruence.
  - apply IH; [done|]. intros c Hc. apply Hlast.
    by rewrite last_cons_cons.
Qed.

(** On a text that does not end in whitespace, the second [re.sub]
    gives the words joined by hyphens, after one more hyphen when the
    text begins with whitespace that no whitespace precedes. *)
Lemma sub_whitespace_from_words (s : str) :
  (forall c, last s = Some c -> isspace c = false) ->
  sub_whitespace_from true s = join [HYPHEN] (words s)
  /\ sub_whitespace_from false s
     = match s with
       | c :: _ => if isspace c then HYPHEN :: join [HYPHEN] (words s)
                   else join [HYPHEN] (words s)
       | [] => []
       end.
Proof.
  induction s as [|c s IH]; [done|]. intros Hlast.
  assert (Htail : s <> [] -> forall x, last s = Some x -> isspace x = false).
  { intros Hne x Hx. apply Hlast. destruct s; [done|].
    by rewrite last_cons_cons. }
  cbn [sub_whitespace_from words].
  destruct (isspace c) eqn:Hc.
  - destruct s as [|d s].
    + specialize (Hlast c eq_refl). congruence.
    + destruct (IH (Htail ltac:(done))) as [IH1 _]. by rewrite IH1.
  - destruct s as [|d s]; [done|].
    destruct (IH (Htail ltac:(done))) as [_ IH2]. rewrite IH2.
    destruct (isspace d) eqn:Hd.
    + pose proof (words_tight_nonempty (d :: s) ltac:(done)
                    (Htail ltac:(done))) as Hne.
      destruct (words (d :: s)) as [|w ws]; [done|]. done.
    + pose proof (words_nonempty s d Hd) as Hne.
      destruct (words (d :: s)) as [|w ws]; [done|].
      by destruct ws.
Qed.

Lemma sub_whitespace_strip (s : str) :
  sub_whitespace (strip s) = join [HYPHEN] (words s).
Proof.
  unfold sub_whitespace. rewrite <- (words_strip s).
  destruct (sub_whitespace_from_words (strip s)) as [_ Hfalse].
  { unfold strip. apply last_rstrip. }
  rewrite Hfalse. pose proof (head_strip s) as Hhead.
  destruct (strip s) as [|c t]; [done|].
  by rewrite (Hhead c eq_refl).
Qed.

Lemma sanitize_filename_spec_name (name : str) :
  _sanitize_filename name = spec_name name.
Proof.
  unfold _sanitize_filename, spec_name.
  by rewrite sub_whitespace_strip, words_sub_reserved.
Qed.

(** C10.  For every topic, the directory name [_sanitize_filename] makes of
    it is not empty, is at most 100 characters long, and holds neither a
    reserved character (one of < > : / | ? *, the double quote, the
    backslash) nor a whitespace character; a topic that is empty or made
    of whitespace only gives the name untitled.  The name is the one the
    specification describes: the words of the topic, each with an
    underscore for every reserved character, joined by one hyphen for
    each run of whitespace between them, cut to 100 characters, and
    untitled when that is empty. *)
Theorem sanitize_filename_safe (name : str) :
  _sanitize_filename name ≠ []
  ∧ (length (_sanitize_filename name) ≤ 100)%nat
  ∧ Forall clean (_sanitize_filename name)
  ∧ (Forall (fun c => isspace c = true) name ->
     _sanitize_filename name = py "untitled")
  ∧ _sanitize_filename name = spec_name name.
Proof.
  split; [|split; [|split; [|split]]];
    [ | | | | apply sanitize_filename_spec_name ];
    unfold _sanitize_filename;
    set (body := sub_whitespace (strip (sub_reserved name)));
    assert (Hbody : Forall clean body)
      by apply sub_whitespace_clean, strip_Forall, sub_reserved_unreserved;
    assert (Hcut : Forall clean (firstn 100 body)) by by apply Forall_take.
  - by destruct (firstn 100 body).
  - assert (Hlen : (length (firstn 100 body) ≤ 100)%nat).
    { rewrite length_take. lia. }
    destruct (firstn 100 body); [by apply Nat.leb_le | done].
  - destruct (firstn 100 body); [apply untitled_clean | done].
  - intros Hws. subst body.
    rewrite (sub_reserved_whitespace _ Hws), (strip_whitespace _ Hws). done.
Qed.

(** The words of a topic, as [str.split()] gives them. *)
Example words_weekly :
  words (py "  Weekly: Stand/up   meeting?  ")
  = [py "Weekly:"; py "Stand/up"; py "meeting?"].
Proof. reflexivity. Qed.

(** Runs of whitespace inside a topic become one hyphen each, and the
    reserved characters one underscore each. *)
Example sanitize_filename_weekly :
  _sanitize_filename (py "  Weekly: Stand/up   meeting?  ")
  = py "Weekly_-Stand_up-meeting_".
Proof. reflexivity. Qed.

End SanitizeSpec.

(** * Properties of the watcher *)

Module WatcherSpec.
Import Watcher WatcherScenario.

(** Unfolds the monad operations of a computation applied to a state. *)
Ltac step :=
  unfold bind, ret, raise, get, put, modify, lift_result, try_except,
    sleep, time_sleep, os_path_getsize in *;
  cbn beta iota in *.

(** ** The stability probe *)

(** Splits the statement about the probe into its eight parts. *)
Ltac parts :=
  split; [split|];
  [ | | split; [|split; [|split; [|intros Hrange; split; [|split]]]]].

(** C3.  [is_file_stable] returns true exactly when the first size read
    succeeds, [time.sleep] takes the wait and sleeps, and the second
    read succeeds with the same size, which is positive.  An [OSError]
    of the first read makes it return false; so does, for a wait that
    [time.sleep] takes, an [OSError] of the sleep or of the second read,
    and after two reads that succeed it returns the outcome of the
    comparison.  It raises only what is no [OSError]: after a first read
    that succeeded, the [ValueError] of a negative wait and the
    [OverflowError] of a wait beyond [SLEEP_MAX].  The second read is
    another observation than the first, also when the wait is zero. *)
Theorem is_file_stable_iff (E : env) (filepath : str) (wait_seconds : Z)
    (w : world) :
  let first := getsize E (clock w) (observed w) filepath in
  let slept := sleep_fault E (clock w) wait_seconds in
  let second :=
    getsize E (clock w + wait_seconds) (S (observed w)) filepath in
  let answer := fst (is_file_stable E filepath wait_seconds w) in
  (answer = Ok true
   <-> exists n, first = Ok n /\ 0 <= wait_seconds <= SLEEP_MAX
                 /\ slept = None /\ second = Ok n /\ 0 < n)
  /\ (forall e, first = Raise (OSError e) -> answer = Ok false)
  /\ (forall n, first = Ok n -> wait_seconds < 0 -> answer = Raise ValueError)
  /\ (forall n, first = Ok n -> SLEEP_MAX < wait_seconds ->
      answer = Raise OverflowError)
  /\ (0 <= wait_seconds <= SLEEP_MAX ->
      (forall n e, first = Ok n -> slept = Some e -> answer = Ok false)
      /\ (forall n1 n2, first = Ok n1 -> slept = None -> second = Ok n2 ->
          answer = Ok ((n1 =? n2) && (n2 >? 0)))
      /\ (forall n e, first = Ok n -> slept = None ->
          second = Raise (OSError e) -> answer = Ok false)).
Proof.
  intros first slept second answer. subst first slept second answer.
  assert (Hmax : 0 <= SLEEP_MAX) by (unfold SLEEP_MAX; lia).
  unfold is_file_stable. step.
  destruct (getsize E (clock w) (observed w) filepath) as [n1|e1] eqn:H1;
    cbn.
  2:{ parts.
      - destruct (is_OSError e1); cbn; discriminate.
      - intros (n & Hn & _). discriminate.
      - intros e [= ->]. reflexivity.
      - intros; discriminate.
      - intros; discriminate.
      - intros; discriminate.
      - intros; discriminate.
      - intros; discriminate. }
  destruct (wait_seconds <? 0) eqn:Hneg; cbn.
  { apply Z.ltb_lt in Hneg. parts.
    - discriminate.
    - intros (n & _ & Hr & _). lia.
    - intros; discriminate.
    - reflexivity.
    - intros; lia.
    - exfalso; lia.
    - exfalso; lia.
    - exfalso; lia. }
  apply Z.ltb_ge in Hneg.
  destruct (SLEEP_MAX <? wait_seconds) eqn:Hbig; cbn.
  { apply Z.ltb_lt in Hbig. parts.
    - discriminate.
    - intros (n & _ & Hr & _). lia.
    - intros; discriminate.
    - intros; lia.
    - reflexivity.
    - exfalso; lia.
    - exfalso; lia.
    - exfalso; lia. }
  apply Z.ltb_ge in Hbig.
  destruct (sleep_fault E (clock w) wait_seconds) as [e|] eqn:Hs; cbn.
  { parts.
    - discriminate.
    - intros (n & _ & _ & Hn & _). discriminate.
    - intros; discriminate.
    - intros; lia.
    - intros; lia.
    - reflexivity.
    - intros; discriminate.
    - intros; discriminate. }
  destruct (getsize E (clock w + wait_seconds) (S (observed w)) filepath)
    as [n2|e2] eqn:H2; cbn.
  - parts.
    + intros [= Hb]. apply andb_true_iff in Hb as [Heq Hpos].
      exists n1. repeat split; try lia. f_equal. lia.
    + intros (n & [= ->] & _ & _ & [= ->] & Hn). f_equal.
      apply andb_true_iff. split; lia.
    + intros; discriminate.
    + intros; lia.
    + intros; lia.
    + intros; discriminate.
    + intros m1 m2 [= ->] _ [= ->]. reflexivity.
    + intros; discriminate.
  - parts.
    + destruct (is_OSError e2); cbn; discriminate.
    + intros (n & _ & _ & _ & Hn & _). discriminate.
    + intros; discriminate.
    + intros; lia.
    + intros; lia.
    + intros; discriminate.
    + intros; discriminate.
    + intros n e _ _ [= ->]. reflexivity.
Qed.

(** A negative wait is no duration: [time.sleep] raises [ValueError]
    after a first read that succeeded, and the probe does not return. *)
Lemma is_file_stable_negative_wait (E : env) (filepath : str)
    (wait_seconds : Z) (w : world) (n : Z) :
  wait_seconds < 0 ->
  getsize E (clock w) (observed w) filepath = Ok n ->
  is_file_stable E filepath wait_seconds w = (Raise ValueError, count_read w).
Proof.
  intros Hneg Hfirst. unfold is_file_stable. step. rewrite Hfirst.
  assert (Hlt : (wait_seconds <? 0) = true) by lia.
  cbn. rewrite Hlt. reflexivity.
Qed.

Lemma is_file_stable_iff_witness :
  fst (is_file_stable (constant_size 50) (py "/inbox/clip.mp4") STABLE_WAIT
         fresh_world) = Ok true.
Proof.
  apply (is_file_stable_iff (constant_size 50) (py "/inbox/clip.mp4")
           STABLE_WAIT fresh_world).
  exists 50. unfold STABLE_WAIT, SLEEP_MAX. repeat split; lia.
Defined.

(** ** The ledger *)

Lemma py_in_dict key fields :
  py_in key (JObj fields) = Ok (bool_decide (is_Some (fields !! key))).
Proof. reflexivity. Qed.

Lemma py_setitem_ok container key value updated :
  py_setitem container key value = Ok updated ->
  exists fields, container = JObj fields
                 /\ updated = JObj (<[key := value]> fields).
Proof. destruct container; cbn; intros [= <-]; eauto. Qed.

(** [_load] on a file that holds a JSON document takes the document. *)
Lemma load_document (w : world) value :
  content (store w) = Readable (JsonText value) ->
  _load w = (Ok tt, set_processed value w).
Proof.
  intros Hc. unfold _load, path_exists, read_text. step. rewrite Hc. cbn.
  reflexivity.
Qed.

(** A successful [mark_processed] leaves the whole mapping, with the new
    entry, both in the tracker and in the file. *)
Lemma mark_processed_ok strftime filepath success (w w' : world) :
  mark_processed strftime filepath success w = (Ok tt, w') ->
  exists fields,
    processed (tracker w) = JObj fields
    /\ processed (tracker w')
       = JObj (<[filepath := ledger_entry (strftime (clock w)) success]> fields)
    /\ content (store w') = Readable (JsonText (processed (tracker w')))
    /\ path (tracker w') = path (tracker w).
Proof.
  unfold mark_processed, _save, write_text. step.
  destruct (py_setitem _ _ _) as [updated|e] eqn:Hset; cbn; [|discriminate].
  apply py_setitem_ok in Hset as (fields & Hw & ->).
  destruct (write_fault (store w)) as [[e after]|] eqn:Hf; cbn;
    [discriminate|].
  intros [= <-]. exists fields. cbn. auto.
Qed.

(** A dict tracker over a writable file accepts every mark. *)
Lemma mark_processed_returns strftime filepath success (w : world) fields :
  processed (tracker w) = JObj fields ->
  write_fault (store w) = None ->
  exists w', mark_processed strftime filepath success w = (Ok tt, w').
Proof.
  intros Hp Hf. unfold mark_processed, _save, write_text. step.
  rewrite Hp. cbn. rewrite Hf. cbn. eauto.
Qed.

(** Whenever [mark_processed] returns, a tracker constructed anew over
    the file it leaves finds the key. *)
Lemma restart_after_mark (strftime : Z -> str) (i : str) (s : bool)
    (w w' : world) :
  mark_processed strftime i s w = (Ok tt, w') ->
  forall tracker_path w0,
    store w0 = store w' ->
    exists w'',
      __init__ tracker_path w0 = (Ok tt, w'')
      /\ store w'' = store w'
      /\ processed (tracker w'') = processed (tracker w')
      /\ is_processed i w'' = (Ok true, w'').
Proof.
  intros Hmark tracker_path w0 Hstore.
  apply mark_processed_ok in Hmark as (fields & _ & Hp & Hc & _).
  rewrite <- Hstore in Hc. unfold __init__. step.
  match goal with
  | |- context [_load ?w1] =>
      rewrite (load_document w1 (processed (tracker w'))) by exact Hc
  end.
  eexists. split; [reflexivity|]. split; [exact Hstore|].
  split; [reflexivity|].
  unfold is_processed. step. cbn. rewrite Hp. cbn.
  rewrite lookup_insert_eq. reflexivity.
Qed.

(** C2.  On a ledger whose file can be written, [mark_processed(i, s)]
    returns for every identity and success flag; when it has returned the
    tracker file holds the whole mapping.  A restart then finds the mark:
    a tracker constructed anew, at any path and in any world that shares
    nothing with the marking one but the tracker file, loads the ledger
    with the new entry from the file and answers [is_processed(i)] with
    true. *)
Theorem mark_processed_survives_restart (strftime : Z -> str) (i : str)
    (s : bool) (w : world) (fields : gmap str json) :
  processed (tracker w) = JObj fields ->
  write_fault (store w) = None ->
  exists w',
    mark_processed strftime i s w = (Ok tt, w')
    /\ content (store w') = Readable (JsonText (processed (tracker w')))
    /\ forall tracker_path w0,
         store w0 = store w' ->
         exists w'',
           __init__ tracker_path w0 = (Ok tt, w'')
           /\ store w'' = store w'
           /\ processed (tracker w'')
              = JObj (<[i := ledger_entry (strftime (clock w)) s]> fields)
           /\ is_processed i w'' = (Ok true, w'').
Proof.
  intros Hdict Hwritable.
  destruct (mark_processed_returns strftime i s w fields Hdict Hwritable)
    as [w' Hmark].
  exists w'. split; [exact Hmark|].
  pose proof (restart_after_mark strftime i s w w' Hmark) as Hrestart.
  apply mark_processed_ok in Hmark as (fields' & Hw & Hp & Hcontent & _).
  rewrite Hdict in Hw. injection Hw as <-.
  split; [exact Hcontent|].
  intros tracker_path w0 Hstore.
  destruct (Hrestart tracker_path w0 Hstore)
    as (w'' & Hinit & Hst & Hledger & Hseen).
  exists w''. rewrite Hledger, Hp. auto.
Qed.

Lemma mark_processed_survives_restart_witness :
  exists w',
    mark_processed (strftime failing_processor) clip false fresh_world
    = (Ok tt, w')
    /\ content (store w') = Readable (JsonText (processed (tracker w')))
    /\ forall tracker_path w0,
         store w0 = store w' ->
         exists w'',
           __init__ tracker_path w0 = (Ok tt, w'')
           /\ store w'' = store w'
           /\ processed (tracker w'')
              = JObj (<[clip := ledger_entry
                                 (strftime failing_processor
                                    (clock fresh_world)) false]> ∅)
           /\ is_processed clip w'' = (Ok true, w'').
Proof.
  exact (mark_processed_survives_restart (strftime failing_processor) clip
           false fresh_world ∅ eq_refl eq_refl).
Defined.

(** ** Construction over a store that cannot be loaded *)

(** A store that is absent, cannot be read, or is not JSON gives an empty
    ledger. *)
Lemma init_treats_as_empty (tracker_path : str) (w : world) :
  (content (store w) = Missing
   \/ (exists e, content (store w) = Unreadable e)
   \/ content (store w) = Readable NotJson) ->
  exists w', __init__ tracker_path w = (Ok tt, w')
             /\ processed (tracker w') = JObj ∅
             /\ forall i, is_processed i w' = (Ok false, w').
Proof.
  intros Hc. unfold __init__, _load, path_exists, read_text. step.
  destruct Hc as [Hc|[[e Hc]|Hc]]; cbn; rewrite Hc; cbn;
    (eexists; split; [reflexivity|]; split; [reflexivity|]);
    intros i; unfold is_processed; step; cbn;
    rewrite lookup_empty; reflexivity.
Qed.

(** C8.  A tracker file whose bytes are not text of the default encoding
    makes the constructor raise [UnicodeDecodeError]: the handler of
    [_load] names [JSONDecodeError] and [OSError] only. *)
Theorem init_raises_on_undecodable (tracker_path : str) (w : world) :
  content (store w) = Undecodable ->
  fst (__init__ tracker_path w) = Raise UnicodeDecodeError.
Proof.
  intros Hc. unfold __init__, _load, path_exists, read_text. step. cbn.
  rewrite Hc. reflexivity.
Qed.

Lemma init_raises_on_undecodable_witness :
  fst (__init__ (py "/inbox/processed_files.json") undecodable_world)
  = Raise UnicodeDecodeError.
Proof. apply (init_raises_on_undecodable _ undecodable_world). reflexivity. Defined.

(** The other stores the constructor raises on: a path [Path.exists]
    fails on, outside the [try] of [_load], and the two texts that
    [json.loads] rejects with an exception the handler does not name. *)
Lemma init_raises_on_unloadable (tracker_path : str) (w : world) :
  (forall e, content (store w) = Unstatable e ->
             fst (__init__ tracker_path w) = Raise (OSError e))
  /\ (content (store w) = Readable TooManyDigits ->
      fst (__init__ tracker_path w) = Raise ValueError)
  /\ (content (store w) = Readable TooDeep ->
      fst (__init__ tracker_path w) = Raise RecursionError).
Proof.
  unfold __init__, _load, path_exists, read_text. step. cbn.
  repeat split; [intros e Hc | intros Hc | intros Hc]; by rewrite Hc.
Qed.

(** A tracker file that holds the JSON document [null] is loaded as it
    is, and the first [is_processed] raises [TypeError]. *)
Lemma init_keeps_non_dict (tracker_path : str) (w : world) :
  content (store w) = Readable (JsonText JNull) ->
  exists w', __init__ tracker_path w = (Ok tt, w')
             /\ forall i, fst (is_processed i w') = Raise TypeError.
Proof.
  intros Hc. unfold __init__. step.
  match goal with
  | |- context [_load ?w0] => rewrite (load_document w0 JNull) by exact Hc
  end.
  eexists. split; [reflexivity|]. intros i. reflexivity.
Qed.

(** ** The local scan *)

Lemma scan_entries_dict (w : world) fields entries new_files :
  processed (tracker w) = JObj fields ->
  scan_entries entries new_files w
  = (Ok (new_files ++ unseen fields entries), w).
Proof.
  intros Hp. revert new_files.
  induction entries as [|e entries IH]; intros new_files; cbn.
  - unfold unseen. cbn. by rewrite app_nil_r.
  - unfold unseen in *. cbn.
    destruct (is_file e && is_supported_file (entry_path e)) eqn:Hsel; cbn.
    + unfold is_processed. step. rewrite Hp. cbn.
      destruct (bool_decide (is_Some (fields !! resolve e))) eqn:Hseen; cbn.
      * apply IH.
      * rewrite IH. cbn. by rewrite <- app_assoc.
    + apply IH.
Qed.

Lemma unseen_not_in_ledger fields entries p :
  p ∈ unseen fields entries -> fields !! p = None.
Proof.
  unfold unseen. intros (e & -> & He)%list_elem_of_fmap.
  apply list_elem_of_In, filter_In in He as [_ Hsel].
  apply andb_true_iff in Hsel as [_ Hnew].
  apply negb_true_iff, bool_decide_eq_false in Hnew.
  by apply eq_None_not_Some.
Qed.

(** A scan only reads the tracker object. *)
Lemma find_new_files_tracker inbox (w1 w2 : world) :
  tracker w1 = tracker w2 ->
  fst (find_new_files inbox w1) = fst (find_new_files inbox w2).
Proof.
  intros Ht. unfold find_new_files. destruct inbox as [entries|]; [|done].
  generalize (@nil str) as acc. generalize (sorted entries) as l.
  induction l as [|e l IH]; intros acc; cbn; [done|].
  destruct (is_file e && is_supported_file (entry_path e)); [|apply IH].
  unfold is_processed. step. rewrite Ht.
  destruct (py_in (resolve e) (processed (tracker w2))) as [seen|err]; cbn;
    [|done].
  destruct (negb seen); apply IH.
Qed.

Lemma find_new_files_dict (w : world) fields inbox :
  processed (tracker w) = JObj fields ->
  exists files, find_new_files inbox w = (Ok files, w)
                /\ forall p, p ∈ files -> fields !! p = None.
Proof.
  intros Hp. destruct inbox as [entries|]; cbn.
  - rewrite (scan_entries_dict w fields) by done. eexists. split; [done|].
    cbn. apply unseen_not_in_ledger.
  - exists []. split; [done|]. intros p Hin. by apply elem_of_nil in Hin.
Qed.

(** The probe touches neither the tracker nor its file, and hands no
    file to the processor. *)
Lemma is_file_stable_frame (E : env) (p : str) (wait : Z) (w w1 : world) r :
  is_file_stable E p wait w = (r, w1) ->
  tracker w1 = tracker w /\ store w1 = store w /\ invoked w1 = invoked w.
Proof.
  unfold is_file_stable. step.
  destruct (getsize E (clock w) (observed w) p) as [n1|e1]; cbn.
  2:{ destruct (is_OSError e1); by intros [= <- <-]. }
  destruct (wait <? 0); cbn; [by intros [= <- <-]|].
  destruct (SLEEP_MAX <? wait); cbn; [by intros [= <- <-]|].
  destruct (sleep_fault E (clock w) wait); cbn; [by intros [= <- <-]|].
  destruct (getsize E (clock w + wait) (S (observed w)) p) as [n2|e2]; cbn.
  - by intros [= <- <-].
  - destruct (is_OSError e2); by intros [= <- <-].
Qed.

(** An unstable file is left alone. *)
Lemma handle_file_unstable (E : env) (p : str) (w w1 : world) :
  is_file_stable E p STABLE_WAIT w = (Ok false, w1) ->
  handle_file E p w = (Ok tt, w1)
  /\ tracker w1 = tracker w /\ store w1 = store w /\ invoked w1 = invoked w.
Proof.
  intros Hs. unfold handle_file. unfold bind at 1. rewrite Hs. cbn.
  split; [done|]. by apply is_file_stable_frame in Hs.
Qed.

Lemma process_file_run (E : env) (p : str) (w : world) :
  process_file E p w
  = (process_single_file E (clock w) p, record_invocation p w).
Proof. reflexivity. Qed.

(** A stable file is marked, whatever the processor answers. *)
Lemma handle_file_stable (E : env) (p : str) (w w1 w2 : world) :
  is_file_stable E p STABLE_WAIT w = (Ok true, w1) ->
  handle_file E p w = (Ok tt, w2) ->
  exists fields, processed (tracker w2) = JObj fields
                 /\ is_Some (fields !! p).
Proof.
  intros Hs. unfold handle_file. unfold bind at 1. rewrite Hs. cbn.
  unfold try_except.
  destruct (bind (process_file E p) _ w1) as [[[]|e] w'] eqn:Hrun.
  - intros [= <-]. revert Hrun. unfold bind. rewrite process_file_run.
    destruct (process_single_file E _ p) as [success|e]; [|discriminate].
    intros Hmark. apply mark_processed_ok in Hmark as (fields & _ & -> & _).
    eexists. split; [done|]. rewrite lookup_insert_eq. eauto.
  - intros Hmark. apply mark_processed_ok in Hmark as (fields & _ & -> & _).
    eexists. split; [done|]. rewrite lookup_insert_eq. eauto.
Qed.

(** C1, as the code has it.  A path with a ledger entry, whatever its
    success flag, is not returned by the next scan: the local loop does
    not retry a failed file.  A file the loop finds unstable gets no entry,
    so the next scan lists what this one listed; a file it finds stable
    has an entry once the loop body has returned. *)
Theorem ledger_entry_blocks_relisting (E : env) (w : world)
    (fields : gmap str json) (p : str) :
  processed (tracker w) = JObj fields ->
  (is_Some (fields !! p) ->
   forall inbox, exists files,
     find_new_files inbox w = (Ok files, w) /\ p ∉ files)
  /\ (forall w1, is_file_stable E p STABLE_WAIT w = (Ok false, w1) ->
      handle_file E p w = (Ok tt, w1)
      /\ tracker w1 = tracker w /\ store w1 = store w
      /\ forall inbox,
           fst (find_new_files inbox w1) = fst (find_new_files inbox w))
  /\ (forall w1 w2, is_file_stable E p STABLE_WAIT w = (Ok true, w1) ->
      handle_file E p w = (Ok tt, w2) ->
      forall inbox, exists files,
        find_new_files inbox w2 = (Ok files, w2) /\ p ∉ files).
Proof.
  intros Hp. repeat split.
  - intros Hsome inbox.
    destruct (find_new_files_dict w fields inbox Hp) as (files & Hrun & Hnew).
    exists files. split; [done|]. intros Hin%Hnew.
    destruct Hsome as [v Hv]. congruence.
  - by apply handle_file_unstable.
  - by eapply handle_file_unstable.
  - by eapply handle_file_unstable.
  - intros inbox. apply find_new_files_tracker.
    by eapply handle_file_unstable.
  - intros w1 w2 Hs Hh inbox.
    destruct (handle_file_stable E p w w1 w2 Hs Hh) as (fields2 & Hp2 & Hsome).
    destruct (find_new_files_dict w2 fields2 inbox Hp2)
      as (files & Hrun & Hnew).
    exists files. split; [done|]. intros Hin%Hnew.
    destruct Hsome as [v Hv]. congruence.
Qed.

Lemma ledger_entry_blocks_relisting_witness :
  exists files,
    find_new_files (Some [clip_entry]) failed_world = (Ok files, failed_world)
    /\ clip ∉ files.
Proof.
  destruct (ledger_entry_blocks_relisting failing_processor failed_world
              failed_fields clip eq_refl) as [Hentry _].
  apply Hentry. unfold failed_fields. rewrite lookup_insert_eq. eauto.
Defined.

(** C1, as stated, fails.  The clip is stable and the processor fails on
    it: the first cycle leaves the ledger entry of the clip with
    [success = false], the scan that follows returns no candidate, and the
    second cycle does not hand the clip to the processor again. *)
Lemma failed_file_is_not_retried :
  watch_cycle failing_processor fresh_world = (Ok tt, failed_world)
  /\ processed (tracker failed_world)
     = JObj (<[clip := ledger_entry (py "2026-01-01T00:00:00") false]> ∅)
  /\ fst (find_new_files (inbox_at failing_processor (clock failed_world))
            failed_world) = Ok []
  /\ invoked (snd (watch_cycle failing_processor failed_world)) = [clip].
Proof.
  repeat split; vm_compute; reflexivity.
Qed.

End WatcherSpec.

(** * Properties of the Zoom client and poller *)

Module ZoomSpec.
Import Zoom ZoomScenario.

Ltac step :=
  unfold bind, ret, raise, get, put, modify, lift_result, try_except in *;
  cbn beta iota in *.

(** Runs a computation to its leaves, by cases on what the outside
    answers. *)
Ltac run :=
  repeat (unfold emit, read_clock, insforge_request, raise_for_status in *;
          step; cbn [negb andb] in *;
          try case_match);
  simplify_eq.

(** ** What the primitive requests do *)

Lemma insforge_request_run (E : env) (e : event) (st : state) :
  insforge_request E e st
  = (match insforge_fault E (length (trace st)) with
     | Some err => Raise err
     | None => Ok tt
     end, push e st).
Proof.
  unfold insforge_request, emit. step.
  by destruct (insforge_fault E (length (trace st))).
Qed.

Lemma get_zoom_token_run (E : env) (label : str) (st : state) :
  get_zoom_token E label st
  = (match insforge_fault E (length (trace st)) with
     | Some err => Raise err
     | None => Ok (zoom_tokens st !! label)
     end, push (GetZoomToken label) st).
Proof.
  unfold get_zoom_token. unfold bind at 1. rewrite insforge_request_run.
  by destruct (insforge_fault E (length (trace st))).
Qed.

Lemma read_clock_run (E : env) (st : state) :
  read_clock E st
  = (Ok (time_time E (length (trace st))),
     push (ClockRead (time_time E (length (trace st)))) st).
Proof. reflexivity. Qed.

Lemma length_trace_push e st : length (trace (push e st)) = S (length (trace st)).
Proof. cbn. rewrite length_app. cbn. lia. Qed.

(** C5.  With a stored credential that has a refresh token: when the
    exchange answers with a status other than 200, [refresh_token] returns
    false and neither the stored row nor the token in memory changes; when
    it answers 200 with an access token, the new access token, the new
    refresh token (the stored one when the answer has none) and the new
    expiry are saved by one [save_zoom_token] request, and taken in
    memory. *)
Theorem refresh_token_spec (E : env) (cfg : config) (st : state)
    (row : token_row) (stored : str) (resp : response token_data) :
  let n := length (trace st) in
  let label := client_user_label cfg in
  insforge_fault E n = None ->
  zoom_tokens st !! label = Some row ->
  tok_refresh_token row = Some stored ->
  stored <> [] ->
  oauth_token_post E (n + 1) stored = Ok resp ->
  (status_code resp <> 200 ->
   exists st',
     refresh_token E cfg st = (Ok false, st')
     /\ zoom_tokens st' = zoom_tokens st
     /\ _access_token st' = _access_token st
     /\ _expires_at st' = _expires_at st
     /\ trace st' = trace st ++ [GetZoomToken label; OAuthRefresh stored])
  /\ (status_code resp = 200 ->
      forall token, data_access_token (body resp) = Some token ->
      insforge_fault E (n + 3) = None ->
      let new_row := refreshed_row E cfg row stored (body resp) token n in
      exists st',
        refresh_token E cfg st = (Ok true, st')
        /\ zoom_tokens st' = <[label := new_row]> (zoom_tokens st)
        /\ _access_token st' = token
        /\ _expires_at st' = tok_expires_at new_row
        /\ trace st' = trace st ++ [GetZoomToken label; OAuthRefresh stored;
                                   ClockRead (time_time E (n + 2));
                                   SaveZoomToken new_row]).
Proof.
  intros n label Hdb Hrow Hstored Hne Hpost.
  assert (Htruthy : str_truthy stored = true) by by destruct stored.
  split.
  - intros Hstatus. unfold refresh_token. unfold bind at 1.
    rewrite get_zoom_token_run. fold n. rewrite Hdb.
    fold label. rewrite Hrow, Hstored, Htruthy. cbn [negb].
    unfold emit. step. rewrite length_trace_push. fold n.
    replace (S n) with (n + 1)%nat by lia. rewrite Hpost.
    apply Z.eqb_neq in Hstatus. rewrite Hstatus. cbn [negb].
    eexists. split; [reflexivity|]. cbn. rewrite <- app_assoc. auto.
  - intros Hstatus token Htoken Hsave new_row. unfold refresh_token.
    unfold bind at 1. rewrite get_zoom_token_run. fold n. rewrite Hdb.
    fold label. rewrite Hrow, Hstored, Htruthy. cbn [negb].
    unfold emit. unfold bind at 1. unfold bind at 1. unfold lift_result.
    rewrite length_trace_push. fold n.
    replace (S n) with (n + 1)%nat by lia. rewrite Hpost.
    apply Z.eqb_eq in Hstatus. rewrite Hstatus. cbn [negb].
    unfold bind at 1. rewrite read_clock_run.
    rewrite !length_trace_push. fold n.
    replace (S (S n)) with (n + 2)%nat by lia.
    rewrite Htoken. unfold bind at 1. unfold ret at 1.
    unfold save_zoom_token. step. rewrite !insforge_request_run.
    repeat (cbn [trace push]; rewrite ?length_app; cbn [length]).
    fold n. replace (n + 1 + 1 + 1)%nat with (n + 3)%nat by lia.
    rewrite Hsave. eexists. split; [reflexivity|]. cbn.
    rewrite <- !app_assoc. cbn. fold n.
    replace (n + 1 + 1 + 1)%nat with (n + 3)%nat by lia. auto.
Qed.

(** ** Runs that write nothing *)

Lemma quiet_refl st : quiet st st.
Proof.
  repeat split. exists []. by rewrite app_nil_r.
Qed.

Lemma quiet_trans st1 st2 st3 : quiet st1 st2 -> quiet st2 st3 -> quiet st1 st3.
Proof.
  intros (Hp1 & Hb1 & ev1 & Ht1 & Hq1) (Hp2 & Hb2 & ev2 & Ht2 & Hq2).
  repeat split; [congruence | congruence |].
  exists (ev1 ++ ev2). rewrite Ht2, Ht1, <- app_assoc. split; [done|].
  by apply Forall_app.
Qed.

(** Closes a goal [quiet st st'] where [st'] is [st] after some updates
    and pushes of events that are not writes. *)
Ltac quiet_leaf :=
  unfold quiet; cbn;
  split; [reflexivity|];
  split; [reflexivity|];
  rewrite <- ?app_assoc; eexists; split;
  [ reflexivity || (symmetry; apply app_nil_r)
  | repeat constructor ].

Lemma refresh_token_quiet (E : env) (cfg : config) (st : state) :
  quiet st (snd (refresh_token E cfg st)).
Proof.
  unfold refresh_token, save_zoom_token. unfold bind at 1.
  rewrite get_zoom_token_run.
  destruct (insforge_fault E (length (trace st))); [quiet_leaf|].
  destruct (zoom_tokens st !! client_user_label cfg) as [row|];
    [|quiet_leaf].
  destruct (tok_refresh_token row) as [stored|]; [|quiet_leaf].
  destruct (negb (str_truthy stored)); [quiet_leaf|].
  run; quiet_leaf.
Qed.

(** A refresh that does not return true leaves the credential as it
    was, in the store and in memory. *)
Lemma refresh_token_failure (E : env) (cfg : config) (st : state) :
  fst (refresh_token E cfg st) <> Ok true ->
  same_credential st (snd (refresh_token E cfg st)).
Proof.
  unfold refresh_token, save_zoom_token, get_zoom_token, same_credential.
  run; cbn; done.
Qed.

Lemma ensure_token_quiet (E : env) (cfg : config) (st : state) :
  quiet st (snd (_ensure_token E cfg st)).
Proof.
  unfold _ensure_token. unfold bind at 1. rewrite read_clock_run.
  step. cbn [_expires_at push].
  destruct (float_gt_int _ _); [|quiet_leaf].
  eapply quiet_trans; [|].
  2:{ pose proof (refresh_token_quiet E cfg
                    (push (ClockRead (time_time E (length (trace st)))) st))
        as Hq.
      destruct (refresh_token E cfg _) as [[ok|e] st1]; exact Hq. }
  quiet_leaf.
Qed.

Lemma api_get_quiet (E : env) (cfg : config) url_path params (st : state) :
  quiet st (snd (_api_get E cfg url_path params st)).
Proof.
  unfold _api_get. unfold bind at 1.
  pose proof (ensure_token_quiet E cfg st) as Hq.
  destruct (_ensure_token E cfg st) as [[[]|e] st1]; cbn in Hq |- *;
    [|exact Hq].
  eapply quiet_trans; [exact Hq|].
  run; quiet_leaf.
Qed.

(** ** The poll loop *)

(** No turn of the loop raises: what the [try] block raises is recorded,
    and the loop sleeps. *)
Lemma poll_cycle_returns (E : env) (cfg : config) (st : state) :
  fst (poll_cycle E cfg st) = Ok tt.
Proof.
  unfold poll_cycle, try_except. unfold bind at 1.
  by destruct (poll_try E cfg st) as [[[]|e] st1].
Qed.

Lemma zoom_poll_loop_returns (E : env) (cfg : config) (turns : nat)
    (st : state) :
  fst (zoom_poll_loop E cfg turns st) = Ok tt.
Proof.
  revert st. induction turns as [|turns IH]; intros st; [reflexivity|].
  cbn [zoom_poll_loop]. unfold bind.
  pose proof (poll_cycle_returns E cfg st) as Hturn.
  destruct (poll_cycle E cfg st) as [[[]|e] st1]; [apply IH | discriminate].
Qed.

Lemma get_meeting_transcript_not_found (E : env) (cfg : config)
    (meeting_id : str) (st st' : state) :
  _api_get E cfg (py "/meetings/" ++ meeting_id ++ py "/recordings") [] st
  = (Raise (HTTPStatusError 404), st') ->
  get_meeting_transcript E cfg meeting_id st = (Ok None, st').
Proof.
  intros Hget. unfold get_meeting_transcript.
  unfold bind at 1. unfold try_except. unfold bind at 1.
  rewrite Hget. reflexivity.
Qed.

Lemma get_meeting_transcript_raises (E : env) (cfg : config)
    (meeting_id : str) (st st' : state) (e : exn) :
  e <> HTTPStatusError 404 ->
  _api_get E cfg (py "/meetings/" ++ meeting_id ++ py "/recordings") [] st
  = (Raise e, st') ->
  get_meeting_transcript E cfg meeting_id st = (Raise e, st').
Proof.
  intros Hne Hget. unfold get_meeting_transcript.
  unfold bind at 1. unfold try_except. unfold bind at 1.
  rewrite Hget. destruct e as [| | | | | |code| | |]; try reflexivity.
  destruct (code =? 404) eqn:Hcode; [|reflexivity].
  apply Z.eqb_eq in Hcode. congruence.
Qed.

(** What [_api_get] does once the token check has returned. *)
Lemma api_get_answer (E : env) (cfg : config) url_path params
    (st st1 : state) :
  _ensure_token E cfg st = (Ok tt, st1) ->
  let sent := push (ApiGet url_path params (_access_token st1)) st1 in
  _api_get E cfg url_path params st
  = (match zoom_api_get E (length (trace st1)) url_path (_access_token st1)
     with
     | Ok resp =>
         if (200 <=? status_code resp) && (status_code resp <? 300)
         then Ok (body resp)
         else Raise (HTTPStatusError (status_code resp))
     | Raise e => Raise e
     end, sent).
Proof.
  intros Hensure sent. unfold _api_get. unfold bind at 1. rewrite Hensure.
  subst sent. run; reflexivity.
Qed.

Lemma poll_meeting_selected (E : env) (cfg : config) (processed : gset str)
    (m : meeting) :
  default [] (uuid m) <> [] ->
  default [] (uuid m) ∉ processed ->
  negb (str_truthy (default [] (uuid m)))
  || bool_decide (default [] (uuid m) ∈ processed) = false.
Proof.
  intros Hne Hnew. rewrite bool_decide_eq_false_2 by done.
  by destruct (default [] (uuid m)).
Qed.

Lemma poll_meeting_no_transcript (E : env) (cfg : config)
    (processed : gset str) (m : meeting) (st st' : state) :
  default [] (uuid m) <> [] ->
  default [] (uuid m) ∉ processed ->
  get_meeting_transcript E cfg (default [] (id m)) st = (Ok None, st') ->
  poll_meeting E cfg processed m st = (Ok false, st').
Proof.
  intros Hne Hnew Hget. unfold poll_meeting.
  rewrite (poll_meeting_selected E cfg) by done.
  unfold bind at 1. rewrite Hget. reflexivity.
Qed.

Lemma poll_meeting_fetch_raises (E : env) (cfg : config)
    (processed : gset str) (m : meeting) (st st' : state) (e : exn) :
  default [] (uuid m) <> [] ->
  default [] (uuid m) ∉ processed ->
  get_meeting_transcript E cfg (default [] (id m)) st = (Raise e, st') ->
  poll_meeting E cfg processed m st = (Raise e, st').
Proof.
  intros Hne Hnew Hget. unfold poll_meeting.
  rewrite (poll_meeting_selected E cfg) by done.
  unfold bind at 1. rewrite Hget. reflexivity.
Qed.

(** C6.  For a listed meeting that is new, once the token check has
    returned: a detail request answered with status 404 makes
    [get_meeting_transcript] return [None]; the loop then goes on to the
    next meeting without a write, the ledger and the counters being as
    before.  Any other status outside 2xx, and any failure to get an
    answer, is raised by [get_meeting_transcript] and by the loop. *)
Theorem not_found_means_no_transcript (E : env) (cfg : config)
    (processed : gset str) (m : meeting) (st st1 : state) :
  default [] (uuid m) <> [] ->
  default [] (uuid m) ∉ processed ->
  _ensure_token E cfg st = (Ok tt, st1) ->
  let meeting_id := default [] (id m) in
  let url := py "/meetings/" ++ meeting_id ++ py "/recordings" in
  let answer := zoom_api_get E (length (trace st1)) url (_access_token st1) in
  let st' := push (ApiGet url [] (_access_token st1)) st1 in
  (forall resp, answer = Ok resp -> status_code resp = 404 ->
   get_meeting_transcript E cfg meeting_id st = (Ok None, st')
   /\ quiet st st'
   /\ forall rest n,
        poll_meetings E cfg processed (m :: rest) n st
        = poll_meetings E cfg processed rest n st')
  /\ (forall e,
        ((answer = Raise e /\ e <> HTTPStatusError 404)
         \/ exists resp, answer = Ok resp
                         /\ e = HTTPStatusError (status_code resp)
                         /\ status_code resp <> 404
                         /\ ~ (200 <= status_code resp < 300)) ->
        get_meeting_transcript E cfg meeting_id st = (Raise e, st')
        /\ forall rest n,
             poll_meetings E cfg processed (m :: rest) n st = (Raise e, st')).
Proof.
  intros Hne Hnew Hensure meeting_id url answer st'.
  pose proof (api_get_answer E cfg url [] st st1 Hensure) as Hget.
  cbn zeta in Hget. fold answer st' in Hget. split.
  - intros resp Hanswer Hstatus. rewrite Hanswer, Hstatus in Hget.
    change ((200 <=? 404) && (404 <? 300)) with false in Hget.
    cbn iota in Hget.
    pose proof (get_meeting_transcript_not_found E cfg meeting_id st st' Hget)
      as Hnone.
    split; [exact Hnone|]. split.
    + pose proof (api_get_quiet E cfg url [] st) as Hq.
      by rewrite Hget in Hq.
    + intros rest n. cbn [poll_meetings]. unfold bind at 1.
      by rewrite (poll_meeting_no_transcript E cfg processed m st st').
  - intros e He.
    assert (Hraise : _api_get E cfg url [] st = (Raise e, st')
                     /\ e <> HTTPStatusError 404).
    { destruct He as [[Hanswer He]|(resp & Hanswer & -> & H404 & Hrange)];
        rewrite Hanswer in Hget.
      - split; [exact Hget | exact He].
      - rewrite Hget. split; [|congruence].
        destruct ((200 <=? status_code resp) && (status_code resp <? 300))
          eqn:Hok; [|reflexivity].
        apply andb_true_iff in Hok. lia. }
    destruct Hraise as [Hraise H404].
    pose proof (get_meeting_transcript_raises E cfg meeting_id st st' e
                  H404 Hraise) as Hprop.
    split; [exact Hprop|]. intros rest n. cbn [poll_meetings].
    unfold bind at 1.
    by rewrite (poll_meeting_fetch_raises E cfg processed m st st' e).
Qed.

Lemma not_found_means_no_transcript_witness :
  get_meeting_transcript granting cfg0 (py "42") valid
  = (Ok None,
     push (ApiGet (py "/meetings/" ++ py "42" ++ py "/recordings") []
             (py "tok"))
       (push (ClockRead (inject_Z 2000)) valid)).
Proof.
  destruct (not_found_means_no_transcript granting cfg0 {[ py "A" ]}
              meeting_B valid (push (ClockRead (inject_Z 2000)) valid))
    as [Hnot_found _].
  - vm_compute. discriminate.
  - intros Hin%elem_of_singleton. vm_compute in Hin. discriminate.
  - reflexivity.
  - apply (Hnot_found {| status_code := 404; body := no_keys |});
      reflexivity.
Defined.

(** The listing holds A and B and the ledger holds A: one cycle asks for
    the detail of B only, and as there is none it writes nothing and
    leaves B out of the ledger. *)
Example poll_cycle_asks_for_B_only :
  let st' := snd (poll_cycle listing_AB cfg0 valid) in
  trace st'
  = [GetZoomToken (py "default");
     ClockRead (inject_Z 500);
     ApiGet (py "/users/me/recordings")
       [(py "from", py "1969-12-25"); (py "page_size", py "100")] (py "old");
     GetProcessedUuids;
     ClockRead (inject_Z 500);
     ApiGet (py "/meetings/42/recordings") [] (py "old");
     Sleep 300]
  /\ zoom_processed st' = zoom_processed valid.
Proof. vm_compute. split; reflexivity. Qed.

Lemma refresh_token_spec_witness :
  exists st',
    refresh_token granting cfg0 stale = (Ok true, st')
    /\ zoom_tokens st'
       = <[py "default" := refreshed_row granting cfg0 row0 (py "r0") granted
                             (py "new") 0]> (zoom_tokens stale)
    /\ _expires_at st' = 5600.
Proof.
  destruct (refresh_token_spec granting cfg0 stale row0 (py "r0")
              {| status_code := 200; body := granted |})
    as [_ Hgranted]; [reflexivity | reflexivity | reflexivity
                     | vm_compute; discriminate | reflexivity |].
  destruct (Hgranted eq_refl (py "new") eq_refl eq_refl)
    as (st' & Hrun & Htokens & _ & Hexpiry & _).
  exists st'. split; [exact Hrun|]. split; [exact Htokens|].
  rewrite Hexpiry. reflexivity.
Defined.

(** C9.  A listed meeting whose uuid is absent or empty is passed over:
    the loop body returns at once, without a request, a write or a ledger
    row, in whatever state it runs; the loop over a listing is the loop
    over the listing without that meeting. *)
Theorem meeting_without_uuid_is_skipped (E : env) (cfg : config)
    (processed : gset str) (m : meeting) :
  uuid m = None \/ uuid m = Some [] ->
  (forall st, poll_meeting E cfg processed m st = (Ok false, st))
  /\ forall first rest n st,
       poll_meetings E cfg processed (first ++ m :: rest) n st
       = poll_meetings E cfg processed (first ++ rest) n st.
Proof.
  intros Huuid.
  assert (Hskip : forall st, poll_meeting E cfg processed m st = (Ok false, st)).
  { intros st. unfold poll_meeting. by destruct Huuid as [-> | ->]. }
  split; [exact Hskip|].
  induction first as [|m0 first IH]; intros rest n st; cbn [app poll_meetings].
  - unfold bind at 1. by rewrite Hskip.
  - unfold bind.
    destruct (poll_meeting E cfg processed m0 st) as [[counted|e] st1];
      [apply IH | reflexivity].
Qed.

Lemma meeting_without_uuid_is_skipped_witness :
  poll_meetings rejecting cfg0 {[ py "A" ]} [meeting_without_uuid] 0 stale
  = (Ok 0, stale).
Proof.
  destruct (meeting_without_uuid_is_skipped rejecting cfg0 {[ py "A" ]}
              meeting_without_uuid (or_introl eq_refl)) as [_ Hloop].
  exact (Hloop [] [] 0 stale).
Defined.

(** ** The token check before a request *)

Lemma float_gt_int_true (t : Q) (n : Z) :
  float_gt_int t n = true <-> (inject_Z n < t)%Q.
Proof.
  unfold float_gt_int. rewrite negb_true_iff, <- not_true_iff_false.
  rewrite Qle_bool_iff. split; [apply Qnot_le_lt | apply Qlt_not_le].
Qed.

Lemma float_gt_int_false (t : Q) (n : Z) :
  float_gt_int t n = false <-> (t <= inject_Z n)%Q.
Proof.
  unfold float_gt_int. rewrite negb_false_iff. apply Qle_bool_iff.
Qed.

(** After a refresh that returned true the token in memory is the one of
    the stored row. *)
Lemma refresh_token_success (E : env) (cfg : config) (st st1 : state) :
  refresh_token E cfg st = (Ok true, st1) ->
  exists row, zoom_tokens st1 !! client_user_label cfg = Some row
              /\ tok_access_token row = _access_token st1
              /\ tok_expires_at row = _expires_at st1.
Proof.
  unfold refresh_token, save_zoom_token, get_zoom_token.
  run; intros; simplify_eq; cbn; rewrite lookup_insert_eq; eauto.
Qed.

Lemma ensure_token_fresh (E : env) (cfg : config) (st : state) :
  let t := time_time E (length (trace st)) in
  float_gt_int t (_expires_at st - 60) = false ->
  _ensure_token E cfg st = (Ok tt, push (ClockRead t) st).
Proof.
  intros t Hfresh. unfold _ensure_token. unfold bind at 1.
  rewrite read_clock_run. fold t. step. cbn [_expires_at push].
  by rewrite Hfresh.
Qed.

Lemma ensure_token_due (E : env) (cfg : config) (st : state) :
  let t := time_time E (length (trace st)) in
  float_gt_int t (_expires_at st - 60) = true ->
  _ensure_token E cfg st
  = match refresh_token E cfg (push (ClockRead t) st) with
    | (Ok _, st1) => (Ok tt, st1)
    | (Raise e, st1) => (Raise e, st1)
    end.
Proof.
  intros t Hdue. unfold _ensure_token. unfold bind at 1.
  rewrite read_clock_run. fold t. step. cbn [_expires_at push].
  rewrite Hdue. by destruct (refresh_token E cfg _) as [[ok|e] st1].
Qed.

(** C4, as the code has it.  [_api_get] reads the clock once.  When the
    reading is at most [expires_at - 60] it sends the request with the
    token in memory, without a refresh.  When the reading is greater, it
    first runs [refresh_token] and, unless that raises, sends the request
    whatever the refresh returned: after a refresh that returned false
    with the credential it had, after one that returned true with the
    token that was stored. *)
Theorem api_get_checks_expiry (E : env) (cfg : config) (url_path : str)
    (params : list (str * str)) (st : state) :
  let t := time_time E (length (trace st)) in
  let checked := push (ClockRead t) st in
  let run := _api_get E cfg url_path params st in
  ((t <= inject_Z (_expires_at st - 60))%Q ->
   trace (snd run)
   = trace st ++ [ClockRead t; ApiGet url_path params (_access_token st)]
   /\ same_credential st (snd run))
  /\ ((inject_Z (_expires_at st - 60) < t)%Q ->
      match refresh_token E cfg checked with
      | (Ok refreshed, st1) =>
          trace (snd run)
          = trace st1 ++ [ApiGet url_path params (_access_token st1)]
          /\ same_credential st1 (snd run)
          /\ if refreshed
             then exists row,
                 zoom_tokens st1 !! client_user_label cfg = Some row
                 /\ tok_access_token row = _access_token st1
                 /\ tok_expires_at row = _expires_at st1
             else same_credential st st1
      | (Raise e, st1) => run = (Raise e, st1)
      end).
Proof.
  intros t checked run. subst run. split.
  - intros Hfresh%float_gt_int_false.
    rewrite (api_get_answer E cfg url_path params st checked)
      by by apply ensure_token_fresh.
    cbn. rewrite <- app_assoc. done.
  - intros Hdue%float_gt_int_true.
    pose proof (refresh_token_failure E cfg checked) as Hfail.
    pose proof (refresh_token_success E cfg checked) as Hgood.
    pose proof (ensure_token_due E cfg st Hdue) as Hensure.
    fold t checked in Hensure.
    destruct (refresh_token E cfg checked) as [[refreshed|e] st1].
    + rewrite (api_get_answer E cfg url_path params st st1 Hensure).
      cbn. split; [done|]. split; [done|].
      destruct refreshed; [by apply Hgood|]. by apply Hfail.
    + unfold _api_get. unfold bind at 1. by rewrite Hensure.
Qed.

Lemma api_get_checks_expiry_witness :
  trace (snd (_api_get granting cfg0 (py "/users/me/recordings") [] valid))
  = [ClockRead (inject_Z 2000);
     ApiGet (py "/users/me/recordings") [] (py "tok")].
Proof.
  destruct (api_get_checks_expiry granting cfg0 (py "/users/me/recordings")
              [] valid) as [Hfresh _].
  apply Hfresh. vm_compute. discriminate.
Defined.

(** C4, as stated, fails.  The token in memory expired at second 1000, it
    is second 2000 and the token endpoint rejects the refresh: the request
    is sent all the same, with the expired token. *)
Lemma expired_token_is_sent :
  let st' := snd (_api_get rejecting cfg0 (py "/users/me/recordings") []
                    stale) in
  trace st' = [ClockRead (inject_Z 2000);
               GetZoomToken (py "default");
               OAuthRefresh (py "r0");
               ApiGet (py "/users/me/recordings") [] (py "old")]
  /\ _access_token st' = py "old"
  /\ _expires_at st' = 1000
  /\ ~ (inject_Z 2000 < inject_Z (_expires_at st' - 60))%Q.
Proof.
  vm_compute. repeat split; discriminate.
Qed.

(** At the very second [expires_at - 60] no refresh is attempted. *)
Example no_refresh_on_the_boundary :
  trace (snd (_api_get rejecting cfg0 (py "/users/me/recordings") []
                (set_client (py "old") 2060 stale)))
  = [ClockRead (inject_Z 2000);
     ApiGet (py "/users/me/recordings") [] (py "old")].
Proof. reflexivity. Qed.

End ZoomSpec.

(** * Properties of the sync passes *)

Module MirrorSpec.
Import Mirror MirrorScenario.

Ltac step :=
  unfold bind, ret, raise, get, put, modify, lift_result, try_except in *;
  cbn beta iota in *.

(** ** Upload *)

Lemma upload_entries_log faults existing prefix entries count log count' log' :
  upload_entries faults existing prefix entries count log = (Ok count', log') ->
  log' = log ++ map (fun f => (f, key_of prefix f))
                  (List.filter (needs_upload existing prefix) entries)
  /\ count' = count
              + Z.of_nat (length (List.filter (needs_upload existing prefix)
                                    entries)).
Proof.
  revert count log.
  induction entries as [|f entries IH]; intros count log;
    cbn [upload_entries List.filter].
  - step. intros [= <- <-]. rewrite app_nil_r. split; [done|cbn [length]; lia].
  - unfold bind at 1. unfold upload_entry. cbn zeta.
    change (prefix ++ path_str (relative_to f)) with (key_of prefix f).
    destruct (needs_upload existing prefix f) eqn:Hneed;
      unfold needs_upload in Hneed.
    + apply andb_true_iff in Hneed as [Hfile Hnot%negb_true_iff].
      rewrite Hfile, Hnot. cbn [negb]. unfold upload_file. step.
      destruct (faults (length log)); [discriminate|].
      intros Hrest. apply IH in Hrest as [-> ->].
      rewrite <- app_assoc. split; [done|]. cbn [length]. lia.
    + destruct (is_file f); cbn [negb andb] in *.
      * apply negb_false_iff in Hneed. rewrite Hneed. step. apply IH.
      * step. apply IH.
Qed.

(** The dict [existing] of a listing without a repeated key holds
    exactly the listed keys, each with its size. *)
Lemma existing_of_lookup (pages : list page) (key : str) (n : Z) :
  NoDup (map Key (listed pages)) ->
  existing_of pages !! key = Some n
  <-> {| Key := key; Size := n |} ∈ listed pages.
Proof.
  unfold existing_of. generalize (listed pages) as objs. intros objs.
  assert (Hgen : forall (acc : gmap str Z),
             NoDup (map Key objs) ->
             (forall o, o ∈ objs -> acc !! Key o = None) ->
             fold_left (fun existing obj => <[Key obj := Size obj]> existing)
               objs acc !! key = Some n
             <-> acc !! key = Some n
                 \/ {| Key := key; Size := n |} ∈ objs).
  { induction objs as [|o objs IH]; intros acc Hnd Hfresh; cbn [fold_left].
    - split; [auto|]. intros [H|H]; [done|]. by apply elem_of_nil in H.
    - rewrite map_cons in Hnd. apply NoDup_cons in Hnd as [Hnew Hnd].
      assert (Hhead : acc !! Key o = None).
      { apply Hfresh. apply elem_of_cons. auto. }
      rewrite IH; [|done|].
      + rewrite elem_of_cons. split.
        * intros [Hacc|Hin]; [|auto].
          destruct (decide (Key o = key)) as [Heq|Hne].
          -- rewrite <- Heq, lookup_insert_eq in Hacc. right. left.
             destruct o as [k sz]. cbn in *. congruence.
          -- rewrite lookup_insert_ne in Hacc by done. auto.
        * intros [Hacc|[Heq|Hin]]; [| |auto].
          -- left. rewrite lookup_insert_ne; [done|]. intros Heq.
             rewrite <- Heq in Hacc. congruence.
          -- left. subst o. cbn. apply lookup_insert_eq.
      + intros o' Hin. rewrite lookup_insert_ne.
        * apply Hfresh. apply elem_of_cons. auto.
        * intros Heq. apply Hnew. rewrite Heq.
          apply list_elem_of_In, in_map, list_elem_of_In, Hin. }
  intros Hnd. rewrite Hgen; [|done|intros; apply lookup_empty].
  rewrite lookup_empty. split; [intros [H|H]; done | auto].
Qed.

Lemma needs_upload_iff (existing : gmap str Z) (prefix : str)
    (f : local_entry) :
  needs_upload existing prefix f = true
  <-> is_file f = true
      /\ (existing !! key_of prefix f = None
          \/ exists n, existing !! key_of prefix f = Some n /\ n <> st_size f).
Proof.
  unfold needs_upload, already_there.
  rewrite andb_true_iff, negb_true_iff.
  destruct (existing !! key_of prefix f) as [n|].
  - rewrite Z.eqb_neq. split.
    + intros [Hf Hn]. split; [done|]. right. eauto.
    + intros [Hf [Hnone|(n' & [= <-] & Hn)]]; done.
  - split; [intros [Hf _]; auto | intros [Hf _]; auto].
Qed.

(** When the listing is that of a remote store under the prefix, a
    regular file needs an upload exactly when the store does not hold its
    key with its size. *)
Lemma needs_upload_store (store : gmap str Z) (pages : list page)
    (prefix : str) (f : local_entry) :
  NoDup (map Key (listed pages)) ->
  (forall key n, {| Key := key; Size := n |} ∈ listed pages
                 <-> store !! key = Some n /\ prefix `prefix_of` key) ->
  needs_upload (existing_of pages) prefix f = true
  <-> is_file f = true /\ store !! key_of prefix f <> Some (st_size f).
Proof.
  intros Hnd Hlist. rewrite needs_upload_iff.
  assert (Hkey : forall n, existing_of pages !! key_of prefix f = Some n
                           <-> store !! key_of prefix f = Some n).
  { intros n. rewrite (existing_of_lookup pages _ n Hnd), Hlist.
    split; [by intros [Hs _] | intros Hs; split; [done|]].
    unfold key_of. by apply prefix_app_r. }
  split; intros [Hfile Hsize]; (split; [done|]).
  - destruct Hsize as [Hnone|(n & Hsome & Hne)].
    + intros Hs%Hkey. congruence.
    + apply Hkey in Hsome. congruence.
  - destruct (store !! key_of prefix f) as [n|] eqn:Hs.
    + right. exists n. split; [by apply Hkey|]. congruence.
    + left. apply eq_None_not_Some. intros [n Hn]. apply Hkey in Hn.
      congruence.
Qed.

(** ** Download *)

Section DownloadFacts.
Context {FS : Type} `{LocalDisk FS}.

Lemma wanted_iff prefix local_dir (d : FS) obj :
  wanted prefix local_dir d obj = true
  <-> relative_key prefix (Key obj) <> []
      /\ (size_of (local_path_of prefix local_dir obj) d = None
          \/ exists n, size_of (local_path_of prefix local_dir obj) d = Some n
                       /\ n <> Size obj).
Proof.
  unfold wanted, differs, same_size.
  rewrite andb_true_iff, negb_true_iff.
  assert (Hrel : str_truthy (relative_key prefix (Key obj)) = true
                 <-> relative_key prefix (Key obj) <> []).
  { by destruct (relative_key prefix (Key obj)). }
  rewrite Hrel.
  destruct (size_of (local_path_of prefix local_dir obj) d) as [n|].
  - rewrite Z.eqb_neq. split.
    + intros [Hr Hn]. split; [done|]. right. eauto.
    + intros [Hr [Hnone|(n' & [= <-] & Hn)]]; done.
  - split; [intros [Hr _]; auto | intros [Hr _]; auto].
Qed.

Lemma wanted_same_sizes prefix local_dir (d d' : FS) obj :
  size_of (local_path_of prefix local_dir obj) d
  = size_of (local_path_of prefix local_dir obj) d' ->
  wanted prefix local_dir d obj = wanted prefix local_dir d' obj.
Proof. intros Heq. unfold wanted, differs, same_size. by rewrite Heq. Qed.

(** What the loop body does, by whether the object is wanted on the
    current disk. *)
Lemma download_object_run prefix local_dir obj (s : pass) :
  download_object prefix local_dir obj s
  = if wanted prefix local_dir (disk s) obj then
      let p := local_path_of prefix local_dir obj in
      match mkdir_parents (parent p) (disk s) with
      | (Ok _, d1) =>
          match download_file (Key obj) p d1 with
          | (Ok _, d2) =>
              (Ok true, {| disk := d2; fetched := fetched s ++ [obj] |})
          | (Raise e, d2) =>
              (Raise e, {| disk := d2; fetched := fetched s |})
          end
      | (Raise e, d1) => (Raise e, {| disk := d1; fetched := fetched s |})
      end
    else (Ok false, s).
Proof.
  unfold download_object, wanted, differs, local_path_of.
  destruct (str_truthy (relative_key prefix (Key obj))); [|reflexivity].
  cbn [negb andb]. step.
  destruct (same_size _ obj (disk s)); [reflexivity|]. cbn [negb].
  unfold on_disk, log_fetch. step.
  destruct (mkdir_parents _ (disk s)) as [[[]|e] d1]; [|reflexivity].
  cbn [disk fetched].
  destruct (download_file _ _ d1) as [[[]|e] d2]; reflexivity.
Qed.

Lemma download_objects_log prefix local_dir (d0 : FS) objs count s
    count' s' :
  independent prefix local_dir objs ->
  Forall (fun obj => size_of (local_path_of prefix local_dir obj) (disk s)
                     = size_of (local_path_of prefix local_dir obj) d0)
    objs ->
  download_objects prefix local_dir objs count s = (Ok count', s') ->
  fetched s' = fetched s ++ List.filter (wanted prefix local_dir d0) objs
  /\ count' = count
              + Z.of_nat (length (List.filter (wanted prefix local_dir d0)
                                    objs)).
Proof.
  revert count s.
  induction objs as [|obj objs IH]; intros count s Hind Hsame;
    cbn [download_objects List.filter].
  - step. intros [= <- <-]. rewrite app_nil_r. split; [done|].
    cbn [length]. lia.
  - destruct Hind as [Hstep Hind].
    apply Forall_cons in Hsame as [Hhead Hsame].
    unfold bind at 1. rewrite download_object_run.
    rewrite <- (wanted_same_sizes prefix local_dir (disk s) d0 obj Hhead).
    destruct (wanted prefix local_dir (disk s) obj).
    + cbn zeta.
      destruct (mkdir_parents _ (disk s)) as [[[]|e] d1] eqn:Hmk;
        [|discriminate].
      destruct (download_file _ _ d1) as [[[]|e] d2] eqn:Hdl;
        [|discriminate].
      intros Hrest. apply IH in Hrest as [-> ->]; [|done|].
      * cbn [fetched length]. rewrite <- app_assoc. split; [done|]. lia.
      * cbn [disk]. specialize (Hstep _ _ _ Hmk Hdl).
        rewrite Forall_forall in *. intros later Hin.
        rewrite (Hstep later Hin). by apply Hsame.
    + intros Hrest. by apply IH in Hrest.
Qed.

End DownloadFacts.

(** C7, as the code has it.  An upload pass that returns has uploaded, in
    the order of the directory walk, exactly the regular files whose key
    is not in the listing with the size of the file, and returns their
    number.  A download pass that returns has fetched, in the order of the
    listing, exactly the objects that have a relative key (the key
    without the prefix and without leading slashes is not empty) and are
    absent from the local directory as it is when the pass starts, or
    there with another size, and returns their number; this for a listing
    in which the fetch of one object leaves the local paths of the later
    ones alone. *)
Theorem sync_passes_select_by_size (faults : upload_faults)
    (pages : list page) (prefix : str) (entries : list local_entry)
    (FS : Type) (D : LocalDisk FS) (local_dir : Path) (d0 d1 : FS) :
  (forall count log,
      _sync_local_to_s3_prefix faults pages prefix (Some entries) []
      = (Ok count, log) ->
      log = map (fun f => (f, key_of prefix f))
              (List.filter (needs_upload (existing_of pages) prefix) entries)
      /\ count = Z.of_nat (length log))
  /\ (forall count s',
        mkdir_parents local_dir d0 = (Ok tt, d1) ->
        independent prefix local_dir (listed pages) ->
        _sync_s3_prefix_to_local pages prefix local_dir
          {| disk := d0; fetched := [] |} = (Ok count, s') ->
        fetched s' = List.filter (wanted prefix local_dir d1) (listed pages)
        /\ count = Z.of_nat (length (fetched s'))).
Proof.
  split.
  - intros count log Hrun. cbn in Hrun.
    apply upload_entries_log in Hrun as [-> ->]. cbn [app].
    split; [done|]. rewrite length_map. lia.
  - intros count s' Hmk Hind Hrun.
    unfold _sync_s3_prefix_to_local in Hrun. unfold bind at 1 in Hrun.
    unfold on_disk in Hrun. cbn [disk fetched] in Hrun.
    rewrite Hmk in Hrun.
    apply (download_objects_log prefix local_dir d1) in Hrun as [Hlog ->];
      [| done | by apply Forall_forall].
    cbn [fetched app] in Hlog. rewrite Hlog. split; [done|]. lia.
Qed.

Lemma flat_disk_independent_ab :
  @independent _ (flat_disk remote_ab) prefix local_dir [object_a; object_b].
Proof.
  cbn [independent]. split; [|split; [intros; constructor | exact I]].
  intros d d1 d2.
  change (local_path_of prefix local_dir object_a)
    with [py "data"; py "bot"; py "a"].
  cbn [mkdir_parents download_file flat_disk].
  change (remote_ab !! Key object_a) with (Some 10).
  intros [= <-] [= <-]. constructor; [|constructor].
  change (local_path_of prefix local_dir object_b)
    with [py "data"; py "bot"; py "b"].
  cbn [size_of flat_disk].
  rewrite lookup_insert_ne by (intros Heq; vm_compute in Heq; discriminate).
  cbn [parent removelast mkdirs app].
  repeat case_match;
    rewrite ?lookup_insert_ne
      by (intros Heq; vm_compute in Heq; discriminate);
    reflexivity.
Qed.

Lemma sync_passes_select_by_size_witness :
  snd (_sync_local_to_s3_prefix no_faults [Some [object_a]] prefix
         (Some [file_a; file_b]) [])
  = [(file_b, py "bot/b")]
  /\ fetched (snd (@_sync_s3_prefix_to_local _ (flat_disk remote_ab)
                     [Some [object_a; object_b]] prefix local_dir
                     {| disk := disk_a; fetched := [] |}))
     = [object_b].
Proof.
  split.
  - destruct (sync_passes_select_by_size no_faults [Some [object_a]] prefix
                [file_a; file_b] _ (flat_disk remote_ab) local_dir
                disk_a disk_a) as [Hupload _].
    destruct (Hupload 1 [(file_b, py "bot/b")]) as [_ _];
      [vm_compute; reflexivity|].
    vm_compute. reflexivity.
  - destruct (sync_passes_select_by_size no_faults
                [Some [object_a; object_b]] prefix [] _
                (flat_disk remote_ab) local_dir disk_a disk_a)
      as [_ Hdownload].
    set (run := @_sync_s3_prefix_to_local _ (flat_disk remote_ab)
                  [Some [object_a; object_b]] prefix local_dir
                  {| disk := disk_a; fetched := [] |}).
    destruct (Hdownload 1 (snd run)) as [Hfetched _].
    + vm_compute. reflexivity.
    + exact flat_disk_independent_ab.
    + vm_compute. reflexivity.
    + rewrite Hfetched. vm_compute. reflexivity.
Defined.

(** C7, as stated, fails.  The listing holds the folder marker [bot/] next
    to [bot/a] and [bot/b], and the local directory holds [a] with the
    listed size: the marker and [b] both differ from what is on disk, and
    the pass fetches [b] only. *)
Lemma folder_marker_is_not_fetched :
  let objs := [marker; object_a; object_b] in
  let run := @_sync_s3_prefix_to_local _ (flat_disk remote_marked)
               [Some objs] prefix local_dir
               {| disk := disk_a; fetched := [] |} in
  fst run = Ok 1
  /\ fetched (snd run) = [object_b]
  /\ List.filter (@differs _ (flat_disk remote_marked) prefix local_dir disk_a)
       objs = [marker; object_b].
Proof.
  vm_compute. repeat split.
Qed.

End MirrorSpec.

(** * Further properties of [_sanitize_filename] *)

Module SanitizeMore.
Import Sanitize SanitizeSpec.

Lemma sub_reserved_id s : Forall unreserved s -> sub_reserved s = s.
Proof.
  unfold sub_reserved, unreserved.
  induction 1 as [|c s Hc _ IH]; cbn; [done|]. by rewrite Hc, IH.
Qed.

Lemma lstrip_id s : Forall (fun c => isspace c = false) s -> lstrip s = s.
Proof. destruct 1 as [|c s Hc _]; cbn; [done|]. by rewrite Hc. Qed.

Lemma strip_id s : Forall (fun c => isspace c = false) s -> strip s = s.
Proof.
  intros Hs. unfold strip, rstrip. rewrite (lstrip_id s Hs).
  rewrite lstrip_id by by apply Forall_rev. apply rev_involutive.
Qed.

Lemma sub_whitespace_from_id in_run s :
  Forall (fun c => isspace c = false) s -> sub_whitespace_from in_run s = s.
Proof.
  intros Hs. revert in_run.
  induction Hs as [|c s Hc _ IH]; intros in_run; cbn; [done|].
  by rewrite Hc, IH.
Qed.

Lemma clean_parts s :
  Forall clean s ->
  Forall unreserved s /\ Forall (fun c => isspace c = false) s.
Proof.
  intros Hs. split; eapply Forall_impl; eauto; by intros c [].
Qed.

Lemma sanitize_filename_of_clean name :
  name <> [] -> (length name <= 100)%nat -> Forall clean name ->
  _sanitize_filename name = name.
Proof.
  intros Hne Hlen [Hr Hs]%clean_parts. unfold _sanitize_filename.
  rewrite (sub_reserved_id _ Hr), (strip_id _ Hs).
  unfold sub_whitespace. rewrite (sub_whitespace_from_id _ _ Hs).
  rewrite firstn_all2 by done. by destruct name.
Qed.

Lemma sanitize_filename_clean name :
  _sanitize_filename name <> []
  /\ (length (_sanitize_filename name) <= 100)%nat
  /\ Forall clean (_sanitize_filename name).
Proof.
  unfold _sanitize_filename.
  set (body := sub_whitespace (strip (sub_reserved name))).
  assert (Hbody : Forall clean body).
  { apply sub_whitespace_clean, strip_Forall, sub_reserved_unreserved. }
  assert (Hlen : (length (firstn 100 body) <= 100)%nat).
  { rewrite length_take. lia. }
  assert (Hcut : Forall clean (firstn 100 body)) by by apply Forall_take.
  repeat split.
  - by destruct (firstn 100 body).
  - destruct (firstn 100 body); [by apply Nat.leb_le | done].
  - destruct (firstn 100 body); [apply untitled_clean | done].
Qed.

(** X7.  A topic that is already a safe directory name, that is, not
    empty, at most 100 characters long, and without reserved or
    whitespace characters, is returned as it is. *)
Theorem sanitize_filename_keeps_safe_names (name : str) :
  name <> [] ->
  (length name <= 100)%nat ->
  Forall clean name ->
  _sanitize_filename name = name.
Proof.
  intros Hne Hlen Hclean.
  destruct (clean_parts name Hclean) as [Hreserved Hspace].
  unfold _sanitize_filename, sub_whitespace.
  rewrite (sub_reserved_id name Hreserved), (strip_id name Hspace).
  rewrite (sub_whitespace_from_id false name Hspace).
  rewrite firstn_all2 by exact Hlen.
  destruct name; [contradiction | reflexivity].
Qed.

Lemma sanitize_filename_keeps_safe_names_witness :
  _sanitize_filename (py "Weekly-sync_2026") = py "Weekly-sync_2026".
Proof.
  apply (sanitize_filename_keeps_safe_names (py "Weekly-sync_2026")).
  - discriminate.
  - apply Nat.leb_le. reflexivity.
  - repeat constructor.
Defined.

(** X8.  Sanitizing twice gives what sanitizing once gives: the name of
    an artifact directory is a fixed point of [_sanitize_filename]. *)
Theorem sanitize_filename_idempotent (name : str) :
  _sanitize_filename (_sanitize_filename name) = _sanitize_filename name.
Proof.
  destruct (sanitize_filename_clean name) as (Hne & Hlen & Hclean).
  by apply sanitize_filename_of_clean.
Qed.

End SanitizeMore.

(** * Further properties of the watcher *)

Module WatcherMore.
Import Watcher WatcherScenario WatcherTerms WatcherSpec.

(** ** The order of a scan *)

Lemma str_compare_refl a : str_compare a a = Eq.
Proof. induction a as [|x a IH]; cbn; [done|]. by rewrite N.compare_refl. Qed.

Lemma str_compare_eq a b : str_compare a b = Eq -> a = b.
Proof.
  revert b. induction a as [|x a IH]; intros [|y b]; cbn; try done.
  destruct (N.compare_spec x y) as [->|Hlt|Hgt]; try done.
  intros Heq. f_equal. by apply IH.
Qed.

Lemma str_compare_antisym a b : str_compare b a = CompOpp (str_compare a b).
Proof.
  revert b. induction a as [|x a IH]; intros [|y b]; cbn; try done.
  rewrite (N.compare_antisym x y).
  destruct (x ?= y)%N; cbn; [apply IH | done | done].
Qed.

Lemma str_compare_lt_trans a b c :
  str_compare a b = Lt -> str_compare b c = Lt -> str_compare a c = Lt.
Proof.
  revert b c. induction a as [|x a IH]; intros [|y b] [|z c]; cbn; try done.
  destruct (N.compare_spec x y) as [->|Hxy|Hxy]; try done.
  - destruct (N.compare_spec y z) as [->|Hyz|Hyz]; try done. apply IH.
  - destruct (N.compare_spec y z) as [->|Hyz|Hyz]; try done.
    + intros _ _. destruct (N.compare_spec x z); [lia | done | lia].
    + intros _ _. destruct (N.compare_spec x z); [lia | done | lia].
Qed.

Lemma parts_ltb_asym a b : parts_ltb a b = true -> parts_ltb b a = false.
Proof.
  revert b. induction a as [|x a IH]; intros [|y b]; cbn; try done.
  rewrite (str_compare_antisym x y).
  destruct (str_compare x y); cbn; [apply IH | done | done].
Qed.

Lemma parts_ltb_trans a b c :
  parts_ltb a b = true -> parts_ltb b c = true -> parts_ltb a c = true.
Proof.
  revert b c. induction a as [|x a IH]; intros [|y b] [|z c]; cbn; try done.
  destruct (str_compare x y) eqn:Hxy; try done.
  - apply str_compare_eq in Hxy as ->.
    destruct (str_compare y z); [apply IH | done | done].
  - destruct (str_compare y z) eqn:Hyz; try done.
    + apply str_compare_eq in Hyz as ->. by rewrite Hxy.
    + by rewrite (str_compare_lt_trans x y z).
Qed.

Lemma insert_sorted_perm x l : Permutation (insert_sorted x l) (x :: l).
Proof.
  induction l as [|y l IH]; cbn; [done|].
  destruct (entry_ltb x y); [done|]. rewrite IH. apply perm_swap.
Qed.

Lemma sorted_perm l : Permutation (sorted l) l.
Proof.
  unfold sorted.
  assert (Hgen : forall acc,
             Permutation (fold_left (fun acc x => insert_sorted x acc) l acc)
               (acc ++ l)).
  { induction l as [|x l IH]; intros acc; cbn.
    - by rewrite app_nil_r.
    - rewrite IH, insert_sorted_perm. apply Permutation_middle. }
  apply (Hgen []).
Qed.

Lemma insert_sorted_ascending x l :
  StronglySorted not_after l -> StronglySorted not_after (insert_sorted x l).
Proof.
  induction 1 as [|y l Hl IH Hy]; cbn.
  - repeat constructor.
  - destruct (entry_ltb x y) eqn:Hxy.
    + constructor; [by constructor|]. constructor.
      * unfold not_after, entry_ltb in *. by apply parts_ltb_asym.
      * rewrite Forall_forall in *. intros z Hz. specialize (Hy z Hz).
        unfold not_after, entry_ltb in *.
        destruct (parts_ltb (path_parts (entry_path z))
                    (path_parts (entry_path x))) eqn:Hzx; [|done].
        by rewrite (parts_ltb_trans _ _ _ Hzx Hxy) in Hy.
    + constructor; [exact IH|].
      rewrite (insert_sorted_perm x l). by constructor.
Qed.

Lemma sorted_ascending l : StronglySorted not_after (sorted l).
Proof.
  unfold sorted.
  assert (Hgen : forall acc,
             StronglySorted not_after acc ->
             StronglySorted not_after
               (fold_left (fun acc x => insert_sorted x acc) l acc)).
  { induction l as [|x l IH]; intros acc Hacc; cbn; [done|].
    by apply IH, insert_sorted_ascending. }
  apply Hgen. constructor.
Qed.

Lemma filter_ascending (f : dir_entry -> bool) l :
  StronglySorted not_after l -> StronglySorted not_after (List.filter f l).
Proof.
  induction 1 as [|y l Hl IH Hy]; cbn; [constructor|].
  destruct (f y); [|exact IH]. constructor; [exact IH|].
  rewrite Forall_forall in *. intros z Hz%list_elem_of_In%filter_In.
  apply Hy, list_elem_of_In, Hz.
Qed.

(** X1.  With a ledger that is a mapping, a scan of an inbox that exists
    returns, as their resolved paths and in the ascending order of their
    paths, exactly the entries that are regular files with a supported
    suffix and whose resolved path has no ledger entry; a scan of an
    inbox that does not exist returns no path.  The scan changes
    nothing. *)
Theorem find_new_files_lists_unseen (w : world) (fields : gmap str json)
    (entries : list dir_entry) :
  has_ledger fields w ->
  find_new_files None w = (Ok [], w)
  /\ exists candidates,
       find_new_files (Some entries) w = (Ok (map resolve candidates), w)
       /\ StronglySorted not_after candidates
       /\ forall e, e ∈ candidates
                    <-> e ∈ entries /\ is_candidate e = true
                        /\ fields !! resolve e = None.
Proof.
  intros Hledger. split; [reflexivity|].
  exists (List.filter
            (fun e => is_candidate e
                      && negb (bool_decide (is_Some (fields !! resolve e))))
            (sorted entries)).
  split; [|split].
  - cbn. by rewrite (scan_entries_dict w fields).
  - apply filter_ascending, sorted_ascending.
  - intros e. rewrite list_elem_of_In, filter_In, <- list_elem_of_In.
    rewrite (sorted_perm entries), andb_true_iff, negb_true_iff.
    rewrite bool_decide_eq_false, <- eq_None_not_Some. tauto.
Qed.

Lemma find_new_files_lists_unseen_witness :
  exists candidates,
    find_new_files (Some [clip_entry]) fresh_world
    = (Ok (map resolve candidates), fresh_world)
    /\ StronglySorted not_after candidates
    /\ forall e, e ∈ candidates
                 <-> e ∈ [clip_entry] /\ is_candidate e = true
                     /\ (∅ : gmap str json) !! resolve e = None.
Proof.
  apply (find_new_files_lists_unseen fresh_world ∅ [clip_entry]).
  reflexivity.
Defined.

(** ** What the loop does to the ledger *)

(** [mark_processed] on a mapping: the entry is in the tracker whether or
    not the write that follows succeeds. *)
Lemma mark_processed_any strftime p s (w w' : world) fields r :
  has_ledger fields w ->
  mark_processed strftime p s w = (r, w') ->
  has_ledger (<[p := ledger_entry (strftime (clock w)) s]> fields) w'
  /\ invoked w' = invoked w
  /\ path (tracker w') = path (tracker w)
  /\ (write_fault (store w) = None ->
      r = Ok tt /\ write_fault (store w') = None
      /\ content (store w') = Readable (JsonText (processed (tracker w')))).
Proof.
  unfold has_ledger. intros Hp. unfold mark_processed, _save, write_text.
  step. rewrite Hp. cbn.
  destruct (write_fault (store w)) as [[e after]|]; cbn;
    intros [= <- <-]; cbn; repeat split; done.
Qed.

(** The loop body keeps the ledger a mapping, keeps its other entries,
    and hands the file to the processor at most once, in which case the
    file has an entry afterwards, also when the body raises. *)
Lemma handle_file_effect (E : env) (p : str) (w w' : world) fields r :
  has_ledger fields w ->
  handle_file E p w = (r, w') ->
  exists fields',
    has_ledger fields' w'
    /\ (forall j, j <> p -> fields' !! j = fields !! j)
    /\ (is_Some (fields !! p) -> is_Some (fields' !! p))
    /\ path (tracker w') = path (tracker w)
    /\ ((invoked w' = invoked w /\ fields' = fields /\ store w' = store w)
        \/ (invoked w' = invoked w ++ [p] /\ is_Some (fields' !! p))).
Proof.
  intros Hp. unfold handle_file. unfold bind at 1.
  destruct (is_file_stable E p STABLE_WAIT w) as [[stable|e] w1] eqn:Hs;
    apply is_file_stable_frame in Hs as (Ht & Hst & Hinv).
  2:{ intros [= <- <-]. exists fields. unfold has_ledger in *.
      rewrite Ht, Hinv, Hst. repeat split; auto. }
  destruct stable; cbn [negb].
  2:{ intros [= <- <-]. exists fields. unfold has_ledger in *.
      rewrite Ht, Hinv, Hst. repeat split; auto. }
  assert (Hp1 : has_ledger fields (record_invocation p w1)).
  { unfold has_ledger in *. cbn. by rewrite Ht. }
  unfold try_except. unfold bind at 1. rewrite process_file_run.
  destruct (process_single_file E (clock w1) p) as [success|e].
  - destruct (mark_processed (strftime E) p success (record_invocation p w1))
      as [[[]|e] w2] eqn:Hm1;
      apply (mark_processed_any _ _ _ _ _ fields) in Hm1
        as (Hl2 & Hi2 & Hpa2 & _); try exact Hp1.
    + intros [= <- <-]. eexists. split; [exact Hl2|].
      cbn in Hi2. rewrite Hi2, Hinv, Hpa2. cbn. rewrite Ht.
      repeat split.
      * intros j Hj. by rewrite lookup_insert_ne.
      * intros _. rewrite lookup_insert_eq. eauto.
      * right. split; [done|]. rewrite lookup_insert_eq. eauto.
    + intros Hm2.
      apply (mark_processed_any _ _ _ _ _ _ _ Hl2) in Hm2
        as (Hl3 & Hi3 & Hpa3 & _).
      eexists. split; [exact Hl3|].
      cbn in Hi2. rewrite Hi3, Hi2, Hinv, Hpa3, Hpa2. cbn. rewrite Ht.
      repeat split.
      * intros j Hj. by rewrite !lookup_insert_ne.
      * intros _. rewrite lookup_insert_eq. eauto.
      * right. split; [done|]. rewrite lookup_insert_eq. eauto.
  - intros Hm.
    apply (mark_processed_any _ _ _ _ _ _ _ Hp1) in Hm
      as (Hl2 & Hi2 & Hpa2 & _).
    eexists. split; [exact Hl2|].
    cbn in Hi2. rewrite Hi2, Hinv, Hpa2. cbn. rewrite Ht.
    repeat split.
    + intros j Hj. by rewrite lookup_insert_ne.
    + intros _. rewrite lookup_insert_eq. eauto.
    + right. split; [done|]. rewrite lookup_insert_eq. eauto.
Qed.

(** The [for] loop over the candidates: the ledger stays a mapping and
    loses no key, and the files handed to the processor are some of the
    candidates, in their order, each with an entry afterwards. *)
Lemma for_each_handle_effect (E : env) (l : list str) (w w' : world)
    fields r :
  has_ledger fields w ->
  for_each l (handle_file E) w = (r, w') ->
  exists fields' handed,
    has_ledger fields' w'
    /\ (forall j, is_Some (fields !! j) -> is_Some (fields' !! j))
    /\ (forall j, j ∉ l -> fields' !! j = fields !! j)
    /\ invoked w' = invoked w ++ handed
    /\ handed `sublist_of` l
    /\ (forall p, p ∈ handed -> is_Some (fields' !! p))
    /\ path (tracker w') = path (tracker w).
Proof.
  revert w fields. induction l as [|p l IH]; intros w fields Hp; cbn.
  - step. intros [= <- <-]. exists fields, []. rewrite app_nil_r.
    repeat split; auto. intros q Hq. by apply elem_of_nil in Hq.
  - unfold bind at 1.
    destruct (handle_file E p w) as [[[]|e] w1] eqn:Hh;
      apply (handle_file_effect E p w w1 fields) in Hh
        as (fields1 & Hp1 & Hother & Hkeep & Hpath & Hcase); try exact Hp.
    + intros Hrest.
      apply (IH w1 fields1 Hp1) in Hrest
        as (fields' & handed & Hp' & Hkeys & Hout & Hinv & Hsub & Hin & Hpa).
      assert (Hmono : forall j, is_Some (fields !! j) -> is_Some (fields1 !! j)).
      { intros j Hj. destruct (decide (j = p)) as [->|Hne]; [auto|].
        by rewrite Hother. }
      destruct Hcase as [(Hi & _ & _)|(Hi & Hsome)].
      * exists fields', handed. rewrite Hinv, Hi, Hpa, Hpath.
        repeat split; auto.
        -- intros j Hj. rewrite Hout.
           ++ apply Hother. intros ->. apply Hj. left.
           ++ intros Hl. apply Hj. by right.
        -- by apply sublist_cons.
      * exists fields', (p :: handed). rewrite Hinv, Hi, <- app_assoc, Hpa, Hpath.
        repeat split; auto.
        -- intros j Hj. rewrite Hout.
           ++ apply Hother. intros ->. apply Hj. left.
           ++ intros Hl. apply Hj. by right.
        -- by apply sublist_skip.
        -- intros q [->|Hq]%elem_of_cons; auto.
    + intros [= <- <-].
      destruct Hcase as [(Hi & -> & _)|(Hi & Hsome)].
      * exists fields, []. rewrite Hi, app_nil_r, Hpath.
        repeat split; auto.
        -- apply sublist_nil_l.
        -- intros q Hq. by apply elem_of_nil in Hq.
      * exists fields1, [p]. rewrite Hi, Hpath. repeat split; auto.
        -- intros j Hj. destruct (decide (j = p)) as [->|Hne]; [auto|].
           by rewrite Hother.
        -- intros j Hj. apply Hother. intros ->. apply Hj. left.
        -- apply sublist_skip, sublist_nil_l.
        -- intros q ->%list_elem_of_singleton. done.
Qed.

Lemma unseen_NoDup fields entries :
  NoDup (map resolve entries) -> NoDup (unseen fields (sorted entries)).
Proof.
  intros Hnd. unfold unseen.
  assert (Hs : NoDup (map resolve (sorted entries))).
  { by rewrite (sorted_perm entries). }
  revert Hs. generalize (sorted entries) as l.
  induction l as [|e l IH]; cbn; [constructor|].
  intros [Hnew Hl]%NoDup_cons.
  destruct (_ && _); [|by apply IH]. cbn. apply NoDup_cons. split; [|by apply IH].
  intros (e' & Heq & Hin%list_elem_of_In%filter_In)%list_elem_of_fmap.
  apply Hnew. rewrite Heq. apply list_elem_of_fmap. exists e'.
  split; [done|]. apply list_elem_of_In, Hin.
Qed.

(** One turn of the loop: see [for_each_handle_effect]; the candidates are
    the unseen files of the scan. *)
Lemma watch_cycle_effect (E : env) (w w' : world) fields r :
  has_ledger fields w ->
  watch_cycle E w = (r, w') ->
  exists fields' handed,
    has_ledger fields' w'
    /\ (forall j, is_Some (fields !! j) -> is_Some (fields' !! j))
    /\ invoked w' = invoked w ++ handed
    /\ (forall p, p ∈ handed -> fields !! p = None /\ is_Some (fields' !! p))
    /\ (distinct_files E -> NoDup handed)
    /\ path (tracker w') = path (tracker w).
Proof.
  intros Hp. unfold watch_cycle. step.
  destruct (find_new_files_dict w fields (inbox_at E (clock w)) Hp)
    as (files & Hscan & Hnew).
  rewrite Hscan.
  assert (Hnd : distinct_files E -> NoDup files).
  { intros Hd. destruct (inbox_at E (clock w)) as [entries|] eqn:Hin.
    - cbn in Hscan. rewrite (scan_entries_dict w fields) in Hscan by done.
      injection Hscan as <-. cbn. by apply unseen_NoDup, (Hd (clock w)).
    - injection Hscan as <-. constructor. }
  destruct (for_each files (handle_file E) w) as [[[]|e] w1] eqn:Hloop;
    apply (for_each_handle_effect E files w w1 fields) in Hloop
      as (fields' & handed & Hp' & Hkeys & _ & Hinv & Hsub & Hin & Hpa);
    try exact Hp.
  - change (POLL_INTERVAL <? 0) with false.
    change (SLEEP_MAX <? POLL_INTERVAL) with false. cbn iota.
    destruct (sleep_fault E (clock w1) POLL_INTERVAL);
      intros [= <- <-]; exists fields', handed; cbn;
      repeat split; auto;
      solve [ apply Hnew; by eapply elem_of_sublist
            | intros Hd; eapply sublist_NoDup; [apply Hnd, Hd | exact Hsub] ].
  - intros [= <- <-]. exists fields', handed.
    repeat split; auto.
    + apply Hnew. by eapply elem_of_sublist.
    + intros Hd. eapply sublist_NoDup; [apply Hnd, Hd | exact Hsub].
Qed.

(** X2.  In one turn of the watch loop, whether it returns or raises, the
    files handed to the processor all had no ledger entry when the turn
    began and all have one when it ends; the ledger is still a mapping
    and has lost no entry. *)
Theorem watch_cycle_hands_unseen_only (E : env) (w : world)
    (fields : gmap str json) :
  has_ledger fields w ->
  exists fields' handed,
    has_ledger fields' (snd (watch_cycle E w))
    /\ invoked (snd (watch_cycle E w)) = invoked w ++ handed
    /\ (forall p, p ∈ handed -> fields !! p = None /\ is_Some (fields' !! p))
    /\ (forall j, is_Some (fields !! j) -> is_Some (fields' !! j)).
Proof.
  intros Hp. destruct (watch_cycle E w) as [r w'] eqn:Hrun.
  apply (watch_cycle_effect E w w' fields) in Hrun
    as (fields' & handed & Hp' & Hkeys & Hinv & Hin & _ & _); [|done].
  exists fields', handed. auto.
Qed.

Lemma watch_cycle_hands_unseen_only_witness :
  (exists fields' handed,
      has_ledger fields' (snd (watch_cycle failing_processor fresh_world))
      /\ invoked (snd (watch_cycle failing_processor fresh_world))
         = invoked fresh_world ++ handed
      /\ (forall p, p ∈ handed ->
          (∅ : gmap str json) !! p = None /\ is_Some (fields' !! p))
      /\ (forall j, is_Some ((∅ : gmap str json) !! j) ->
          is_Some (fields' !! j)))
  /\ invoked (snd (watch_cycle failing_processor fresh_world)) = [clip].
Proof.
  split.
  - apply (watch_cycle_hands_unseen_only failing_processor fresh_world ∅).
    reflexivity.
  - vm_compute. reflexivity.
Defined.

Lemma watch_cycle_once_each (E : env) (w : world) :
  distinct_files E -> once_each w -> once_each (snd (watch_cycle E w)).
Proof.
  intros Hd (Hnd & fields & Hp & Hall).
  destruct (watch_cycle E w) as [r w'] eqn:Hrun.
  apply (watch_cycle_effect E w w' fields) in Hrun
    as (fields' & handed & Hp' & Hkeys & Hinv & Hin & Hnd' & _); [|done].
  cbn. split.
  - rewrite Hinv. apply NoDup_app. split; [done|]. split; [|auto].
    intros p Hp1 Hp2. apply Hall in Hp1 as [v Hv].
    apply Hin in Hp2 as [Hnone _]. congruence.
  - exists fields'. split; [done|]. intros p. rewrite Hinv, elem_of_app.
    intros [Hold|Hnew]; [apply Hkeys, Hall, Hold | by apply Hin].
Qed.

(** X3.  When no two entries of a scan resolve to the same path, the
    watch loop hands no path to the processor twice, over any number of
    turns and whatever the processor and the file system do: as long as
    every path handed over before has its ledger entry, this stays so. *)
Theorem run_watcher_at_most_once (E : env) (turns : nat) (w : world) :
  distinct_files E ->
  once_each w ->
  once_each (snd (run_watcher E turns w)).
Proof.
  intros Hd. revert w. induction turns as [|turns IH]; intros w Hw; [done|].
  cbn [run_watcher]. unfold bind.
  pose proof (watch_cycle_once_each E w Hd Hw) as Hturn.
  destruct (watch_cycle E w) as [[[]|e] w1]; cbn in Hturn; [|done].
  by apply IH.
Qed.


Lemma run_watcher_at_most_once_witness :
  once_each (snd (run_watcher failing_processor 3 fresh_world)).
Proof.
  apply (run_watcher_at_most_once failing_processor 3 fresh_world).
  - intros t entries [= <-]. cbn. apply NoDup_singleton.
  - split; [constructor|]. exists ∅. split; [reflexivity|].
    intros p Hp. by apply elem_of_nil in Hp.
Defined.

(** ** The ledger and the tracker file *)

Lemma in_sync_restart (w : world) : in_sync w <-> restart_agrees w.
Proof.
  destruct w as [c o [pa pr] [co wf] inv].
  unfold in_sync, restart_agrees. cbn. split.
  - intros Hsync tracker_path [c0 o0 t0 st0 inv0] Hst. cbn in Hst.
    subst st0. unfold __init__, _load, path_exists, read_text. step. cbn.
    destruct co as [|e|e| |[| | |value]]; cbn; try done; subst; eauto.
  - intros Hrestart.
    destruct (Hrestart []
                {| clock := c; observed := o;
                   tracker := {| path := pa; processed := pr |};
                   store := {| content := co; write_fault := wf |};
                   invoked := inv |} eq_refl) as (w' & Hrun & Hp).
    revert Hrun Hp. unfold __init__, _load, path_exists, read_text. step.
    cbn. destruct co as [|e|e| |[| | |value]]; cbn;
      intros [= <-]; cbn; done.
Qed.

Lemma handle_file_durable (E : env) (p : str) (w w' : world) fields r :
  has_ledger fields w -> writable w -> in_sync w ->
  handle_file E p w = (r, w') ->
  writable w' /\ in_sync w'.
Proof.
  unfold writable. intros Hp Hw Hs. unfold handle_file. unfold bind at 1.
  destruct (is_file_stable E p STABLE_WAIT w) as [[stable|e] w1] eqn:Hst;
    apply is_file_stable_frame in Hst as (Ht & Hsto & Hinv).
  2:{ intros [= <- <-]. unfold in_sync in *. by rewrite Ht, Hsto. }
  destruct stable; cbn [negb].
  2:{ intros [= <- <-]. unfold in_sync in *. by rewrite Ht, Hsto. }
  assert (Hp1 : has_ledger fields (record_invocation p w1)).
  { unfold has_ledger in *. cbn. by rewrite Ht. }
  assert (Hw1 : write_fault (store (record_invocation p w1)) = None).
  { cbn. by rewrite Hsto. }
  unfold try_except. unfold bind at 1. rewrite process_file_run.
  destruct (process_single_file E (clock w1) p) as [success|e].
  - destruct (mark_processed (strftime E) p success (record_invocation p w1))
      as [r1 w2] eqn:Hm1.
    apply (mark_processed_any _ _ _ _ _ fields) in Hm1
      as (_ & _ & _ & Hok); [|exact Hp1].
    destruct (Hok Hw1) as (-> & Hw2 & Hc2). intros [= <- <-].
    split; [done|]. unfold in_sync. by rewrite Hc2.
  - intros Hm.
    apply (mark_processed_any _ _ _ _ _ fields) in Hm
      as (_ & _ & _ & Hok); [|exact Hp1].
    destruct (Hok Hw1) as (-> & Hw2 & Hc2).
    split; [done|]. unfold in_sync. by rewrite Hc2.
Qed.

Lemma for_each_handle_durable (E : env) (l : list str) (w w' : world)
    fields r :
  has_ledger fields w -> writable w -> in_sync w ->
  for_each l (handle_file E) w = (r, w') ->
  writable w' /\ in_sync w'.
Proof.
  revert w fields. induction l as [|p l IH]; intros w fields Hp Hw Hs; cbn.
  - step. by intros [= <- <-].
  - unfold bind at 1.
    destruct (handle_file E p w) as [[[]|e] w1] eqn:Hh.
    + destruct (handle_file_effect E p w w1 fields _ Hp Hh)
        as (fields1 & Hp1 & _).
      destruct (handle_file_durable E p w w1 fields _ Hp Hw Hs Hh)
        as (Hw1 & Hs1).
      by apply (IH w1 fields1).
    + intros [= <- <-].
      by apply (handle_file_durable E p w w1 fields _ Hp Hw Hs Hh).
Qed.

Lemma watch_cycle_durable (E : env) (w w' : world) fields r :
  has_ledger fields w -> writable w -> in_sync w ->
  watch_cycle E w = (r, w') ->
  writable w' /\ in_sync w'.
Proof.
  intros Hp Hw Hs. unfold watch_cycle. step.
  destruct (find_new_files_dict w fields (inbox_at E (clock w)) Hp)
    as (files & Hscan & _).
  rewrite Hscan.
  destruct (for_each files (handle_file E) w) as [[[]|e] w1] eqn:Hloop;
    apply (for_each_handle_durable E files w w1 fields) in Hloop
      as (Hw1 & Hs1); try done.
  - change (POLL_INTERVAL <? 0) with false.
    change (SLEEP_MAX <? POLL_INTERVAL) with false. cbn iota.
    destruct (sleep_fault E (clock w1) POLL_INTERVAL); by intros [= <- <-].
  - by intros [= <- <-].
Qed.

(** X4.  While the tracker file accepts writes, the watch loop keeps the
    file and the ledger in memory in step: if a tracker constructed anew
    over the file would hold the ledger before the loop runs, it would
    hold the ledger after any number of turns, whether the loop returned
    or raised; a restart loses no entry. *)
Theorem run_watcher_keeps_ledger_on_disk (E : env) (turns : nat) (w : world)
    (fields : gmap str json) :
  has_ledger fields w ->
  writable w ->
  restart_agrees w ->
  writable (snd (run_watcher E turns w))
  /\ restart_agrees (snd (run_watcher E turns w)).
Proof.
  intros Hp Hw Hs%in_sync_restart. rewrite <- in_sync_restart.
  revert w fields Hp Hw Hs.
  induction turns as [|turns IH]; intros w fields Hp Hw Hs; [done|].
  cbn [run_watcher]. unfold bind.
  destruct (watch_cycle E w) as [[[]|e] w1] eqn:Hturn.
  - destruct (watch_cycle_effect E w w1 fields _ Hp Hturn)
      as (fields1 & _ & Hp1 & _).
    destruct (watch_cycle_durable E w w1 fields _ Hp Hw Hs Hturn).
    by apply (IH w1 fields1).
  - by apply (watch_cycle_durable E w w1 fields _ Hp Hw Hs Hturn).
Qed.

Lemma run_watcher_keeps_ledger_on_disk_witness :
  writable (snd (run_watcher failing_processor 3 fresh_world))
  /\ restart_agrees (snd (run_watcher failing_processor 3 fresh_world)).
Proof.
  apply (run_watcher_keeps_ledger_on_disk failing_processor 3 fresh_world ∅).
  - reflexivity.
  - reflexivity.
  - apply in_sync_restart. reflexivity.
Defined.

(** X5.  For a file the probe finds stable, with a ledger that is a
    mapping and a tracker file that accepts writes, the loop body hands
    the file to the processor once and returns; the ledger then holds,
    for that file, the value the processor returned, or false when the
    processor raised, and the tracker file holds the whole ledger. *)
Theorem handle_file_records_outcome (E : env) (p : str) (w w1 : world)
    (fields : gmap str json) :
  has_ledger fields w ->
  writable w ->
  is_file_stable E p STABLE_WAIT w = (Ok true, w1) ->
  exists w2 entry,
    handle_file E p w = (Ok tt, w2)
    /\ has_ledger (<[p := entry]> fields) w2
    /\ recorded_success entry
       = Some (outcome (process_single_file E (clock w1) p))
    /\ invoked w2 = invoked w ++ [p]
    /\ content (store w2) = Readable (JsonText (processed (tracker w2))).
Proof.
  unfold writable. intros Hp Hw Hst. unfold handle_file. unfold bind at 1.
  rewrite Hst. cbn [negb].
  apply is_file_stable_frame in Hst as (Ht & Hsto & Hinv).
  assert (Hp1 : has_ledger fields (record_invocation p w1)).
  { unfold has_ledger in *. cbn. by rewrite Ht. }
  assert (Hw1 : write_fault (store (record_invocation p w1)) = None).
  { cbn. by rewrite Hsto. }
  unfold try_except. unfold bind at 1. rewrite process_file_run.
  destruct (process_single_file E (clock w1) p) as [success|e]; cbn [outcome].
  - destruct (mark_processed (strftime E) p success (record_invocation p w1))
      as [r1 w2] eqn:Hm1.
    apply (mark_processed_any _ _ _ _ _ fields) in Hm1
      as (Hl & Hi & _ & Hok); [|exact Hp1].
    destruct (Hok Hw1) as (-> & _ & Hc2).
    exists w2, (ledger_entry (strftime E (clock w1)) success).
    cbn in Hi. rewrite Hi, Hinv. repeat split; done.
  - destruct (mark_processed (strftime E) p false (record_invocation p w1))
      as [r1 w2] eqn:Hm1.
    apply (mark_processed_any _ _ _ _ _ fields) in Hm1
      as (Hl & Hi & _ & Hok); [|exact Hp1].
    destruct (Hok Hw1) as (-> & _ & Hc2).
    exists w2, (ledger_entry (strftime E (clock w1)) false).
    cbn in Hi. rewrite Hi, Hinv. repeat split; done.
Qed.

Lemma handle_file_records_outcome_witness :
  exists w2 entry,
    handle_file failing_processor clip fresh_world = (Ok tt, w2)
    /\ has_ledger (<[clip := entry]> ∅) w2
    /\ recorded_success entry
       = Some (outcome (process_single_file failing_processor
                          (clock (count_read
                                    (advance STABLE_WAIT
                                       (count_read fresh_world)))) clip))
    /\ invoked w2 = invoked fresh_world ++ [clip]
    /\ content (store w2) = Readable (JsonText (processed (tracker w2))).
Proof.
  apply (handle_file_records_outcome failing_processor clip fresh_world
           (count_read (advance STABLE_WAIT (count_read fresh_world))) ∅);
    reflexivity.
Defined.

(** X6.  While writes to the tracker file fail, the loop body raises the
    error of the write for a file the probe finds stable, so the watch
    loop ends; the ledger in memory then holds the flag false for the
    file, also when the processor returned true, since the failed write
    of the first mark is handled as a failure of the processor. *)
Theorem handle_file_write_fault (E : env) (p : str) (w w1 : world)
    (fields : gmap str json) (e : oserror) (after : file_state) :
  has_ledger fields w ->
  write_fault (store w) = Some (e, after) ->
  is_file_stable E p STABLE_WAIT w = (Ok true, w1) ->
  exists w2 entry,
    handle_file E p w = (Raise (OSError e), w2)
    /\ has_ledger (<[p := entry]> fields) w2
    /\ recorded_success entry = Some false
    /\ invoked w2 = invoked w ++ [p]
    /\ content (store w2) = after.
Proof.
  intros Hp Hw Hst. unfold handle_file. unfold bind at 1.
  rewrite Hst. cbn [negb].
  apply is_file_stable_frame in Hst as (Ht & Hsto & Hinv).
  unfold has_ledger in Hp. rewrite <- Ht in Hp. rewrite <- Hsto in Hw.
  unfold try_except. unfold bind at 1. rewrite process_file_run.
  exists {| clock := clock w1;
            observed := observed w1;
            tracker := {| path := path (tracker w1);
                          processed :=
                            JObj (<[p := ledger_entry (strftime E (clock w1))
                                           false]> fields) |};
            store := {| content := after; write_fault := Some (e, after) |};
            invoked := invoked w ++ [p] |},
    (ledger_entry (strftime E (clock w1)) false).
  split; [|by repeat split].
  unfold mark_processed, _save, write_text. step. cbn. rewrite Hp. cbn.
  rewrite <- Hinv.
  destruct (process_single_file E (clock w1) p) as [success|e']; cbn.
  - rewrite !Hw. cbn. by rewrite insert_insert_eq.
  - rewrite Hp. cbn. by rewrite !Hw.
Qed.

Lemma handle_file_write_fault_witness :
  exists w2 entry,
    handle_file (constant_size 50) clip read_only_world
    = (Raise (OSError PermissionError), w2)
    /\ has_ledger (<[clip := entry]> ∅) w2
    /\ recorded_success entry = Some false
    /\ invoked w2 = invoked read_only_world ++ [clip]
    /\ content (store w2) = Missing.
Proof.
  apply (handle_file_write_fault (constant_size 50) clip read_only_world
           (count_read (advance STABLE_WAIT (count_read read_only_world)))
           ∅); reflexivity.
Defined.


(** ** Supported files *)

Lemma split_nonempty (sep : N) (s : str) : split sep s <> [].
Proof.
  destruct s as [|c s]; cbn; [done|].
  destruct (N.eqb c sep); [done|]. by destruct (split sep s).
Qed.

Lemma split_app_sep (sep : N) (d s : str) :
  split sep (d ++ sep :: s) = split sep d ++ split sep s.
Proof.
  induction d as [|c d IH]; cbn.
  - by rewrite N.eqb_refl.
  - destruct (N.eqb c sep); [by rewrite IH|]. rewrite IH.
    pose proof (split_nonempty sep d). by destruct (split sep d).
Qed.

Lemma split_no_sep (sep : N) (s : str) : sep ∉ s -> split sep s = [s].
Proof.
  induction s as [|c s IH]; cbn; [done|].
  intros [Hc Hs]%not_elem_of_cons.
  destruct (N.eqb_spec c sep) as [->|_]; [done|]. by rewrite IH.
Qed.

Lemma path_name_in_directory (dir name : str) :
  SEP ∉ name -> name <> [] -> name <> [DOT] ->
  path_name (dir ++ SEP :: name) = name.
Proof.
  intros Hsep Hne Hdot. unfold path_name, path_parts.
  rewrite split_app_sep, (split_no_sep SEP name Hsep), filter_app.
  rewrite (filter_cons_True _ name) by done.
  rewrite filter_nil. apply last_last.
Qed.

Lemma path_name_alone (name : str) :
  SEP ∉ name -> name <> [] -> name <> [DOT] -> path_name name = name.
Proof.
  intros Hsep Hne Hdot. unfold path_name, path_parts.
  rewrite (split_no_sep SEP name Hsep).
  by rewrite (filter_cons_True _ name) by done.
Qed.

(** X20.  Whether a file is supported depends on its name only, not on
    the directory it is in: a path made of any directory and a file name
    is supported exactly when the name alone is.  So the tracker file
    [processed_files.json], which [main] puts in the inbox by default,
    is no candidate of a scan, wherever the inbox is. *)
Theorem is_supported_file_by_name (dir name : str) :
  SEP ∉ name -> name <> [] -> name <> [DOT] ->
  is_supported_file (dir ++ SEP :: name) = is_supported_file name.
Proof.
  intros Hsep Hne Hdot. unfold is_supported_file, path_suffix.
  by rewrite path_name_in_directory, path_name_alone.
Qed.

Lemma is_supported_file_by_name_witness :
  is_supported_file
    (py "/srv/transcribe/inbox" ++ SEP :: py "processed_files.json")
  = false.
Proof.
  rewrite (is_supported_file_by_name (py "/srv/transcribe/inbox")
             (py "processed_files.json")).
  - vm_compute. reflexivity.
  - intros Hin. vm_compute in Hin.
    repeat (apply elem_of_cons in Hin as [Hin|Hin]; [discriminate|]).
    by apply elem_of_nil in Hin.
  - discriminate.
  - discriminate.
Defined.

End WatcherMore.

(** * Further properties of the Zoom client and poller *)

Module ZoomMore.
Import Zoom ZoomScenario ZoomTerms ZoomSpec.

(** ** Relations that every step of a computation keeps *)

Section Steps.
Context (R : state -> state -> Prop).
Hypothesis R_refl : forall st, R st st.
Hypothesis R_trans : forall st1 st2 st3, R st1 st2 -> R st2 st3 -> R st1 st3.

Lemma steps_ret {A} (a : A) : steps R (ret a).
Proof. intros st. apply R_refl. Qed.

Lemma steps_raise {A} (e : exn) : steps R (raise (A := A) e).
Proof. intros st. apply R_refl. Qed.

Lemma steps_get : steps R get.
Proof. intros st. apply R_refl. Qed.

Lemma steps_lift_result {A} (r : result A) : steps R (lift_result r).
Proof. intros st. apply R_refl. Qed.

Lemma steps_bind {A B} (c : M state A) (k : A -> M state B) :
  steps R c -> (forall a, steps R (k a)) -> steps R (bind c k).
Proof.
  intros Hc Hk st. unfold bind. specialize (Hc st).
  destruct (c st) as [[a|e] st1]; cbn in *; [|done].
  eapply R_trans; [exact Hc | apply Hk].
Qed.

Lemma steps_try_except {A} (c : M state A) p (h : exn -> M state A) :
  steps R c -> (forall e, steps R (h e)) -> steps R (try_except c p h).
Proof.
  intros Hc Hh st. unfold try_except. specialize (Hc st).
  destruct (c st) as [[a|e] st1]; cbn in *; [done|].
  destruct (p e); [|done]. eapply R_trans; [exact Hc | apply Hh].
Qed.

Lemma steps_modify (f : state -> state) :
  (forall st, R st (f st)) -> steps R (modify f).
Proof. intros Hf st. apply Hf. Qed.

Lemma steps_emit (e : event) :
  (forall st, R st (push e st)) -> steps R (emit e).
Proof. intros He st. apply He. Qed.

End Steps.

(** Walks down a computation built from the monad operations, leaving
    the events it emits and the updates it makes as goals. *)
Ltac walk Hrefl Htrans :=
  repeat lazymatch goal with
    | |- steps _ (bind _ _) => apply (steps_bind _ Htrans); [|intros ?]
    | |- steps _ (ret _) => apply (steps_ret _ Hrefl)
    | |- steps _ (raise _) => apply (steps_raise _ Hrefl)
    | |- steps _ get => apply (steps_get _ Hrefl)
    | |- steps _ (lift_result _) => apply (steps_lift_result _ Hrefl)
    | |- steps _ (try_except _ _ _) =>
        apply (steps_try_except _ Htrans); [|intros ?]
    | |- steps _ (modify _) => apply steps_modify; intros ?
    | |- steps _ (emit _) => apply steps_emit; intros ?
    | |- steps _ (if ?b then _ else _) => destruct b
    | |- steps _ (match ?x with _ => _ end) => destruct x
    | |- steps _ _ =>
        first
          [ progress cbn beta zeta
          | progress unfold insforge_request, get_zoom_token,
              save_zoom_token, get_processed_uuids, read_clock, load_token,
              refresh_token, _ensure_token, _api_get, list_recordings,
              get_meeting_transcript, fs_request, save_file_fn,
              set_zoom_last_poll, record_activity, count_transcript,
              raise_for_status ]
    end.

(** ** The trace only grows *)

Lemma grew_by_refl P st : grew_by P st st.
Proof. exists []. by rewrite app_nil_r. Qed.

Lemma grew_by_trans P st1 st2 st3 :
  grew_by P st1 st2 -> grew_by P st2 st3 -> grew_by P st1 st3.
Proof.
  intros (ev1 & Ht1 & Hq1) (ev2 & Ht2 & Hq2).
  exists (ev1 ++ ev2). rewrite Ht2, Ht1, <- app_assoc. split; [done|].
  by apply Forall_app.
Qed.

Lemma grew_by_push P e st : P e = true -> grew_by P st (push e st).
Proof. intros He. exists [e]. split; [done|]. by constructor. Qed.

Lemma grew_by_update P st st' : trace st' = trace st -> grew_by P st st'.
Proof. intros Ht. exists []. by rewrite app_nil_r. Qed.

Ltac walk_trace P :=
  walk (grew_by_refl P) (grew_by_trans P);
  try (apply grew_by_push; reflexivity);
  try (apply grew_by_update; reflexivity).

Lemma load_token_awake E cfg : steps (grew_by awake) (load_token E cfg).
Proof. walk_trace awake. Qed.

Lemma list_recordings_awake E cfg from_date to_date :
  steps (grew_by awake) (list_recordings E cfg from_date to_date).
Proof. walk_trace awake. Qed.

Lemma get_processed_uuids_awake E :
  steps (grew_by awake) (get_processed_uuids E).
Proof. walk_trace awake. Qed.

Lemma poll_meeting_awake E cfg processed m :
  steps (grew_by awake) (poll_meeting E cfg processed m).
Proof. unfold poll_meeting, mark_processed. walk_trace awake. Qed.

Lemma poll_meetings_awake E cfg processed ms n :
  steps (grew_by awake) (poll_meetings E cfg processed ms n).
Proof.
  revert n. induction ms as [|m ms IH]; intros n; cbn [poll_meetings].
  - apply steps_ret, grew_by_refl.
  - apply steps_bind; [apply grew_by_trans | apply poll_meeting_awake |].
    intros counted. apply IH.
Qed.

(** ** The pace of the poll loop *)

(** The [try] block of a turn sleeps only before a [continue], and then
    as its last request. *)
Lemma poll_try_sleeps (E : env) (cfg : config) (st : state) :
  match poll_try E cfg st with
  | (Ok Continue, st') =>
      exists events,
        trace st' = trace st ++ events ++ [Sleep (poll_interval cfg)]
        /\ Forall (fun e => awake e = true) events
  | (_, st') => grew_by awake st st'
  end.
Proof.
  unfold poll_try. unfold bind at 1.
  pose proof (load_token_awake E cfg st) as Hload.
  destruct (load_token E cfg st) as [[loaded|e] st1]; cbn in Hload; [|done].
  destruct loaded; cbn [negb].
  2:{ destruct Hload as (ev1 & Ht1 & Hq1). exists ev1. cbn.
      rewrite Ht1, <- app_assoc. done. }
  unfold bind at 1, get at 1. unfold bind at 1.
  pose proof (list_recordings_awake E cfg
                (utcnow_week_ago E (length (trace st1))) None st1) as Hlist.
  destruct (list_recordings E cfg _ None st1) as [[recordings|e] st2];
    cbn in Hlist; [|by eapply grew_by_trans].
  pose proof (grew_by_trans _ _ _ _ Hload Hlist) as H2.
  destruct (default [] (meetings recordings)) as [|m ms].
  { destruct H2 as (ev2 & Ht2 & Hq2). exists ev2. cbn.
    rewrite Ht2, <- app_assoc. done. }
  unfold bind at 1.
  pose proof (get_processed_uuids_awake E st2) as Hget.
  destruct (get_processed_uuids E st2) as [[processed|e] st3]; cbn in Hget;
    [|by eapply grew_by_trans].
  pose proof (grew_by_trans _ _ _ _ H2 Hget) as H3.
  unfold bind at 1.
  pose proof (poll_meetings_awake E cfg processed (m :: ms) 0 st3) as Hloop.
  destruct (poll_meetings E cfg processed (m :: ms) 0 st3)
    as [[new_count|e] st4]; cbn in Hloop; [|by eapply grew_by_trans].
  pose proof (grew_by_trans _ _ _ _ H3 Hloop) as H4.
  destruct (negb (new_count =? 0)); cbn;
    (eapply grew_by_trans; [exact H4|]); by apply grew_by_update.
Qed.

(** A turn of the loop ends with its one sleep. *)
Lemma poll_cycle_sleeps (E : env) (cfg : config) (st : state) :
  exists events,
    trace (snd (poll_cycle E cfg st))
    = trace st ++ events ++ [Sleep (poll_interval cfg)]
    /\ Forall (fun e => awake e = true) events.
Proof.
  unfold poll_cycle, try_except. unfold bind at 1.
  pose proof (poll_try_sleeps E cfg st) as Htry.
  destruct (poll_try E cfg st) as [[[]|e] st1].
  - exact Htry.
  - destruct Htry as (ev & Ht & Hq). exists ev. cbn.
    rewrite Ht, <- app_assoc. done.
  - destruct Htry as (ev & Ht & Hq). exists ev. cbn.
    rewrite Ht, <- app_assoc. done.
Qed.

Lemma filter_sleep_awake (events : list event) :
  Forall (fun e => awake e = true) events -> List.filter is_sleep events = [].
Proof.
  induction 1 as [|e events He _ IH]; cbn; [done|].
  unfold awake in He. by destruct (is_sleep e).
Qed.

(** X9.  The poll loop never raises, whatever InsForge, Zoom and the
    file system do, and it sleeps exactly once per turn, for the poll
    interval: the sleeps among the requests of any number of turns are
    that many sleeps of [poll_interval] seconds. *)
Theorem zoom_poll_loop_sleeps_every_turn (E : env) (cfg : config)
    (turns : nat) (st : state) :
  fst (zoom_poll_loop E cfg turns st) = Ok tt
  /\ exists events,
       trace (snd (zoom_poll_loop E cfg turns st)) = trace st ++ events
       /\ List.filter is_sleep events
          = repeat (Sleep (poll_interval cfg)) turns.
Proof.
  split; [apply zoom_poll_loop_returns|].
  revert st. induction turns as [|turns IH]; intros st.
  - exists []. by rewrite app_nil_r.
  - cbn [zoom_poll_loop]. unfold bind.
    pose proof (poll_cycle_returns E cfg st) as Hturn.
    destruct (poll_cycle_sleeps E cfg st) as (ev & Ht & Hq).
    destruct (poll_cycle E cfg st) as [[[]|e] st1]; [|discriminate].
    cbn in Ht. destruct (IH st1) as (rest & Hrest & Hsleeps).
    exists (ev ++ [Sleep (poll_interval cfg)] ++ rest).
    rewrite Hrest, Ht, <- !app_assoc. split; [done|].
    rewrite !List.filter_app, (filter_sleep_awake ev Hq), Hsleeps. done.
Qed.


(** ** The ledger row comes last *)

Lemma same_ledger_refl st : same_ledger st st.
Proof. by split. Qed.

Lemma same_ledger_trans st1 st2 st3 :
  same_ledger st1 st2 -> same_ledger st2 st3 -> same_ledger st1 st3.
Proof. intros [] []. split; congruence. Qed.

Ltac walk_ledger :=
  walk same_ledger_refl same_ledger_trans;
  try (split; reflexivity).

Lemma get_meeting_transcript_ledger E cfg meeting_id :
  steps same_ledger (get_meeting_transcript E cfg meeting_id).
Proof. walk_ledger. Qed.

Lemma fs_request_run (E : env) (e : event) (st : state) :
  fs_request E e st
  = (match fs_fault E (length (trace st)) with
     | Some err => Raise (OSError err)
     | None => Ok tt
     end, push e st).
Proof.
  unfold fs_request, emit. step.
  by destruct (fs_fault E (length (trace st))).
Qed.

Lemma save_file_fn_run (E : env) prefix filename data (st : state) :
  save_file_fn E prefix filename data st
  = (match save_file_fault E (length (trace st)) with
     | Some err => Raise err
     | None => Ok tt
     end, push (SaveFile prefix filename data) st).
Proof.
  unfold save_file_fn, emit. step.
  by destruct (save_file_fault E (length (trace st))).
Qed.

(** One request of the loop body: when it fails the body raises, with
    the ledger as it was. *)
Ltac request :=
  unfold bind at 1;
  rewrite ?fs_request_run, ?save_file_fn_run, ?insforge_request_run;
  match goal with
  | |- context [fs_fault ?E ?n] => destruct (fs_fault E n)
  | |- context [save_file_fault ?E ?n] => destruct (save_file_fault E n)
  | |- context [insforge_fault ?E ?n] => destruct (insforge_fault E n)
  end;
  cbn beta iota;
  [ intros [= <- <-];
    (split; [intros _; split; cbn; assumption | discriminate])
  | ].

(** X10.  The loop body for one meeting sends the ledger row as its last
    request, after the directory, the transcript and the metadata have
    been written, and saved when there is a save function.  So whenever
    the body does not return true, that is, when it skips the meeting or
    any step before the row or the row itself fails, the ledger and the
    counters are as before and the meeting stays eligible; when it
    returns true, the row of the meeting is in the ledger and the
    transcript counter has grown by one. *)
Theorem poll_meeting_marks_last (E : env) (cfg : config)
    (processed : gset str) (m : meeting) (st st' : state)
    (r : result bool) :
  poll_meeting E cfg processed m st = (r, st') ->
  (r <> Ok true -> same_ledger st st')
  /\ (r = Ok true ->
      exists u tr st1 dir meta row,
        uuid m = Some u /\ u <> [] /\ (u ∉ processed)
        /\ get_meeting_transcript E cfg (default [] (id m)) st
           = (Ok (Some tr), st1)
        /\ trace st'
           = trace st1
             ++ [Mkdir dir;
                 WriteText dir (py "transcript.vtt")
                   (TranscriptText (tr_content tr));
                 WriteText dir (py "metadata.json") (MetadataJson meta)]
             ++ save_events cfg dir (tr_content tr) meta
             ++ [MarkProcessed row]
        /\ meta_uuid meta = u /\ meeting_uuid row = u /\ local_path row = dir
        /\ zoom_processed st' = <[u := row]> (zoom_processed st)
        /\ zoom_transcript_count (bot_state st')
           = zoom_transcript_count (bot_state st) + 1).
Proof.
  intros Hrun. unfold poll_meeting in Hrun.
  destruct (uuid m) as [u|] eqn:Hu; cbn zeta in Hrun.
  1: change (default [] (Some u)) with u in Hrun.
  2: change (default [] (@None str)) with (@nil N) in Hrun.
  2:{ cbn [str_truthy negb orb] in Hrun. unfold ret in Hrun.
      injection Hrun as <- <-.
      split; [intros _; apply same_ledger_refl | discriminate]. }
  destruct (negb (str_truthy u) || bool_decide (u ∈ processed)) eqn:Hskip.
  { unfold ret in Hrun. injection Hrun as <- <-.
    split; [intros _; apply same_ledger_refl | discriminate]. }
  apply orb_false_iff in Hskip as [Hne Hnew].
  apply bool_decide_eq_false in Hnew.
  assert (Hu' : u <> []) by (by destruct u).
  unfold bind at 1 in Hrun.
  pose proof (get_meeting_transcript_ledger E cfg (default [] (id m)) st)
    as Hq.
  destruct (get_meeting_transcript E cfg (default [] (id m)) st)
    as [[[tr|]|e] st1] eqn:Hget; cbn in Hq.
  2,3: unfold ret in Hrun; injection Hrun as <- <-; split; [intros _; exact Hq | discriminate].
  destruct Hq as [Hq1 Hq2].
  revert Hrun. unfold bind at 1, get at 1. cbn beta iota.
  request. request. unfold bind at 1, get at 1. cbn beta iota. request.
  unfold save_events, mark_processed. rewrite Hu.
  unfold bind at 1.
  destruct (has_save_file_fn cfg).
  - request. request. request.
    unfold bind at 1. unfold bind at 1. unfold ret at 1. cbn beta iota.
    request.
    intros [= <- <-]. split; [done|]. intros _.
    eexists u, tr, st1, _, _, _. cbn. rewrite <- !app_assoc. cbn.
    rewrite Hq1, Hq2. repeat split; done.
  - unfold ret at 1. cbn beta iota.
    unfold bind at 1. unfold bind at 1. unfold ret at 1. cbn beta iota.
    request.
    intros [= <- <-]. split; [done|]. intros _.
    eexists u, tr, st1, _, _, _. cbn. rewrite <- !app_assoc. cbn.
    rewrite Hq1, Hq2. repeat split; done.
Qed.

Lemma poll_meeting_marks_last_witness :
  exists row,
    zoom_processed
      (snd (poll_meeting serving cfg0 {[ py "A" ]} meeting_B valid))
    = <[py "B" := row]> (zoom_processed valid)
    /\ meeting_uuid row = py "B".
Proof.
  destruct (poll_meeting_marks_last serving cfg0 {[ py "A" ]} meeting_B valid
              (snd (poll_meeting serving cfg0 {[ py "A" ]} meeting_B valid))
              (Ok true)) as [_ Htrue]; [vm_compute; reflexivity|].
  destruct (Htrue eq_refl)
    as (u & tr & st1 & dir & meta & row & Hu & _ & _ & _ & _ & _ & Hrow & _
        & Hledger & _).
  injection Hu as <-. by exists row.
Defined.

(** ** Meetings that have a ledger row *)

Lemma steps_bind_ret {A B} (R : state -> state -> Prop) (a : A)
    (k : A -> M state B) :
  steps R (k a) -> steps R (bind (ret a) k).
Proof. intros Hk st. apply Hk. Qed.

Lemma unseen_only_mono (seen seen' : gset str) (e : event) :
  seen ⊆ seen' -> unseen_only seen' e = true -> unseen_only seen e = true.
Proof.
  intros Hsub. destruct e as [| | | |row| | | | |d f []|d f|d f []| ]; cbn;
    try done; rewrite !bool_decide_eq_true; set_solver.
Qed.

Lemma grew_by_mono (P Q : event -> bool) st st' :
  (forall e, P e = true -> Q e = true) ->
  grew_by P st st' -> grew_by Q st st'.
Proof.
  intros HPQ (events & Ht & HP). exists events. split; [done|].
  eapply Forall_impl; [exact HP | exact HPQ].
Qed.

Lemma load_token_unseen E cfg seen :
  steps (grew_by (unseen_only seen)) (load_token E cfg).
Proof. walk_trace (unseen_only seen). Qed.

Lemma list_recordings_unseen E cfg seen from_date to_date :
  steps (grew_by (unseen_only seen)) (list_recordings E cfg from_date to_date).
Proof. walk_trace (unseen_only seen). Qed.

Lemma get_processed_uuids_run (E : env) (st : state) :
  get_processed_uuids E st
  = (match insforge_fault E (length (trace st)) with
     | Some err => Raise err
     | None => processed_uuids E (length (trace st))
     end, push GetProcessedUuids st).
Proof.
  unfold get_processed_uuids, emit. step.
  by destruct (insforge_fault E (length (trace st))).
Qed.

(** The loop body writes the metadata and the row of its meeting only,
    and only when the uuid is not in the set read at the start of the
    turn. *)
Lemma poll_meeting_unseen E cfg processed m :
  steps (grew_by (unseen_only processed)) (poll_meeting E cfg processed m).
Proof.
  unfold poll_meeting, mark_processed.
  destruct (uuid m) as [u|] eqn:Hu; cbn zeta.
  2:{ change (default [] (@None str)) with (@nil N).
      cbn [str_truthy negb orb]. apply steps_ret, grew_by_refl. }
  change (default [] (Some u)) with u.
  destruct (negb (str_truthy u) || bool_decide (u ∈ processed)) eqn:Hskip;
    [apply steps_ret, grew_by_refl|].
  apply orb_false_iff in Hskip as [_ Hnew].
  apply bool_decide_eq_false in Hnew.
  apply steps_bind; [apply grew_by_trans | walk_trace (unseen_only processed) |].
  intros [tr|]; [|apply steps_ret, grew_by_refl].
  repeat lazymatch goal with
    | |- steps _ (bind (ret _) _) => apply steps_bind_ret
    | |- steps _ (bind _ _) =>
        apply (steps_bind _ (grew_by_trans (unseen_only processed)));
        [|intros ?]
    | |- steps _ _ =>
        walk (grew_by_refl (unseen_only processed))
             (grew_by_trans (unseen_only processed))
    end.
  all: try (apply grew_by_update; reflexivity).
  all: apply grew_by_push; cbn; try reflexivity; by apply bool_decide_eq_true.
Qed.

Lemma poll_meetings_unseen E cfg processed ms n :
  steps (grew_by (unseen_only processed)) (poll_meetings E cfg processed ms n).
Proof.
  revert n. induction ms as [|m ms IH]; intros n; cbn [poll_meetings].
  - apply steps_ret, grew_by_refl.
  - apply steps_bind; [apply grew_by_trans | apply poll_meeting_unseen |].
    intros counted. apply IH.
Qed.

(** In a turn of the loop, what is written is written for meetings
    whose uuid is not in the set the read of the table answered. *)
Lemma poll_try_unseen (E : env) (cfg : config) (seen : gset str)
    (st : state) :
  (forall n answer, processed_uuids E n = Ok answer -> seen ⊆ answer) ->
  grew_by (unseen_only seen) st (snd (poll_try E cfg st)).
Proof.
  intros Hseen.
  unfold poll_try. unfold bind at 1.
  pose proof (load_token_unseen E cfg seen st) as Hload.
  destruct (load_token E cfg st) as [[loaded|e] st1]; cbn in Hload; [|done].
  destruct loaded; cbn [negb].
  2:{ eapply grew_by_trans; [exact Hload|]. by apply grew_by_push. }
  unfold bind at 1, get at 1. unfold bind at 1.
  pose proof (list_recordings_unseen E cfg seen
                (utcnow_week_ago E (length (trace st1))) None st1) as Hlist.
  destruct (list_recordings E cfg _ None st1) as [[recordings|e] st2];
    cbn in Hlist; [|by eapply grew_by_trans].
  pose proof (grew_by_trans _ _ _ _ Hload Hlist) as H2.
  destruct (default [] (meetings recordings)) as [|m ms].
  { eapply grew_by_trans; [exact H2|]. cbn.
    exists [Sleep (poll_interval cfg)]. split; [reflexivity | by constructor]. }
  unfold bind at 1. rewrite get_processed_uuids_run.
  assert (H3 : grew_by (unseen_only seen) st (push GetProcessedUuids st2)).
  { eapply grew_by_trans; [exact H2|]. by apply grew_by_push. }
  destruct (insforge_fault E (length (trace st2))); [done|].
  destruct (processed_uuids E (length (trace st2))) as [answer|e] eqn:Hans;
    [|done].
  apply Hseen in Hans.
  unfold bind at 1.
  pose proof (poll_meetings_unseen E cfg answer (m :: ms) 0
                (push GetProcessedUuids st2)) as Hloop.
  destruct (poll_meetings E cfg answer (m :: ms) 0 _) as [[new_count|e] st4];
    cbn in Hloop;
    apply (grew_by_mono _ (unseen_only seen)) in Hloop;
    try (intros ev; by apply unseen_only_mono);
    [|by eapply grew_by_trans].
  pose proof (grew_by_trans _ _ _ _ H3 Hloop) as H4.
  destruct (negb (new_count =? 0)); cbn;
    (eapply grew_by_trans; [exact H4|]); by apply grew_by_update.
Qed.

Lemma poll_cycle_unseen (E : env) (cfg : config) (seen : gset str)
    (st : state) :
  (forall n answer, processed_uuids E n = Ok answer -> seen ⊆ answer) ->
  grew_by (unseen_only seen) st (snd (poll_cycle E cfg st)).
Proof.
  intros Hseen. unfold poll_cycle, try_except. unfold bind at 1.
  pose proof (poll_try_unseen E cfg seen st Hseen) as Htry.
  destruct (poll_try E cfg st) as [[[]|e] st1]; cbn [snd] in Htry;
    [exact Htry| |]; (eapply grew_by_trans; [exact Htry|]);
    exists [Sleep (poll_interval cfg)]; (split; [reflexivity | by constructor]).
Qed.

(** X11.  As long as the reads of the ledger table are answered with
    the rows of the meetings in [seen], whatever else InsForge, Zoom and
    the file system do, over any number of turns the poll loop writes no
    metadata file and sends no ledger row for a meeting of [seen]: a
    transcript the ledger is known to hold is not pulled again.  The
    set is the one the service answers, not one the poller keeps: no
    condition is put on what the service answers beyond [seen]. *)
Theorem zoom_poll_loop_skips_ledger_meetings (E : env) (cfg : config)
    (turns : nat) (seen : gset str) (st : state) :
  (forall n answer, processed_uuids E n = Ok answer -> seen ⊆ answer) ->
  grew_by (unseen_only seen) st (snd (zoom_poll_loop E cfg turns st)).
Proof.
  intros Hseen. revert st. induction turns as [|turns IH]; intros st.
  - apply grew_by_refl.
  - cbn [zoom_poll_loop]. unfold bind.
    pose proof (poll_cycle_unseen E cfg seen st Hseen) as Hturn.
    destruct (poll_cycle E cfg st) as [[[]|e] st1]; cbn [snd] in Hturn;
      [|done].
    eapply grew_by_trans; [exact Hturn | apply IH].
Qed.

Lemma zoom_poll_loop_skips_ledger_meetings_witness :
  grew_by (unseen_only {[ py "A" ]}) valid
    (snd (zoom_poll_loop serving cfg0 1 valid))
  /\ zoom_transcript_count (bot_state (snd (zoom_poll_loop serving cfg0 1
                                             valid))) = 1.
Proof.
  split.
  - apply (zoom_poll_loop_skips_ledger_meetings serving cfg0 1 {[ py "A" ]}
             valid).
    intros n answer [= <-]. done.
  - vm_compute. reflexivity.
Defined.

(** ** The transcript file of a recording *)

Lemma find_first {A} (f : A -> bool) (before : list A) (x : A)
    (after : list A) :
  Forall (fun y => f y = false) before -> f x = true ->
  List.find f (before ++ x :: after) = Some x.
Proof.
  induction 1 as [|y before Hy _ IH]; cbn; intros Hx.
  - by rewrite Hx.
  - rewrite Hy. by apply IH.
Qed.

(** X12.  Of the files of a recording, the first that is a transcript,
    by its file type or its recording type, decides what
    [get_meeting_transcript] returns; the files after it are not looked
    at.  Without a download URL the result is [None] and nothing is
    requested.  With one, the token is checked again and the URL is
    fetched with the token in memory: a status in 2xx gives the
    transcript, any other status, 404 included, is raised. *)
Theorem transcript_is_first_transcript_file (E : env) (cfg : config)
    (meeting_id : str) (st st1 : state) (recording : api_json)
    (before after : list recording_file) (f : recording_file) :
  _api_get E cfg (py "/meetings/" ++ meeting_id ++ py "/recordings") [] st
  = (Ok recording, st1) ->
  recording_files recording = Some (before ++ f :: after) ->
  Forall (fun g => is_transcript_file g = false) before ->
  is_transcript_file f = true ->
  (download_url f = None \/ download_url f = Some [] ->
   get_meeting_transcript E cfg meeting_id st = (Ok None, st1))
  /\ (forall url st2,
        download_url f = Some url -> url <> [] ->
        _ensure_token E cfg st1 = (Ok tt, st2) ->
        get_meeting_transcript E cfg meeting_id st
        = (match download_get E (length (trace st2)) url (_access_token st2)
           with
           | Ok resp =>
               if (200 <=? status_code resp) && (status_code resp <? 300)
               then Ok (Some {| tr_content := body resp;
                                tr_download_url := url;
                                tr_file_type :=
                                  default (py "TRANSCRIPT") (file_type f) |})
               else Raise (HTTPStatusError (status_code resp))
           | Raise e => Raise e
           end, push (Download url (_access_token st2)) st2)).
Proof.
  intros Hget Hfiles Hbefore Hf.
  assert (Hrun : forall k : option api_json -> M state (option transcript),
            bind (try_except
                    (recording <- _api_get E cfg
                       (py "/meetings/" ++ meeting_id ++ py "/recordings") [];;
                     ret (Some recording))%py
                    (fun e => match e with
                              | HTTPStatusError _ => true
                              | _ => false
                              end)
                    (fun e => match e with
                              | HTTPStatusError code =>
                                  if code =? 404 then ret None else raise e
                              | _ => raise e
                              end)) k st
            = k (Some recording) st1).
  { intros k. unfold bind at 1. unfold try_except. unfold bind at 1.
    by rewrite Hget. }
  unfold get_meeting_transcript. rewrite Hrun, Hfiles.
  change (default [] (Some (before ++ f :: after))) with (before ++ f :: after).
  rewrite (find_first _ _ _ _ Hbefore Hf). split.
  - by intros [-> | ->].
  - intros url st2 -> Hurl Hensure.
    assert (Htruthy : str_truthy url = true) by by destruct url.
    rewrite Htruthy. cbn [negb]. unfold bind at 1. rewrite Hensure.
    run; reflexivity.
Qed.

Lemma transcript_is_first_transcript_file_witness :
  get_meeting_transcript serving cfg0 (py "42") valid
  = (Ok (Some {| tr_content := py "WEBVTT";
                 tr_download_url := py "https://zoom.us/rec/download/vtt";
                 tr_file_type := py "TRANSCRIPT" |}),
     push (Download (py "https://zoom.us/rec/download/vtt") (py "tok"))
       (push (ClockRead (inject_Z 500))
          (push (ApiGet (py "/meetings/" ++ py "42" ++ py "/recordings") []
                   (py "tok"))
             (push (ClockRead (inject_Z 500)) valid)))).
Proof.
  destruct (transcript_is_first_transcript_file serving cfg0 (py "42") valid
              (push (ApiGet (py "/meetings/" ++ py "42" ++ py "/recordings")
                       [] (py "tok"))
                 (push (ClockRead (inject_Z 500)) valid))
              recording_AB [audio_file] [] transcript_file)
    as [_ Hurl]; [reflexivity | reflexivity | | reflexivity |].
  - repeat constructor.
  - apply (Hurl (py "https://zoom.us/rec/download/vtt")
             (push (ClockRead (inject_Z 500))
                (push (ApiGet (py "/meetings/" ++ py "42" ++ py "/recordings")
                         [] (py "tok"))
                   (push (ClockRead (inject_Z 500)) valid))));
      [reflexivity | discriminate | reflexivity].
Defined.

(** ** The recent errors of the bot state *)

(** X13.  After [record_error] the list of recent errors holds at most 20
    entries, whatever it held before; the error recorded is the last
    entry, and the entries before it are the latest of those the list
    held, in their order; below 20 entries nothing is dropped.  Nothing
    else changes: the token and its expiry in the client, the token
    rows, the ledger rows, the trace, the transcript counter, the time
    of the last poll and the time of the last activity are as before. *)
Theorem record_error_keeps_last_20 (E : env) (e : exn) (st : state) :
  let entry := (now_iso E (length (trace st)), e) in
  let st' := snd (record_error E e st) in
  fst (record_error E e st) = Ok tt
  /\ (length (recent_errors (bot_state st')) <= 20)%nat
  /\ last (recent_errors (bot_state st')) = Some entry
  /\ recent_errors (bot_state st')
     `suffix_of` (recent_errors (bot_state st) ++ [entry])
  /\ (length (recent_errors (bot_state st)) < 20 ->
      recent_errors (bot_state st')
      = recent_errors (bot_state st) ++ [entry])%nat
  /\ _access_token st' = _access_token st
  /\ _expires_at st' = _expires_at st
  /\ zoom_tokens st' = zoom_tokens st
  /\ zoom_processed st' = zoom_processed st
  /\ trace st' = trace st
  /\ zoom_transcript_count (bot_state st')
     = zoom_transcript_count (bot_state st)
  /\ zoom_last_poll (bot_state st') = zoom_last_poll (bot_state st)
  /\ last_activity (bot_state st') = last_activity (bot_state st).
Proof.
  intros entry. unfold record_error, modify, set_bot_state.
  cbn [fst snd bot_state recent_errors trace zoom_processed
       zoom_transcript_count zoom_last_poll last_activity _access_token
       _expires_at zoom_tokens].
  fold entry. set (errors := recent_errors (bot_state st) ++ [entry]).
  assert (Hlen : length errors = S (length (recent_errors (bot_state st)))).
  { subst errors. rewrite length_app. cbn. lia. }
  split; [reflexivity|].
  destruct (20 <? length errors)%nat eqn:Hcut.
  - apply Nat.ltb_lt in Hcut. repeat split.
    + rewrite length_drop. lia.
    + subst errors. rewrite drop_app_le by lia. apply last_snoc.
    + apply suffix_drop.
    + intros Hshort. lia.
  - apply Nat.ltb_ge in Hcut. repeat split.
    + lia.
    + apply last_snoc.
    + done.
Qed.

(** ** Without a credential *)

(** X14.  Without a stored row, or with a row whose refresh token is
    absent or empty, [refresh_token] returns false after its one read of
    the token table: the token endpoint is not contacted and nothing is
    saved. *)
Theorem refresh_token_needs_stored_token (E : env) (cfg : config)
    (st : state) :
  insforge_fault E (length (trace st)) = None ->
  match zoom_tokens st !! client_user_label cfg with
  | None => True
  | Some row => tok_refresh_token row = None \/ tok_refresh_token row = Some []
  end ->
  refresh_token E cfg st
  = (Ok false, push (GetZoomToken (client_user_label cfg)) st).
Proof.
  intros Hdb Hrow. unfold refresh_token. unfold bind at 1.
  rewrite get_zoom_token_run, Hdb.
  destruct (zoom_tokens st !! client_user_label cfg) as [row|]; [|done].
  by destruct Hrow as [-> | ->].
Qed.

Lemma refresh_token_needs_stored_token_witness :
  refresh_token rejecting cfg0 signed_out
  = (Ok false, push (GetZoomToken (py "default")) signed_out).
Proof.
  apply (refresh_token_needs_stored_token rejecting cfg0 signed_out);
    reflexivity.
Defined.

(** X15.  Without a stored row for its label the poller pauses: a turn
    of the loop reads the token table, sleeps for the poll interval and
    returns, with no request to Zoom and no other change. *)
Theorem poll_cycle_pauses_without_token (E : env) (cfg : config)
    (st : state) :
  insforge_fault E (length (trace st)) = None ->
  zoom_tokens st !! client_user_label cfg = None ->
  poll_cycle E cfg st
  = (Ok tt, push (Sleep (poll_interval cfg))
              (push (GetZoomToken (client_user_label cfg)) st)).
Proof.
  intros Hdb Hrow. unfold poll_cycle, try_except, poll_try, load_token.
  unfold bind at 1. unfold bind at 1. unfold bind at 1.
  by rewrite get_zoom_token_run, Hdb, Hrow.
Qed.

Lemma poll_cycle_pauses_without_token_witness :
  poll_cycle rejecting cfg0 signed_out
  = (Ok tt, push (Sleep 300) (push (GetZoomToken (py "default")) signed_out)).
Proof.
  apply (poll_cycle_pauses_without_token rejecting cfg0 signed_out);
    reflexivity.
Defined.

End ZoomMore.

(** * Further properties of the sync passes *)

Module MirrorMore.
Import Mirror MirrorScenario MirrorTerms MirrorSpec.

(** ** A failed upload *)

Lemma upload_entries_fault faults existing prefix entries count log i e :
  (i < length (List.filter (needs_upload existing prefix) entries))%nat ->
  faults (length log + i)%nat = Some e ->
  (forall j, (j < i)%nat -> faults (length log + j)%nat = None) ->
  upload_entries faults existing prefix entries count log
  = (Raise e,
     log ++ map (fun f => (f, key_of prefix f))
              (firstn i (List.filter (needs_upload existing prefix) entries))).
Proof.
  revert count log i.
  induction entries as [|f entries IH]; intros count log i;
    cbn [upload_entries List.filter]; [cbn; lia|].
  unfold bind at 1. unfold upload_entry. cbn zeta.
  change (prefix ++ path_str (relative_to f)) with (key_of prefix f).
  destruct (needs_upload existing prefix f) eqn:Hneed;
    unfold needs_upload in Hneed.
  - apply andb_true_iff in Hneed as [Hfile Hnot%negb_true_iff].
    rewrite Hfile, Hnot. cbn [negb]. unfold upload_file. step.
    destruct i as [|i]; cbn [length firstn map]; intros Hi He Hbefore.
    + rewrite Nat.add_0_r in He. rewrite He. by rewrite app_nil_r.
    + specialize (Hbefore 0%nat ltac:(lia)) as H0.
      rewrite Nat.add_0_r in H0. rewrite H0.
      rewrite (IH _ (log ++ [(f, key_of prefix f)]) i).
      * by rewrite <- app_assoc.
      * lia.
      * rewrite length_app. cbn [length].
        by replace (length log + 1 + i)%nat with (length log + S i)%nat by lia.
      * intros j Hj. rewrite length_app. cbn [length].
        replace (length log + 1 + j)%nat with (length log + S j)%nat by lia.
        apply Hbefore. lia.
  - destruct (is_file f); cbn [negb andb] in *.
    + apply negb_false_iff in Hneed. rewrite Hneed. step. apply IH.
    + step. apply IH.
Qed.

Lemma upload_entries_no_fault faults existing prefix entries count log :
  (forall j, (j < length (List.filter (needs_upload existing prefix) entries))
             %nat -> faults (length log + j)%nat = None) ->
  upload_entries faults existing prefix entries count log
  = (Ok (count + Z.of_nat (length (List.filter (needs_upload existing prefix)
                                     entries))),
     log ++ map (fun f => (f, key_of prefix f))
              (List.filter (needs_upload existing prefix) entries)).
Proof.
  revert count log.
  induction entries as [|f entries IH]; intros count log;
    cbn [upload_entries List.filter].
  - intros _. cbn. by rewrite app_nil_r, Z.add_0_r.
  - unfold bind at 1. unfold upload_entry. cbn zeta.
    change (prefix ++ path_str (relative_to f)) with (key_of prefix f).
    destruct (needs_upload existing prefix f) eqn:Hneed;
      unfold needs_upload in Hneed.
    + apply andb_true_iff in Hneed as [Hfile Hnot%negb_true_iff].
      rewrite Hfile, Hnot. cbn [negb]. unfold upload_file. step.
      cbn [length map]. intros Hnone.
      specialize (Hnone 0%nat ltac:(lia)) as H0.
      rewrite Nat.add_0_r in H0. rewrite H0.
      rewrite (IH _ (log ++ [(f, key_of prefix f)])).
      * rewrite <- app_assoc. cbn [app]. do 2 f_equal. lia.
      * intros j Hj. rewrite length_app. cbn [length].
        replace (length log + 1 + j)%nat with (length log + S j)%nat by lia.
        apply Hnone. lia.
    + destruct (is_file f); cbn [negb andb] in *.
      * apply negb_false_iff in Hneed. rewrite Hneed. step. apply IH.
      * step. apply IH.
Qed.

(** X16.  An upload pass does not catch the failure of an upload: when
    the upload number [k] of a pass is the first that fails, among the
    files that need one, the pass ends there with its exception, having
    uploaded the [k] files before it among those that need an upload, in
    the order of the directory walk; the failing file and the ones after
    it are left out.  When no upload fails the pass returns, with all
    of them uploaded and their number as its result. *)
Theorem upload_pass_stops_at_first_failure (faults : upload_faults)
    (pages : list page) (prefix : str) (entries : list local_entry) :
  let needed :=
    List.filter (needs_upload (existing_of pages) prefix) entries in
  let pass := _sync_local_to_s3_prefix faults pages prefix (Some entries) [] in
  (forall k e,
      (k < length needed)%nat ->
      faults k = Some e ->
      (forall j, (j < k)%nat -> faults j = None) ->
      pass = (Raise e, map (fun f => (f, key_of prefix f)) (firstn k needed)))
  /\ ((forall j, (j < length needed)%nat -> faults j = None) ->
      pass = (Ok (Z.of_nat (length needed)),
              map (fun f => (f, key_of prefix f)) needed)).
Proof.
  intros needed pass. subst needed pass.
  cbn [_sync_local_to_s3_prefix]. cbn zeta. split.
  - intros k e Hk He Hbefore.
    by rewrite (upload_entries_fault faults _ prefix entries 0 [] k e).
  - intros Hnone.
    by rewrite (upload_entries_no_fault faults _ prefix entries 0 []).
Qed.

Lemma upload_pass_stops_at_first_failure_witness :
  _sync_local_to_s3_prefix second_fails [] prefix
    (Some [file_a; file_b; file_c]) []
  = (Raise TransportError, [(file_a, py "bot/a")]).
Proof.
  destruct (upload_pass_stops_at_first_failure second_fails [] prefix
              [file_a; file_b; file_c]) as [Hfails _].
  rewrite (Hfails 1%nat TransportError).
  - vm_compute. reflexivity.
  - vm_compute. lia.
  - reflexivity.
  - intros j Hj. by replace j with 0%nat by lia.
Defined.

(** ** Keys and paths *)

Lemma split_single (part : str) : SEP ∉ part -> split SEP part = [part].
Proof.
  induction part as [|c part IH]; cbn; [done|].
  intros [Hc Hpart]%not_elem_of_cons.
  destruct (N.eqb_spec c SEP) as [->|_]; [done|]. by rewrite IH.
Qed.

Lemma split_part (part rest : str) :
  SEP ∉ part -> split SEP (part ++ SEP :: rest) = part :: split SEP rest.
Proof.
  induction part as [|c part IH]; cbn.
  - intros _. by rewrite ?N.eqb_refl.
  - intros [Hc Hpart]%not_elem_of_cons.
    destruct (N.eqb_spec c SEP) as [->|_]; [done|]. by rewrite IH.
Qed.

Lemma split_path_str (p : Path) :
  p <> [] -> Forall proper_part p -> split SEP (path_str p) = p.
Proof.
  intros Hne Hp. induction Hp as [|part rest (_ & _ & Hsep) Hrest IH];
    [done|].
  destruct rest as [|part' rest].
  - cbn. by apply split_single.
  - change (path_str (part :: part' :: rest))
      with (part ++ SEP :: path_str (part' :: rest)).
    rewrite split_part by done. by rewrite IH.
Qed.

Lemma path_parts_path_str (p : Path) :
  proper_path p -> path_parts (path_str p) = p.
Proof.
  intros [Hne Hp]. unfold path_parts. rewrite split_path_str by done.
  clear Hne. induction Hp as [|part rest (Hn & Hd & _) _ IH]; [done|].
  rewrite filter_cons_True by done. by rewrite IH.
Qed.

Lemma lstrip_sep_path_str (p : Path) :
  proper_path p -> lstrip_sep (path_str p) = path_str p.
Proof.
  intros [Hne Hp]. destruct Hp as [|part rest (Hn & _ & Hsep) _]; [done|].
  destruct part as [|c part]; [done|].
  apply not_elem_of_cons in Hsep as [Hc _].
  assert (Hhead : exists s, path_str ((c :: part) :: rest) = c :: s).
  { destruct rest; cbn; eauto. }
  destruct Hhead as [s ->]. cbn.
  by destruct (N.eqb_spec c SEP).
Qed.

(** X17.  The download pass puts an object that the upload pass wrote
    back where it came from: for a file of a directory walk, the key it
    is uploaded under, read by the download pass with the same prefix,
    has the relative path of the file, so that the local path of the
    object is the directory followed by the parts of that path. *)
Theorem uploaded_key_comes_back (prefix : str) (local_dir : Path)
    (f : local_entry) (n : Z) :
  proper_path (relative_to f) ->
  relative_key prefix (key_of prefix f) = path_str (relative_to f)
  /\ local_path_of prefix local_dir {| Key := key_of prefix f; Size := n |}
     = local_dir ++ relative_to f.
Proof.
  intros Hp.
  assert (Hrel : relative_key prefix (key_of prefix f)
                 = path_str (relative_to f)).
  { unfold relative_key, key_of. rewrite drop_app_length.
    by apply lstrip_sep_path_str. }
  split; [exact Hrel|].
  unfold local_path_of, joinpath. cbn [Key]. rewrite Hrel.
  by rewrite path_parts_path_str.
Qed.

Lemma uploaded_key_comes_back_witness :
  relative_key prefix (key_of prefix file_c) = py "2026/c.txt"
  /\ local_path_of prefix local_dir
       {| Key := key_of prefix file_c; Size := 30 |}
     = [py "data"; py "bot"; py "2026"; py "c.txt"].
Proof.
  apply (uploaded_key_comes_back prefix local_dir file_c 30).
  split; [discriminate|].
  repeat constructor; try discriminate;
    intros Hin; vm_compute in Hin;
    repeat (apply elem_of_cons in Hin as [Hin|Hin]; [discriminate|]);
    by apply elem_of_nil in Hin.
Defined.

(** ** A failed download *)

Section DownloadFailure.
Context {FS : Type} `{LocalDisk FS}.

Lemma download_objects_app prefix local_dir (l1 l2 : list s3_object)
    count (s : pass) :
  download_objects prefix local_dir (l1 ++ l2) count s
  = match download_objects prefix local_dir l1 count s with
    | (Ok c, s1) => download_objects prefix local_dir l2 c s1
    | (Raise e, s1) => (Raise e, s1)
    end.
Proof.
  revert count s. induction l1 as [|obj l1 IH]; intros count s;
    cbn [app download_objects]; [done|].
  unfold bind.
  destruct (download_object prefix local_dir obj s) as [[grew|e] s1];
    [apply IH | done].
Qed.

Lemma independent_app prefix local_dir (l1 l2 : list s3_object) :
  independent prefix local_dir (l1 ++ l2) ->
  independent prefix local_dir l1.
Proof.
  induction l1 as [|obj l1 IH]; cbn [app independent]; [done|].
  intros [Hstep Hrest]. split; [|by apply IH].
  intros d d1 d2 Hmk Hdl. specialize (Hstep d d1 d2 Hmk Hdl).
  by apply Forall_app in Hstep as [Hl1 _].
Qed.

(** The objects fetched leave the local paths of the objects listed
    after them as they were. *)
Lemma download_objects_later prefix local_dir (l1 l2 : list s3_object)
    count (s : pass) c s1 :
  independent prefix local_dir (l1 ++ l2) ->
  download_objects prefix local_dir l1 count s = (Ok c, s1) ->
  Forall (fun later =>
            size_of (local_path_of prefix local_dir later) (disk s1)
            = size_of (local_path_of prefix local_dir later) (disk s)) l2.
Proof.
  revert count s. induction l1 as [|obj l1 IH]; intros count s;
    cbn [app independent download_objects].
  - intros _. step. intros [= <- <-]. by apply Forall_forall.
  - intros [Hstep Hind]. unfold bind at 1. rewrite download_object_run.
    destruct (wanted prefix local_dir (disk s) obj); [|by apply IH].
    cbn zeta.
    destruct (mkdir_parents _ (disk s)) as [[[]|e1] d1] eqn:Hmk;
      [|discriminate].
    destruct (download_file _ _ d1) as [[[]|e2] d2] eqn:Hdl; [|discriminate].
    intros Hrest. apply IH in Hrest; [|done]. cbn [disk] in Hrest.
    specialize (Hstep _ _ _ Hmk Hdl). apply Forall_app in Hstep as [_ Hl2].
    rewrite Forall_forall in *. intros later Hin.
    rewrite (Hrest later Hin). by apply Hl2.
Qed.

End DownloadFailure.

(** X21.  A download pass does not catch the failure of a fetch.  When
    the objects listed before an object are passed without a failure,
    the object is wanted on the disk the pass starts from, and its
    fetch fails on the disk then reached, be it that its directory
    cannot be made or that the download fails, the pass ends there with
    that exception: it has fetched, in the order of the listing, the
    wanted objects before the failing one, and the ones after it are
    left out.  This for a listing in which the fetch of one object
    leaves the local paths of the later ones alone. *)
Theorem download_pass_stops_at_first_failure (pages : list page)
    (prefix : str) (FS : Type) (D : LocalDisk FS) (local_dir : Path)
    (d0 d1 d2 : FS) (before after : list s3_object) (obj : s3_object)
    (c : Z) (s1 : pass) (e : exn) :
  let p := local_path_of prefix local_dir obj in
  mkdir_parents local_dir d0 = (Ok tt, d1) ->
  independent prefix local_dir (listed pages) ->
  listed pages = before ++ obj :: after ->
  download_objects prefix local_dir before 0 {| disk := d1; fetched := [] |}
  = (Ok c, s1) ->
  wanted prefix local_dir d1 obj = true ->
  (mkdir_parents (parent p) (disk s1) = (Raise e, d2)
   \/ exists d', mkdir_parents (parent p) (disk s1) = (Ok tt, d')
                 /\ download_file (Key obj) p d' = (Raise e, d2)) ->
  _sync_s3_prefix_to_local pages prefix local_dir
    {| disk := d0; fetched := [] |}
  = (Raise e,
     {| disk := d2;
        fetched := List.filter (wanted prefix local_dir d1) before |}).
Proof.
  intros p Hmk Hind Hlist Hbefore Hwanted Hfails.
  unfold _sync_s3_prefix_to_local. unfold bind at 1.
  unfold on_disk. cbn [disk fetched]. rewrite Hmk, Hlist.
  rewrite Hlist in Hind.
  rewrite download_objects_app, Hbefore.
  pose proof (download_objects_later prefix local_dir before (obj :: after)
                0 _ c s1 Hind Hbefore) as Hlater.
  apply Forall_cons in Hlater as [Hsame _]. cbn [disk] in Hsame.
  apply (download_objects_log prefix local_dir d1) in Hbefore as [Hlog _];
    [| by eapply independent_app | by apply Forall_forall].
  cbn [fetched app] in Hlog.
  cbn [download_objects]. unfold bind at 1. rewrite download_object_run.
  rewrite (wanted_same_sizes prefix local_dir (disk s1) d1 obj Hsame).
  rewrite Hwanted. cbn zeta. fold p.
  destruct Hfails as [Hdir | (d' & Hdir & Hget)].
  - rewrite Hdir. by rewrite Hlog.
  - rewrite Hdir, Hget. by rewrite Hlog.
Qed.

Lemma flat_disk_independent_a :
  @independent _ (flat_disk remote_a) prefix local_dir [object_a; object_b].
Proof.
  cbn [independent]. split; [|split; [intros; constructor | exact I]].
  intros d d1 d2.
  change (local_path_of prefix local_dir object_a)
    with [py "data"; py "bot"; py "a"].
  cbn [mkdir_parents download_file flat_disk].
  change (remote_a !! Key object_a) with (Some 10).
  intros [= <-] [= <-]. constructor; [|constructor].
  change (local_path_of prefix local_dir object_b)
    with [py "data"; py "bot"; py "b"].
  cbn [size_of flat_disk].
  rewrite lookup_insert_ne by (intros Heq; vm_compute in Heq; discriminate).
  cbn [parent removelast mkdirs app].
  repeat case_match;
    rewrite ?lookup_insert_ne
      by (intros Heq; vm_compute in Heq; discriminate);
    reflexivity.
Qed.

Lemma download_pass_stops_at_first_failure_witness :
  @_sync_s3_prefix_to_local _ (flat_disk remote_a)
    [Some [object_a; object_b]] prefix local_dir
    {| disk := ∅; fetched := [] |}
  = (Raise (HTTPStatusError 404),
     {| disk := disk_a; fetched := [object_a] |}).
Proof.
  rewrite (download_pass_stops_at_first_failure [Some [object_a; object_b]]
             prefix _ (flat_disk remote_a) local_dir ∅ disk_bot disk_a
             [object_a] [] object_b 1
             {| disk := disk_a; fetched := [object_a] |}
             (HTTPStatusError 404)).
  - vm_compute. reflexivity.
  - vm_compute. reflexivity.
  - exact flat_disk_independent_a.
  - reflexivity.
  - vm_compute. reflexivity.
  - vm_compute. reflexivity.
  - right. exists disk_a. split; vm_compute; reflexivity.
Defined.

End MirrorMore.

(** * Properties of the file names of the bot *)

Module TelegramSpec.
Import Telegram.

Lemma split_head_no_sep (sep : N) (part rest : str) :
  sep ∉ part -> hd [] (split sep (part ++ sep :: rest)) = part.
Proof.
  induction part as [|c part IH]; cbn.
  - intros _. by rewrite N.eqb_refl.
  - intros [Hc Hpart]%not_elem_of_cons.
    destruct (N.eqb_spec c sep) as [->|_]; [done|].
    specialize (IH Hpart). by destruct (split sep (part ++ sep :: rest)); subst.
Qed.

Lemma split_head_whole (sep : N) (part : str) :
  sep ∉ part -> hd [] (split sep part) = part.
Proof.
  induction part as [|c part IH]; cbn; [done|].
  intros [Hc Hpart]%not_elem_of_cons.
  destruct (N.eqb_spec c sep) as [->|_]; [done|].
  specialize (IH Hpart). by destruct (split sep part); subst.
Qed.

Lemma mime_to_ext_cases (mime_type : str) :
  _mime_to_ext mime_type
  ∈ [py ".ogg"; py ".mp3"; py ".m4a"; py ".aac"; py ".wav"; py ".mp4";
     py ".mov"].
Proof.
  unfold _mime_to_ext.
  destruct (mapping !! _) as [ext|] eqn:Hget; cbn [default].
  - apply elem_of_list_to_map_2 in Hget.
    repeat (apply elem_of_cons in Hget as [[= _ <-]|Hget];
            [set_solver|]).
    by apply elem_of_nil in Hget.
  - set_solver.
Qed.

(** X18.  Whatever MIME type an audio message declares, the extension
    [_mime_to_ext] gives is one of the supported extensions, so the name
    the audio is stored under is a file the watcher and the transcriber
    accept; an unknown type gives the extension of Ogg.  What follows a
    semicolon in the type is not looked at. *)
Theorem mime_to_ext_is_supported (mime_type : str) :
  _mime_to_ext mime_type ∈ Watcher.SUPPORTED_EXTENSIONS
  /\ Watcher.is_supported_file (audio_filename (_mime_to_ext mime_type))
     = true
  /\ (forall params, SEMICOLON ∉ mime_type ->
      _mime_to_ext (mime_type ++ SEMICOLON :: params)
      = _mime_to_ext mime_type).
Proof.
  pose proof (mime_to_ext_cases mime_type) as Hcases.
  split; [|split].
  - repeat (apply elem_of_cons in Hcases as [->|Hcases];
            [apply (bool_decide_unpack _); vm_compute; reflexivity|]).
    by apply elem_of_nil in Hcases.
  - repeat (apply elem_of_cons in Hcases as [->|Hcases];
            [vm_compute; reflexivity|]).
    by apply elem_of_nil in Hcases.
  - intros params Hsemi. unfold _mime_to_ext.
    by rewrite split_head_no_sep, split_head_whole.
Qed.

End TelegramSpec.

(** * Properties of [main] of [transcribe.py] *)

Module TranscribeSpec.
Import Transcribe TranscribeScenario.






End TranscribeSpec.
